(** * Terminal output pipeline of the emdash renderer

    A shallow embedding of [src/renderer/components/TerminalPane.tsx]
    (snapshot cache, echo-artifact sanitizer, history/fallback
    reconciliation, early-exit detection) and of the terminal focus
    registry, together with the properties stated about them. *)

From Stdlib Require Import ZArith NArith List Bool Lia Ascii String.
From Stdlib Require Import DecimalString.
From stdpp Require Import base option list gmap.
Import ListNotations.

Local Open Scope nat_scope.

(** ** JavaScript strings

    A JavaScript string is a sequence of UTF-16 code units.  The regular
    expressions of the sanitizer carry no [u] flag, so they work on code
    units, as do [startsWith], [slice], [lastIndexOf] and [length]. *)

Abbreviation jsstring := (list N).

(** Code units of a literal written with ASCII characters. *)
Definition js (s : string) : jsstring :=
  map N_of_ascii (list_ascii_of_string s).

(** [!text]: the empty string is the only falsy string. *)
Definition falsy (s : jsstring) : bool :=
  match s with
  | [] => true
  | _ :: _ => false
  end.

Definition ESC : N := 27%N.
Definition BEL : N := 7%N.
Definition BACKSLASH : N := 92%N.

(** [String.prototype.startsWith(search)] at position 0. *)
Fixpoint startsWith (s search : jsstring) {struct search} : bool :=
  match search with
  | [] => true
  | c :: search' =>
      match s with
      | [] => false
      | d :: s' => (d =? c)%N && startsWith s' search'
      end
  end.

(** [String.prototype.slice(start)] and [slice(start, end)] with the
    clamping of relative indices that JavaScript applies. *)
Definition clamp_index (len : nat) (i : Z) : nat :=
  if (i <? 0)%Z then Z.to_nat (Z.max (Z.of_nat len + i) 0)
  else Nat.min (Z.to_nat i) len.

Definition slice_from (s : jsstring) (start : Z) : jsstring :=
  drop (clamp_index (length s) start) s.

Definition slice (s : jsstring) (start stop : Z) : jsstring :=
  let from := clamp_index (length s) start in
  let to := clamp_index (length s) stop in
  take (to - from) (drop from s).

(** [String.prototype.lastIndexOf(search)]: the greatest index at which
    [search] occurs, or [-1]. *)
Fixpoint lastIndexOf_from (s search : jsstring) (base : nat) : Z :=
  match s with
  | [] => if startsWith [] search then Z.of_nat base else (-1)%Z
  | _ :: s' =>
      let later := lastIndexOf_from s' search (S base) in
      if (later =? -1)%Z
      then (if startsWith s search then Z.of_nat base else (-1)%Z)
      else later
  end.

Definition lastIndexOf (s search : jsstring) : Z :=
  lastIndexOf_from s search 0.

(** ** Exceptions

    [try { ... } catch { ... }] blocks are modelled with an explicit
    outcome: a computation returns a value or throws. *)

Inductive outcome (A : Type) : Type :=
| Ret (a : A)
| Throw.
Arguments Ret {A} a.
Arguments Throw {A}.

Definition try_catch {A : Type} (body : outcome A) (handler : A) : A :=
  match body with
  | Ret a => a
  | Throw => handler
  end.

(** One statement after another: when the first throws, the rest is
    skipped. *)
Definition bind {A B : Type} (m : outcome A) (f : A -> outcome B)
  : outcome B :=
  match m with
  | Ret a => f a
  | Throw => Throw
  end.

Notation "'let*' x ':=' m 'in' k" := (bind m (fun x => k))
  (at level 10, x name, m at level 100, k at level 200).

(** ** Regular expressions

    The backtracking matcher of ECMAScript (the [m(x, c)] matchers of
    the language specification), restricted to the constructs that occur
    in the four regular expressions of the sanitizer. *)

Module RegExp.

Inductive regex : Type :=
| REmpty
| RChar (p : N -> bool)            (* a literal, an escape or a class *)
| RSeq (r1 r2 : regex)
| RAlt (r1 r2 : regex)             (* r1|r2 *)
| RStar (greedy : bool) (r : regex) (* r* and r*? *)
| RGroup (n : nat) (r : regex)     (* capturing group number n *)
| RBol                             (* ^ *)
| REol                             (* $ *)
| RLookahead (r : regex).          (* (?=r) *)

(** [r+] is [rr*]; a non-capturing group [(?:r)] is [r] itself. *)
Definition RPlus (r : regex) : regex := RSeq r (RStar true r).

Definition lit (c : N) : regex := RChar (N.eqb c).

(** [\d] *)
Definition is_digit (c : N) : bool := (48 <=? c)%N && (c <=? 57)%N.

(** [\s]: WhiteSpace and LineTerminator code points. *)
Definition is_space (c : N) : bool :=
  ((9 <=? c)%N && (c <=? 13)%N) || (c =? 32)%N || (c =? 160)%N ||
  (c =? 0x1680)%N || ((0x2000 <=? c)%N && (c <=? 0x200a)%N) ||
  (c =? 0x2028)%N || (c =? 0x2029)%N || (c =? 0x202f)%N ||
  (c =? 0x205f)%N || (c =? 0x3000)%N || (c =? 0xfeff)%N.

(** Captures: (group number, (start, end)), most recent first. *)
Definition captures : Type := list (nat * (nat * nat)).

Fixpoint capture (n : nat) (caps : captures) : option (nat * nat) :=
  match caps with
  | [] => None
  | (m, range) :: caps' => if m =? n then Some range else capture n caps'
  end.

Definition MatchResult : Type := option (nat * captures).
Definition Continuation : Type := nat -> captures -> MatchResult.

Section Matcher.

Variable input : jsstring.

(** RepeatMatcher with min = 0 and max = infinity, for the matcher [m]
    of the repeated term: an iteration that consumes nothing is
    rejected, so the number of iterations is bounded by the number of
    code units left, which is the fuel of the loop.  A greedy loop tries
    one more iteration before the continuation, a lazy one after. *)
Fixpoint RepeatMatcher
  (m : nat -> captures -> Continuation -> MatchResult) (greedy : bool)
  (k : Continuation) (fuel : nat) (x : nat) (caps : captures) {struct fuel}
  : MatchResult :=
  let iterate :=
    match fuel with
    | O => None
    | S fuel' =>
        m x caps
          (fun y caps' =>
             if y =? x then None else RepeatMatcher m greedy k fuel' y caps')
    end in
  if greedy
  then match iterate with
       | Some res => Some res
       | None => k x caps
       end
  else match k x caps with
       | Some res => Some res
       | None => iterate
       end.

(** [matcher r x caps k]: match [r] at index [x], then continue with
    [k]; when the continuation fails, backtrack. *)
Fixpoint matcher (r : regex) (x : nat) (caps : captures) (k : Continuation)
  {struct r} : MatchResult :=
  match r with
  | REmpty => k x caps
  | RChar p =>
      match input !! x with
      | Some ch => if p ch then k (S x) caps else None
      | None => None
      end
  | RSeq r1 r2 => matcher r1 x caps (fun y caps' => matcher r2 y caps' k)
  | RAlt r1 r2 =>
      match matcher r1 x caps k with
      | Some res => Some res
      | None => matcher r2 x caps k
      end
  | RStar greedy r1 =>
      RepeatMatcher (matcher r1) greedy k (S (length input - x)) x caps
  | RGroup n r1 =>
      matcher r1 x caps (fun y caps' => k y ((n, (x, y)) :: caps'))
  | RBol => if x =? 0 then k x caps else None
  | REol => if x =? length input then k x caps else None
  | RLookahead r1 =>
      match matcher r1 x caps (fun y caps' => Some (y, caps')) with
      | Some (_, caps') => k x caps'
      | None => None
      end
  end.

(** RegExpBuiltinExec without the sticky flag: try [lastIndex],
    [lastIndex + 1], ... up to the length of the input. *)
Fixpoint exec_loop (r : regex) (n : nat) (lastIndex : nat)
  : option (nat * nat * captures) :=
  match matcher r lastIndex [] (fun y caps => Some (y, caps)) with
  | Some (e, caps) => Some (lastIndex, e, caps)
  | None =>
      match n with
      | O => None
      | S n' => exec_loop r n' (S lastIndex)
      end
  end.

Definition exec (r : regex) (lastIndex : nat) : option (nat * nat * captures) :=
  if length input <? lastIndex then None
  else exec_loop r (length input - lastIndex) lastIndex.

(** [regex.test(input)] for a regular expression without the [g] flag. *)
Definition test (r : regex) : bool :=
  match exec r 0 with
  | Some _ => true
  | None => false
  end.

(** The results gathered by [String.prototype.replace] for a global
    regular expression; an empty match advances [lastIndex] by one. *)
Fixpoint collect_matches (r : regex) (fuel : nat) (lastIndex : nat)
  : list (nat * nat * captures) :=
  match fuel with
  | O => []
  | S fuel' =>
      match exec r lastIndex with
      | None => []
      | Some (st, en, caps) =>
          (st, en, caps)
            :: collect_matches r fuel' (if en =? st then S en else en)
      end
  end.

(** Replacement patterns: literal text and [$n] references. *)
Inductive repl_item : Type :=
| Lit (s : jsstring)
| Ref (n : nat).

Definition substitution (template : list repl_item) (caps : captures)
  : jsstring :=
  concat
    (map (fun item =>
            match item with
            | Lit s => s
            | Ref n =>
                match capture n caps with
                | Some (from, to) => take (to - from) (drop from input)
                | None => []
                end
            end) template).

Fixpoint assemble (template : list repl_item)
  (results : list (nat * nat * captures)) (nextSourcePosition : nat)
  : jsstring :=
  match results with
  | [] => drop nextSourcePosition input
  | (position, en, caps) :: results' =>
      if nextSourcePosition <=? position
      then take (position - nextSourcePosition) (drop nextSourcePosition input)
             ++ substitution template caps
             ++ assemble template results' en
      else assemble template results' nextSourcePosition
  end.

(** [input.replace(/r/g, template)] *)
Definition replace (r : regex) (template : list repl_item) : jsstring :=
  assemble template (collect_matches r (S (length input)) 0) 0.

(** What a match is, without reference to the search order: [lang r x y]
    holds when the code units from index [x] up to [y] form a word of
    [r] in the context of [input]. *)
Inductive lang : regex -> nat -> nat -> Prop :=
| lang_empty x : lang REmpty x x
| lang_char p x ch :
    input !! x = Some ch -> p ch = true -> lang (RChar p) x (S x)
| lang_seq r1 r2 x y z :
    lang r1 x y -> lang r2 y z -> lang (RSeq r1 r2) x z
| lang_alt_l r1 r2 x y : lang r1 x y -> lang (RAlt r1 r2) x y
| lang_alt_r r1 r2 x y : lang r2 x y -> lang (RAlt r1 r2) x y
| lang_star_stop greedy r x : lang (RStar greedy r) x x
| lang_star_more greedy r x y z :
    lang r x y -> lang (RStar greedy r) y z -> lang (RStar greedy r) x z
| lang_group n r x y : lang r x y -> lang (RGroup n r) x y
| lang_bol : lang RBol 0 0
| lang_eol : lang REol (length input) (length input)
| lang_lookahead r x y : lang r x y -> lang (RLookahead r) x x.

(** Some part of [input] is a word of [r]. *)
Definition occurs (r : regex) : Prop := exists x y, lang r x y.

End Matcher.

(** The limits of the engine.  Whether a call of the engine completes
    cannot be read off the source: an engine gives up when matching
    exhausts its resources, and [replace] and [test] then throw (a
    RangeError in V8, on texts of several million code units).
    [gives_up r s] says that the engine gives up on the expression [r]
    and the text [s]; nothing is assumed about it. *)
Definition Engine : Type := regex -> jsstring -> bool.

(** [s.replace(/r/g, template)] on an engine with limits. *)
Definition replace_call (gives_up : Engine) (s : jsstring) (r : regex)
  (template : list repl_item) : outcome jsstring :=
  if gives_up r s then Throw else Ret (replace s r template).

(** [/r/.test(s)] on an engine with limits. *)
Definition test_call (gives_up : Engine) (s : jsstring) (r : regex)
  : outcome bool :=
  if gives_up r s then Throw else Ret (test s r).

End RegExp.

(** ** The sanitizer ([sanitizeEchoArtifacts]) *)

Module Sanitizer.
Import RegExp.

Definition digits : regex := RPlus (RChar is_digit).

(** [(?:;\d+)*] *)
Definition more_digit_groups : regex := RStar true (RSeq (lit 59) digits).

(** [/\x1b\[\?\d+(?:;\d+)*c/g]: Device Attributes responses. *)
Definition re_device_attributes : regex :=
  RSeq (lit ESC) (RSeq (lit 91) (RSeq (lit 63)
    (RSeq digits (RSeq more_digit_groups (lit 99))))).

(** [/(^|[\s>])\d+(?:;\d+)*[cR](?=$|\s)/g]: bare echoed fragments. *)
Definition re_bare_fragment : regex :=
  RSeq (RGroup 1 (RAlt RBol (RChar (fun c => is_space c || (c =? 62)%N))))
    (RSeq digits (RSeq more_digit_groups
      (RSeq (RChar (fun c => (c =? 99)%N || (c =? 82)%N))
        (RLookahead (RAlt REol (RChar is_space)))))).

(** [\x07|\x1b\\] *)
Definition osc_terminator : regex :=
  RAlt (lit BEL) (RSeq (lit ESC) (lit BACKSLASH)).

(** [/\x1b\][\s\S]*?(?:\x07|\x1b\\)/g]: complete OSC sequences. *)
Definition re_complete_osc : regex :=
  RSeq (lit ESC) (RSeq (lit 93)
    (RSeq (RStar false (RChar (fun c => is_space c || negb (is_space c))))
      osc_terminator)).

(** [/(\x07|\x1b\\)/] *)
Definition re_osc_terminator : regex := RGroup 1 osc_terminator.

(** ['\x1b]'] *)
Definition osc_start : jsstring := [ESC; 93%N].

Section Calls.

(** The engine the expressions run on. *)
Variable gives_up : Engine.

(** The body of the [try] block: the returned text and the new value
    of [pendingOscRef.current].  The three [replace] calls and the
    [test] call throw when the engine gives up, and the rest of the
    block is then skipped; concatenation, [lastIndexOf] and [slice] do
    not throw. *)
Definition sanitize_try (pendingOsc chunk : jsstring)
  : outcome (jsstring * jsstring) :=
  let working := pendingOsc ++ chunk in
  let pendingOsc := @nil N in
  let* working := replace_call gives_up working re_device_attributes [] in
  let* working := replace_call gives_up working re_bare_fragment [Ref 1] in
  let* working := replace_call gives_up working re_complete_osc [] in
  let lastOscStart := lastIndexOf working osc_start in
  if negb (lastOscStart =? -1)%Z then
    let tail := slice_from working lastOscStart in
    let* terminated := test_call gives_up tail re_osc_terminator in
    if negb terminated
    then Ret (slice working 0 lastOscStart, tail)
    else Ret (working, pendingOsc)
  else Ret (working, pendingOsc).

(** [sanitizeEchoArtifacts(chunk)] with [pendingOscRef.current] passed
    in and out: the result is (returned text, pending buffer).  The
    [catch] handler empties the buffer and returns the chunk as it
    came. *)
Definition sanitizeEchoArtifacts (pendingOsc chunk : jsstring)
  : jsstring * jsstring :=
  try_catch (sanitize_try pendingOsc chunk) (chunk, []).

End Calls.

End Sanitizer.

(** ** The snapshot cache *)

Module Snapshot.

(** [SNAPSHOT_LIMIT_BYTES = 512 * 1024] *)
Definition SNAPSHOT_LIMIT_BYTES : Z := 512 * 1024.

(** [SnapshotChunk] and [SnapshotEntry]; the fields [text] and [bytes]
    of a chunk and [chunks] and [bytes] of an entry carry the name of
    their record.  Sizes are integers, which JavaScript numbers add and
    subtract exactly. *)
Record SnapshotChunk : Type := {
  chunk_text : jsstring;
  chunk_bytes : Z
}.

Record SnapshotEntry : Type := {
  entry_chunks : list SnapshotChunk;
  entry_bytes : Z
}.

Definition is_high_surrogate (c : N) : bool :=
  (0xD800 <=? c)%N && (c <=? 0xDBFF)%N.
Definition is_low_surrogate (c : N) : bool :=
  (0xDC00 <=? c)%N && (c <=? 0xDFFF)%N.

(** [textEncoder.encode(text).length]: the length of the UTF-8 encoding.
    A surrogate pair takes four bytes; a lone surrogate is replaced by
    U+FFFD, which takes three. *)
Fixpoint utf8_length (text : jsstring) : Z :=
  match text with
  | [] => 0
  | c :: rest =>
      if (c <? 0x80)%N then 1 + utf8_length rest
      else if (c <? 0x800)%N then 2 + utf8_length rest
      else if is_high_surrogate c then
        match rest with
        | d :: rest' =>
            if is_low_surrogate d then 4 + utf8_length rest'
            else 3 + utf8_length rest
        | [] => 3
        end
      else 3 + utf8_length rest
  end.

(** [[...text].length]: the number of code points. *)
Fixpoint code_points (text : jsstring) : Z :=
  match text with
  | [] => 0
  | c :: rest =>
      if is_high_surrogate c then
        match rest with
        | d :: rest' =>
            if is_low_surrogate d then 1 + code_points rest'
            else 1 + code_points rest
        | [] => 1
        end
      else 1 + code_points rest
  end.

Section Cache.

(** Whether the global [TextEncoder] exists, that is, whether the
    module-level constant [textEncoder] is an encoder or [null]. *)
Variable textEncoder : bool.

Definition encodeBytes (text : jsstring) : Z :=
  if falsy text then 0
  else if textEncoder then utf8_length text
  else code_points text.

(** The eviction loop of [appendSnapshotChunk]:
    [while (entry.bytes > SNAPSHOT_LIMIT_BYTES && entry.chunks.length > 1)]
    shift the oldest chunk and subtract its size. *)
Fixpoint evict (chunks : list SnapshotChunk) (bytes : Z)
  : list SnapshotChunk * Z :=
  match chunks with
  | removed :: (_ :: _) as rest =>
      if (bytes >? SNAPSHOT_LIMIT_BYTES)%Z
      then evict rest (bytes - chunk_bytes removed)%Z
      else (chunks, bytes)
  | _ => (chunks, bytes)
  end.

Definition appendSnapshotChunk (id text : jsstring)
  (terminalSnapshots : gmap jsstring SnapshotEntry)
  : gmap jsstring SnapshotEntry :=
  if falsy text then terminalSnapshots
  else
    let entry :=
      default {| entry_chunks := []; entry_bytes := 0 |}
              (terminalSnapshots !! id) in
    let chunk := {| chunk_text := text; chunk_bytes := encodeBytes text |} in
    if (chunk_bytes chunk =? 0)%Z then terminalSnapshots
    else
      let pushed := entry_chunks entry ++ [chunk] in
      let total := (entry_bytes entry + chunk_bytes chunk)%Z in
      let '(kept, bytes) := evict pushed total in
      <[id := {| entry_chunks := kept; entry_bytes := bytes |}]>
        terminalSnapshots.

Definition getSnapshotText (id : jsstring)
  (terminalSnapshots : gmap jsstring SnapshotEntry) : jsstring :=
  match terminalSnapshots !! id with
  | None => []
  | Some entry =>
      match entry_chunks entry with
      | [c] => chunk_text c
      | chunks => concat (map chunk_text chunks)
      end
  end.

Definition clearSnapshot (id : jsstring)
  (terminalSnapshots : gmap jsstring SnapshotEntry)
  : gmap jsstring SnapshotEntry :=
  delete id terminalSnapshots.

(** A sequence of [appendSnapshotChunk(id, text)] calls, oldest first. *)
Definition append_calls (calls : list (jsstring * jsstring))
  (terminalSnapshots : gmap jsstring SnapshotEntry)
  : gmap jsstring SnapshotEntry :=
  fold_left (fun store call => appendSnapshotChunk call.1 call.2 store)
            calls terminalSnapshots.

End Cache.

End Snapshot.

(** ** The reconciler: the handlers installed by the effect of
       [TerminalPaneComponent] *)

Module Reconciler.
Import Sanitizer Snapshot.

(** The one-shot timer created by [setTimeout(..., 250)]: it stays
    scheduled until its callback runs, 250 ms after the effect, or
    [clearTimeout] is called. *)
Inductive TimerStatus : Type :=
| Scheduled
| Fired
| Cleared.

(** The argument of the exit event; [exitCode] may be missing. *)
Record PtyExitInfo : Type := {
  exitCode : option Z
}.

(** The props the handlers read.  [onStartError] is an optional
    callback; calling it may throw. *)
Record Props : Type := {
  id : jsstring;
  keepAlive : bool;
  onStartError : option (jsstring -> outcome unit)
}.

(** The state the handlers read and write: the module-level snapshot
    map, the refs and local variables of the effect, the text written
    to the terminal and the messages passed to [onStartError]. *)
Record State : Type := {
  terminalSnapshots : gmap jsstring SnapshotEntry;
  pendingOscRef : jsstring;
  historyReceived : bool;
  historyReplayedViaFallback : bool;
  term_writes : list jsstring;
  fallbackTimer : TimerStatus;
  startTsRef : Z;
  startErrorCalls : list jsstring;
  disposed : bool
}.

Definition set_pendingOscRef (v : jsstring) (st : State) : State :=
  {| terminalSnapshots := terminalSnapshots st;
     pendingOscRef := v;
     historyReceived := historyReceived st;
     historyReplayedViaFallback := historyReplayedViaFallback st;
     term_writes := term_writes st;
     fallbackTimer := fallbackTimer st;
     startTsRef := startTsRef st;
     startErrorCalls := startErrorCalls st;
     disposed := disposed st |}.

Definition set_terminalSnapshots (v : gmap jsstring SnapshotEntry)
  (st : State) : State :=
  {| terminalSnapshots := v;
     pendingOscRef := pendingOscRef st;
     historyReceived := historyReceived st;
     historyReplayedViaFallback := historyReplayedViaFallback st;
     term_writes := term_writes st;
     fallbackTimer := fallbackTimer st;
     startTsRef := startTsRef st;
     startErrorCalls := startErrorCalls st;
     disposed := disposed st |}.

Definition set_historyReceived (v : bool) (st : State) : State :=
  {| terminalSnapshots := terminalSnapshots st;
     pendingOscRef := pendingOscRef st;
     historyReceived := v;
     historyReplayedViaFallback := historyReplayedViaFallback st;
     term_writes := term_writes st;
     fallbackTimer := fallbackTimer st;
     startTsRef := startTsRef st;
     startErrorCalls := startErrorCalls st;
     disposed := disposed st |}.

Definition set_historyReplayedViaFallback (v : bool) (st : State) : State :=
  {| terminalSnapshots := terminalSnapshots st;
     pendingOscRef := pendingOscRef st;
     historyReceived := historyReceived st;
     historyReplayedViaFallback := v;
     term_writes := term_writes st;
     fallbackTimer := fallbackTimer st;
     startTsRef := startTsRef st;
     startErrorCalls := startErrorCalls st;
     disposed := disposed st |}.

Definition set_fallbackTimer (v : TimerStatus) (st : State) : State :=
  {| terminalSnapshots := terminalSnapshots st;
     pendingOscRef := pendingOscRef st;
     historyReceived := historyReceived st;
     historyReplayedViaFallback := historyReplayedViaFallback st;
     term_writes := term_writes st;
     fallbackTimer := v;
     startTsRef := startTsRef st;
     startErrorCalls := startErrorCalls st;
     disposed := disposed st |}.

Definition set_disposed (v : bool) (st : State) : State :=
  {| terminalSnapshots := terminalSnapshots st;
     pendingOscRef := pendingOscRef st;
     historyReceived := historyReceived st;
     historyReplayedViaFallback := historyReplayedViaFallback st;
     term_writes := term_writes st;
     fallbackTimer := fallbackTimer st;
     startTsRef := startTsRef st;
     startErrorCalls := startErrorCalls st;
     disposed := v |}.

(** [term.write(text)] *)
Definition term_write (text : jsstring) (st : State) : State :=
  {| terminalSnapshots := terminalSnapshots st;
     pendingOscRef := pendingOscRef st;
     historyReceived := historyReceived st;
     historyReplayedViaFallback := historyReplayedViaFallback st;
     term_writes := term_writes st ++ [text];
     fallbackTimer := fallbackTimer st;
     startTsRef := startTsRef st;
     startErrorCalls := startErrorCalls st;
     disposed := disposed st |}.

(** A call [onStartError(message)]: the call is recorded, and its
    outcome is the callback's. *)
Definition call_onStartError (callback : jsstring -> outcome unit)
  (message : jsstring) (st : State) : State * outcome unit :=
  ({| terminalSnapshots := terminalSnapshots st;
      pendingOscRef := pendingOscRef st;
      historyReceived := historyReceived st;
      historyReplayedViaFallback := historyReplayedViaFallback st;
      term_writes := term_writes st;
      fallbackTimer := fallbackTimer st;
      startTsRef := startTsRef st;
      startErrorCalls := startErrorCalls st ++ [message];
      disposed := disposed st |},
   callback message).

Section Handlers.

Variable gives_up : RegExp.Engine.
Variable textEncoder : bool.
Variable props : Props.

(** The state right after the effect has run: a fresh terminal, the
    flags cleared, the fallback timer scheduled, [startTsRef] set to
    [Date.now()]; the snapshot map is the module's. *)
Definition mount (snapshots : gmap jsstring SnapshotEntry) (now : Z) : State :=
  {| terminalSnapshots := snapshots;
     pendingOscRef := [];
     historyReceived := false;
     historyReplayedViaFallback := false;
     term_writes := [];
     fallbackTimer := Scheduled;
     startTsRef := now;
     startErrorCalls := [];
     disposed := false |}.

(** [term.write(text); appendSnapshotChunk(id, text);] *)
Definition write_and_append (text : jsstring) (st : State) : State :=
  let st := term_write text st in
  set_terminalSnapshots
    (appendSnapshotChunk textEncoder (id props) text (terminalSnapshots st)) st.

Definition handleIncoming (data : jsstring) (isHistory : bool) (st : State)
  : State :=
  let '(sanitized, pending) :=
    sanitizeEchoArtifacts gives_up (pendingOscRef st) data in
  let st := set_pendingOscRef pending st in
  if falsy sanitized then st
  else
    let otherwise := write_and_append sanitized st in
    if isHistory && historyReplayedViaFallback st then
      let cached := getSnapshotText (id props) (terminalSnapshots st) in
      if negb (falsy cached) && startsWith sanitized cached then
        let diff := slice_from sanitized (Z.of_nat (length cached)) in
        if negb (falsy diff) then write_and_append diff st else st
      else otherwise
    else otherwise.

(** The callback given to [onPtyHistory]. *)
Definition onPtyHistory (data : jsstring) (st : State) : State :=
  handleIncoming data true (set_historyReceived true st).

(** The callback given to [onPtyData]. *)
Definition onPtyData (data : jsstring) (st : State) : State :=
  handleIncoming data false st.

(** Number to string conversion of an integral exit code. *)
Definition number_to_string (n : Z) : jsstring :=
  js (NilZero.string_of_int (Z.to_int n)).

(** [`PTY exited early (code ${info?.exitCode ?? 'n/a'})`] *)
Definition early_exit_message (info : option PtyExitInfo) : jsstring :=
  js "PTY exited early (code "
    ++ match info with
       | Some {| exitCode := Some code |} => number_to_string code
       | _ => js "n/a"
       end
    ++ js ")".

(** The callback given to [onPtyExit]; [now] is [Date.now()].  Whatever
    the [try] block throws is swallowed by the empty [catch]. *)
Definition onPtyExit (now : Z) (info : option PtyExitInfo) (st : State)
  : State :=
  let elapsed := (now - startTsRef st)%Z in
  let attempt : State * outcome unit :=
    if (elapsed <? 1500)%Z then
      match onStartError props with
      | Some callback =>
          call_onStartError callback (early_exit_message info) st
      | None => (st, Ret tt)
      end
    else (st, Ret tt) in
  attempt.1.

(** The callback of [fallbackTimer]. *)
Definition fallback_callback (st : State) : State :=
  if negb (historyReceived st) then
    let cached := getSnapshotText (id props) (terminalSnapshots st) in
    if negb (falsy cached)
    then term_write cached (set_historyReplayedViaFallback true st)
    else st
  else st.

(** The cleanup function returned by the effect: the snapshot is
    cleared unless [keepAlive]; the disposers unsubscribe the channels
    and call [clearTimeout(fallbackTimer)]. *)
Definition cleanup (st : State) : State :=
  let st :=
    if negb (keepAlive props)
    then set_terminalSnapshots
           (clearSnapshot (id props) (terminalSnapshots st)) st
    else st in
  let st :=
    match fallbackTimer st with
    | Scheduled => set_fallbackTimer Cleared st
    | _ => st
    end in
  set_disposed true st.

(** What the event loop can deliver to the handlers. *)
Inductive Event : Type :=
| PtyHistory (data : jsstring)
| PtyData (data : jsstring)
| PtyExit (now : Z) (info : option PtyExitInfo)
| TimerFires
| Unmount.

(** One turn of the event loop.  After the cleanup no subscription is
    left, and the timer callback runs only while the timer is
    scheduled. *)
Definition step (st : State) (ev : Event) : State :=
  if disposed st then st
  else
    match ev with
    | PtyHistory data => onPtyHistory data st
    | PtyData data => onPtyData data st
    | PtyExit now info => onPtyExit now info st
    | TimerFires =>
        match fallbackTimer st with
        | Scheduled => fallback_callback (set_fallbackTimer Fired st)
        | _ => st
        end
    | Unmount => cleanup st
    end.

Definition run (evs : list Event) (st : State) : State :=
  fold_left step evs st.

End Handlers.

End Reconciler.

(** ** The focus registry *)

Module FocusRegistry.

(** A focus handler is a function object; it is known by its identity
    ([===] compares references). *)
Definition FocusHandler : Type := nat.

(** [Map<string, FocusHandler>]: the entries in insertion order, each
    key once. *)
Definition Registry : Type := list (jsstring * FocusHandler).

(** [Map.prototype.get] *)
Fixpoint map_get (key : jsstring) (m : Registry) : option FocusHandler :=
  match m with
  | [] => None
  | (k, v) :: m' => if decide (k = key) then Some v else map_get key m'
  end.

(** [Map.prototype.set]: the value of an existing key is replaced in
    place; a new key goes to the end. *)
Fixpoint map_set (key : jsstring) (value : FocusHandler) (m : Registry)
  : Registry :=
  match m with
  | [] => [(key, value)]
  | (k, v) :: m' =>
      if decide (k = key) then (k, value) :: m'
      else (k, v) :: map_set key value m'
  end.

(** [Map.prototype.delete] *)
Fixpoint map_delete (key : jsstring) (m : Registry) : Registry :=
  match m with
  | [] => []
  | (k, v) :: m' =>
      if decide (k = key) then m' else (k, v) :: map_delete key m'
  end.

(** [registerTerminalFocus]; that [handler] is a function is given by
    its type. *)
Definition registerTerminalFocus (id : jsstring) (handler : FocusHandler)
  (registry : Registry) : Registry :=
  if falsy id then registry
  else map_set id handler registry.

(** [unregisterTerminalFocus]; the optional [handler] is [None] when it
    is omitted. *)
Definition unregisterTerminalFocus (id : jsstring)
  (handler : option FocusHandler) (registry : Registry) : Registry :=
  if falsy id then registry
  else
    match handler with
    | None => map_delete id registry
    | Some h =>
        let current := map_get id registry in
        if decide (current = Some h) then map_delete id registry
        else registry
    end.

(** [getRegisteredTerminalIds] *)
Definition getRegisteredTerminalIds (registry : Registry) : list jsstring :=
  map fst registry.

(** The calls the registry API offers to change the registry. *)
Inductive RegistryCall : Type :=
| Register (id : jsstring) (handler : FocusHandler)
| Unregister (id : jsstring) (handler : option FocusHandler).

Definition apply_call (registry : Registry) (call : RegistryCall) : Registry :=
  match call with
  | Register id handler => registerTerminalFocus id handler registry
  | Unregister id handler => unregisterTerminalFocus id handler registry
  end.

(** The registry after a sequence of calls on the empty registry. *)
Definition registry_after (calls : list RegistryCall) : Registry :=
  fold_left apply_call calls [].

Section Focus.

(** What calling a handler does, and what the predicate answers: each
    returns or throws.  Neither changes the registry while it is being
    scanned. *)
Variable invoke : FocusHandler -> outcome unit.
Variable predicate : jsstring -> FocusHandler -> outcome bool.

(** [focusTerminalById]: the result and the handlers called. *)
Definition focusTerminalById (id : jsstring) (registry : Registry)
  : bool * list FocusHandler :=
  match map_get id registry with
  | None => (false, [])
  | Some handler =>
      (try_catch
         (match invoke handler with
          | Ret _ => Ret true
          | Throw => Throw
          end)
         false,
       [handler])
  end.

(** The body of the [try] block of [focusTerminalMatching] for one
    entry: [Ret (Some true)] is [return true], [Ret None] falls out of
    the block; the second component lists the handlers called. *)
Definition try_entry (entry : jsstring * FocusHandler)
  : outcome (option bool) * list FocusHandler :=
  match predicate entry.1 entry.2 with
  | Throw => (Throw, [])
  | Ret false => (Ret None, [])
  | Ret true =>
      match invoke entry.2 with
      | Throw => (Throw, [entry.2])
      | Ret _ => (Ret (Some true), [entry.2])
      end
  end.

(** [focusTerminalMatching]: the loop over [registry.entries()], the
    outcome of the call and the handlers called, in order. *)
Fixpoint focusTerminalMatching (entries : Registry)
  : outcome bool * list FocusHandler :=
  match entries with
  | [] => (Ret false, [])
  | entry :: rest =>
      let '(result, called) := try_entry entry in
      match try_catch result None with
      | Some b => (Ret b, called)
      | None =>
          let '(final, called') := focusTerminalMatching rest in
          (final, called ++ called')
      end
  end.

End Focus.

End FocusRegistry.

(** ** Starting the PTY: the asynchronous block at the end of the effect *)

Module PtyStart.

(** What [ptyStart] resolves to; [error] may be missing. *)
Record PtyStartResult : Type := {
  ok : bool;
  error : option jsstring
}.

(** What [ptyStart] rejects with: [e?.message] and [String(e)]. *)
Record Rejection : Type := {
  message : option jsstring;
  as_string : jsstring
}.

(** How the awaited call settles; the resolved value may be undefined. *)
Inductive Settled : Type :=
| Resolved (res : option PtyStartResult)
| Rejected (e : Rejection).

(** What the block does that can be seen from outside. *)
Inductive StartEffect : Type :=
| TermWriteln (text : jsstring)
| OnStartError (message : jsstring)
| OnStartSuccess.

(** [a || b] on strings that may be undefined: [a] when it is a string
    that is not empty. *)
Definition or_else (a : option jsstring) (b : jsstring) : jsstring :=
  match a with
  | Some text => if falsy text then b else text
  | None => b
  end.

(** String concatenation with a value that may be undefined. *)
Definition concat_any (text : jsstring) (v : option jsstring) : jsstring :=
  text ++ match v with
          | Some w => w
          | None => js "undefined"
          end.

Section Start.

(** The two optional callbacks; calling one may throw. *)
Variable onStartError : option (jsstring -> outcome unit).
Variable onStartSuccess : option (unit -> outcome unit).

(** [try { onStartError && onStartError(message); } catch {}] *)
Definition report_error (message : jsstring) : list StartEffect :=
  let attempt : list StartEffect * outcome unit :=
    match onStartError with
    | Some callback => ([OnStartError message], callback message)
    | None => ([], Ret tt)
    end in
  attempt.1.

(** [try { log.info(...); onStartSuccess && onStartSuccess(); } catch {}];
    the logger and [term.writeln] are taken not to throw. *)
Definition report_success : list StartEffect :=
  let attempt : list StartEffect * outcome unit :=
    match onStartSuccess with
    | Some callback => ([OnStartSuccess], callback tt)
    | None => ([], Ret tt)
    end in
  attempt.1.

(** The block after [await window.electronAPI.ptyStart(...)], with the
    [catch] that handles a rejection. *)
Definition start_settled (settled : Settled) : list StartEffect :=
  match settled with
  | Resolved res =>
      let res_ok := match res with
                    | Some r => ok r
                    | None => false
                    end in
      let res_error := match res with
                       | Some r => error r
                       | None => None
                       end in
      (if negb res_ok then
         TermWriteln
           (concat_any
              (ESC :: js "[31mFailed to start PTY:" ++ ESC :: js "[0m ")
              res_error)
           :: report_error (or_else res_error (js "Failed to start PTY"))
       else [])
        ++ (if res_ok then report_success else [])
  | Rejected e =>
      let text := or_else (message e) (as_string e) in
      TermWriteln
        ((ESC :: js "[31mError starting PTY:" ++ ESC :: js "[0m ") ++ text)
        :: report_error text
  end.

End Start.

End PtyStart.

(** ** Dropping files on the terminal ([onDrop]) *)

Module FileDrop.
Import RegExp.

(** A dropped file; its [path] may be missing. *)
Record DroppedFile : Type := {
  path : option jsstring
}.

(** [e.dataTransfer]; its [files] may be missing. *)
Record DataTransfer : Type := {
  files : option (list DroppedFile)
}.

(** The code unit of the single quote. *)
Definition QUOTE : N := 39%N.

(** [`'${p.replace(/'/g, "'\\''")}'`].  The expression is one literal
    character, which is matched without backtracking: the call is taken
    to complete. *)
Definition quote_path (p : jsstring) : jsstring :=
  [QUOTE] ++ replace p (lit QUOTE) [Lit (js "'\''")] ++ [QUOTE].

(** [Array.prototype.join(' ')] *)
Fixpoint join_spaces (parts : list jsstring) : jsstring :=
  match parts with
  | [] => []
  | [part] => part
  | part :: rest => part ++ js " " ++ join_spaces rest
  end.

(** The loop that gathers the paths: [if (p) paths.push(p)]. *)
Fixpoint gather_paths (dropped : list DroppedFile) : list jsstring :=
  match dropped with
  | [] => []
  | file :: rest =>
      match path file with
      | Some p => if falsy p then gather_paths rest else p :: gather_paths rest
      | None => gather_paths rest
      end
  end.

(** [onDrop]: the [data] passed to [ptyInput], or [None] when the
    handler returns without calling it. *)
Definition onDrop (dataTransfer : option DataTransfer) : option jsstring :=
  match dataTransfer with
  | None => None
  | Some dt =>
      match files dt with
      | None => None
      | Some [] => None
      | Some dropped =>
          let paths := gather_paths dropped in
          match paths with
          | [] => None
          | _ => Some (join_spaces (map quote_path paths))
          end
      end
  end.

End FileDrop.

(** ** The first revision of the component
       ([src/renderer/components/TerminalPane.tsx]): both channels
       write the sanitized chunk to the terminal, and there is no
       snapshot and no fallback *)

Module FirstRevision.
Import Sanitizer Reconciler.

(** [term.write(sanitizeEchoArtifacts(data))] *)
Definition onChunk (gives_up : RegExp.Engine) (data : jsstring) (st : State)
  : State :=
  let '(sanitized, pending) :=
    sanitizeEchoArtifacts gives_up (pendingOscRef st) data in
  term_write sanitized (set_pendingOscRef pending st).

(** The chunks of a session in arrival order, each from the history
    channel ([true]) or the live channel. *)
Definition run_chunks (gives_up : RegExp.Engine)
  (chunks : list (bool * jsstring)) (st : State) : State :=
  fold_left (fun st chunk => onChunk gives_up chunk.2 st) chunks st.

End FirstRevision.

(** * Vocabulary of the properties *)

(** [pat] occurs somewhere in [s]. *)
Definition includes (s pat : jsstring) : Prop :=
  exists pre post, s = pre ++ pat ++ post.

(** What the pending buffer of the sanitizer may hold: nothing, or one
    OSC sequence that has started and has not been terminated. *)
Definition unterminated_osc (p : jsstring) : Prop :=
  (exists rest, p = Sanitizer.osc_start ++ rest)
  /\ ~ includes p [BEL]
  /\ ~ includes p [ESC; BACKSLASH]
  /\ (forall pre post, p = pre ++ Sanitizer.osc_start ++ post -> pre = []).

Definition pending_ok (p : jsstring) : Prop :=
  p = [] \/ unterminated_osc p.

(** The pending buffer after a sequence of chunks has gone through the
    sanitizer, starting from the empty buffer. *)
Definition pending_after (gives_up : RegExp.Engine) (chunks : list jsstring)
  : jsstring :=
  fold_left (fun pending chunk =>
               (Sanitizer.sanitizeEchoArtifacts gives_up pending chunk).2)
            chunks [].

(** An engine that never gives up. *)
Definition unlimited : RegExp.Engine := fun _ _ => false.

(** The engine completes every call on a text of at most [n] code
    units. *)
Definition returns_up_to (gives_up : RegExp.Engine) (n : nat) : Prop :=
  forall r s, length s <= n -> gives_up r s = false.

(** Text without artifacts: no Device Attributes response, no anchored
    bare fragment, no complete OSC sequence, and no OSC start that is
    left unterminated. *)
Definition has_unterminated_osc_start (s : jsstring) : Prop :=
  exists pre rest,
    s = pre ++ Sanitizer.osc_start ++ rest
    /\ ~ includes (Sanitizer.osc_start ++ rest) [BEL]
    /\ ~ includes (Sanitizer.osc_start ++ rest) [ESC; BACKSLASH].

Definition clean (s : jsstring) : Prop :=
  ~ RegExp.occurs s Sanitizer.re_device_attributes
  /\ ~ RegExp.occurs s Sanitizer.re_bare_fragment
  /\ ~ RegExp.occurs s Sanitizer.re_complete_osc
  /\ ~ has_unterminated_osc_start s.

(** Text with neither an ESC nor a digit. *)
Definition plain (s : jsstring) : bool :=
  forallb (fun c => negb (c =? ESC)%N && negb (RegExp.is_digit c)) s.

(** A check that establishes [clean]: the first two expressions of the
    sanitizer find nothing and there is no OSC start at all. *)
Definition clean_check (s : jsstring) : bool :=
  negb (RegExp.test s Sanitizer.re_device_attributes)
  && negb (RegExp.test s Sanitizer.re_bare_fragment)
  && (lastIndexOf s Sanitizer.osc_start =? -1)%Z.

(** The sum of the sizes of a sequence of fragments. *)
Definition total_bytes (chunks : list Snapshot.SnapshotChunk) : Z :=
  fold_right Z.add 0%Z (map Snapshot.chunk_bytes chunks).

(** The fragments cached for a session, oldest first. *)
Definition chunks_of (id : jsstring)
  (store : gmap jsstring Snapshot.SnapshotEntry)
  : list Snapshot.SnapshotChunk :=
  match store !! id with
  | Some entry => Snapshot.entry_chunks entry
  | None => []
  end.

(** What holds of every entry of the snapshot map between two calls. *)
Record entry_ok (entry : Snapshot.SnapshotEntry) : Prop := {
  entry_total :
    Snapshot.entry_bytes entry = total_bytes (Snapshot.entry_chunks entry);
  entry_capped :
    2 <= length (Snapshot.entry_chunks entry) ->
    (Snapshot.entry_bytes entry <= Snapshot.SNAPSHOT_LIMIT_BYTES)%Z;
  entry_sizes :
    Forall (fun c => (0 < Snapshot.chunk_bytes c)%Z)
           (Snapshot.entry_chunks entry);
  entry_nonempty : Snapshot.entry_chunks entry <> []
}.

(** Whether the predicate answered [true]. *)
Definition says_true (answer : outcome bool) : bool :=
  match answer with
  | Ret true => true
  | _ => false
  end.

(** The handlers of the entries the predicate accepts, in order. *)
Definition accepted (predicate : jsstring -> FocusRegistry.FocusHandler
                                  -> outcome bool)
  (entries : FocusRegistry.Registry) : list FocusRegistry.FocusHandler :=
  map snd (List.filter (fun entry => says_true (predicate entry.1 entry.2))
             entries).

(** An entry the scan stops at: the predicate accepts it and its
    handler returns. *)
Definition focusable (invoke : FocusRegistry.FocusHandler -> outcome unit)
  (predicate : jsstring -> FocusRegistry.FocusHandler -> outcome bool)
  (entry : jsstring * FocusRegistry.FocusHandler) : Prop :=
  predicate entry.1 entry.2 = Ret true /\ invoke entry.2 = Ret tt.

(** ** Sample sessions and registries *)

Module Samples.
Import Snapshot Reconciler FocusRegistry.

(** An engine that gives up on texts of more than a million code
    units. *)
Definition bounded_engine : RegExp.Engine :=
  fun _ text => (1000000 <? N.of_nat (length text))%N.

(** A session that is kept alive and has no start-error callback. *)
Definition plain_props : Props :=
  {| id := js "term-1"; keepAlive := true; onStartError := None |}.

(** The session mounted with "ABC" in its snapshot, after the fallback
    timer has fired without any history: "ABC" has been replayed. *)
Definition replayed_ABC : State :=
  run bounded_engine true plain_props [TimerFires]
    (mount (appendSnapshotChunk true (js "term-1") (js "ABC") ∅) 0).

(** A session whose start-error callback throws. *)
Definition throwing_props : Props :=
  {| id := js "term-1"; keepAlive := false;
     onStartError := Some (fun _ => Throw) |}.

(** Five entries: the predicate rejects the first and throws on the
    second; it accepts the third, whose handler throws, and the fourth,
    whose handler returns. *)
Definition sample_registry : Registry :=
  [(js "a", 0); (js "b", 1); (js "c", 2); (js "d", 3); (js "e", 4)].

Definition sample_invoke (handler : FocusHandler) : outcome unit :=
  if handler =? 2 then Throw else Ret tt.

Definition sample_predicate (id : jsstring) (handler : FocusHandler)
  : outcome bool :=
  if handler =? 1 then Throw else Ret (negb (handler =? 0)).

(** A text of 600000 code units, more than the cap when encoded. *)
Definition oversize : jsstring := repeat 97%N (N.to_nat 600000).

End Samples.

(** ** Vocabulary of the further properties *)

(** The fragment [appendSnapshotChunk] makes of a text. *)
Definition fragment (textEncoder : bool) (text : jsstring)
  : Snapshot.SnapshotChunk :=
  {| Snapshot.chunk_text := text;
     Snapshot.chunk_bytes := Snapshot.encodeBytes textEncoder text |}.

(** The texts, empty ones left out, that a sequence of
    [appendSnapshotChunk] calls passes for session [id], oldest first. *)
Definition appended_texts (id : jsstring) (calls : list (jsstring * jsstring))
  : list jsstring :=
  omap (fun call : jsstring * jsstring =>
          if decide (call.1 = id)
          then (if falsy call.2 then None else Some call.2)
          else None) calls.

(** What the terminal has been given: its writes, one after another. *)
Definition terminal_text (st : Reconciler.State) : jsstring :=
  concat (Reconciler.term_writes st).

(** The events in which the chunks of a session are delivered. *)
Definition chunk_events (chunks : list (bool * jsstring))
  : list Reconciler.Event :=
  map (fun chunk : bool * jsstring =>
         if chunk.1 then Reconciler.PtyHistory chunk.2
         else Reconciler.PtyData chunk.2) chunks.

(** An expression without capturing groups. *)
Fixpoint group_free (r : RegExp.regex) : bool :=
  match r with
  | RegExp.REmpty | RegExp.RChar _ | RegExp.RBol | RegExp.REol => true
  | RegExp.RSeq r1 r2 | RegExp.RAlt r1 r2 => group_free r1 && group_free r2
  | RegExp.RStar _ r1 | RegExp.RLookahead r1 => group_free r1
  | RegExp.RGroup _ _ => false
  end.

(** Matches that lie one after another inside the input, from index [i]
    on, none with a replacement longer than the match. *)
Fixpoint placed (input : jsstring) (template : list RegExp.repl_item)
  (i : nat) (results : list (nat * nat * RegExp.captures)) : Prop :=
  match results with
  | [] => True
  | (st, en, caps) :: rest =>
      i <= st /\ st <= en /\ en <= length input
      /\ length (RegExp.substitution input template caps) <= en - st
      /\ placed input template en rest
  end.

(** The text the three [replace] calls of the sanitizer leave. *)
Definition stripped (working : jsstring) : jsstring :=
  RegExp.replace
    (RegExp.replace
       (RegExp.replace working Sanitizer.re_device_attributes [])
       Sanitizer.re_bare_fragment [RegExp.Ref 1])
    Sanitizer.re_complete_osc [].

(** Whether the start of the PTY succeeded: [res?.ok]. *)
Definition succeeded (settled : PtyStart.Settled) : bool :=
  match settled with
  | PtyStart.Resolved (Some res) => PtyStart.ok res
  | _ => false
  end.

(** The files of a drop event, none when there is no [dataTransfer] or
    it has no [files]. *)
Definition dropped_files (dataTransfer : option FileDrop.DataTransfer)
  : list FileDrop.DroppedFile :=
  match dataTransfer with
  | Some dt => default [] (FileDrop.files dt)
  | None => []
  end.

(** A text with each single quote replaced by the four code units
    quote, backslash, quote, quote. *)
Definition escape_quotes (p : jsstring) : jsstring :=
  concat (map (fun c => if (39 =? c)%N then js "'\''" else [c]) p).

(** The predicate that asks for one id. *)
Definition is_id (id : jsstring) (key : jsstring)
  (handler : FocusRegistry.FocusHandler) : outcome bool :=
  Ret (bool_decide (key = id)).

(** How a POSIX shell reads a line made of single-quoted strings and
    backslash-escaped characters, in words separated by spaces: inside
    single quotes every character stands for itself up to the closing
    quote; outside, a backslash makes the next character stand for
    itself and a space ends the word.  Any other character outside
    quotes is outside this fragment, and so is a line that ends inside
    quotes or after a backslash: the reading is [None].  [word] is the
    word being read, if one has begun. *)
Fixpoint sh_words (line : jsstring) (word : option jsstring) (quoted : bool)
  : option (list jsstring) :=
  let so_far := default [] word in
  match line with
  | [] =>
      if quoted then None
      else Some (match word with
                 | Some w => [w]
                 | None => []
                 end)
  | c :: rest =>
      if quoted then
        if (c =? 39)%N then sh_words rest (Some so_far) false
        else sh_words rest (Some (so_far ++ [c])) true
      else if (c =? 39)%N then sh_words rest (Some so_far) true
      else if (c =? 92)%N then
        match rest with
        | d :: rest' => sh_words rest' (Some (so_far ++ [d])) false
        | [] => None
        end
      else if (c =? 32)%N then
        match word with
        | Some w => option_map (cons w) (sh_words rest None false)
        | None => sh_words rest None false
        end
      else None
  end.

(** * Properties *)

(** ** JavaScript strings *)

Lemma startsWith_spec (s pat : jsstring) :
  startsWith s pat = true <-> exists rest, s = pat ++ rest.
Proof.
  revert s. induction pat as [|c pat IH]; intros s; simpl.
  - split; [intros _; exists s; reflexivity | reflexivity].
  - destruct s as [|d s]; simpl.
    + split; [discriminate | intros [rest H]; discriminate].
    + rewrite andb_true_iff, N.eqb_eq, IH. split.
      * intros [-> [rest ->]]. exists rest. reflexivity.
      * intros [rest H]. injection H as -> ->. split; [reflexivity | eauto].
Qed.

Lemma includes_length (s pat : jsstring) :
  includes s pat -> length pat <= length s.
Proof.
  intros (pre & post & ->). rewrite !length_app. lia.
Qed.

Lemma includes_at (s pat : jsstring) :
  includes s pat <->
  exists j, j <= length s /\ startsWith (drop j s) pat = true.
Proof.
  split.
  - intros (pre & post & ->). exists (length pre). split.
    + rewrite length_app. lia.
    + rewrite drop_app_length. apply startsWith_spec. eauto.
  - intros (j & _ & H). apply startsWith_spec in H as [rest H].
    exists (take j s), rest. rewrite <- H. symmetry. apply take_drop.
Qed.

Lemma includes_one (s : jsstring) (c : N) :
  includes s [c] <-> exists j, s !! j = Some c.
Proof.
  split.
  - intros (pre & post & ->). exists (length pre).
    rewrite lookup_app_r by lia. rewrite Nat.sub_diag. reflexivity.
  - intros [j H]. exists (take j s), (drop (S j) s).
    symmetry. apply (take_drop_middle s j c H).
Qed.

Lemma includes_two (s : jsstring) (c d : N) :
  includes s [c; d] <-> exists j, s !! j = Some c /\ s !! S j = Some d.
Proof.
  split.
  - intros (pre & post & ->). exists (length pre). split.
    + rewrite lookup_app_r by lia. rewrite Nat.sub_diag. reflexivity.
    + rewrite lookup_app_r by lia.
      replace (S (length pre) - length pre) with 1 by lia. reflexivity.
  - intros (j & Hc & Hd). exists (take j s), (drop (S (S j)) s).
    rewrite <- (take_drop_middle s j c Hc) at 1. f_equal. simpl. f_equal.
    rewrite <- (take_drop_middle (drop (S j) s) 0 d).
    + rewrite take_0, drop_drop. simpl. do 2 f_equal. lia.
    + rewrite lookup_drop. rewrite Nat.add_0_r. exact Hd.
Qed.

Lemma slice_from_nat (s : jsstring) (k : nat) :
  k <= length s -> slice_from s (Z.of_nat k) = drop k s.
Proof.
  intros H. unfold slice_from, clamp_index.
  destruct (Z.ltb_spec (Z.of_nat k) 0); [lia|].
  rewrite Nat2Z.id, Nat.min_l by lia. reflexivity.
Qed.

Lemma slice_0_nat (s : jsstring) (k : nat) :
  k <= length s -> slice s 0 (Z.of_nat k) = take k s.
Proof.
  intros H. unfold slice, clamp_index. simpl.
  destruct (Z.ltb_spec (Z.of_nat k) 0); [lia|].
  rewrite Nat2Z.id, Nat.min_l by lia.
  rewrite Nat.sub_0_r. reflexivity.
Qed.

(** [lastIndexOf] answers [-1] when there is no occurrence, and the
    index of the last occurrence otherwise. *)
Lemma lastIndexOf_from_spec (s pat : jsstring) :
  forall base,
    (lastIndexOf_from s pat base = (-1)%Z
     /\ forall j, j <= length s -> startsWith (drop j s) pat = false)
    \/ (exists k,
          lastIndexOf_from s pat base = Z.of_nat (base + k)
          /\ k <= length s
          /\ startsWith (drop k s) pat = true
          /\ forall j, k < j <= length s -> startsWith (drop j s) pat = false).
Proof.
  induction s as [|c s IH]; intros base; cbn [lastIndexOf_from].
  - destruct (startsWith [] pat) eqn:E.
    + right. exists 0. rewrite Nat.add_0_r.
      split; [reflexivity|]. split; [simpl; lia|]. split; [exact E|].
      simpl. intros j Hj. lia.
    + left. split; [reflexivity|]. intros j Hj. simpl in Hj.
      replace j with 0 by lia. exact E.
  - destruct (IH (S base)) as [[Hl Hno]|(k & Hl & Hk & Hat & Hno)]; rewrite Hl.
    + simpl Z.eqb. cbv iota.
      destruct (startsWith (c :: s) pat) eqn:E.
      * right. exists 0. rewrite Nat.add_0_r.
        split; [reflexivity|]. split; [simpl; lia|]. split; [exact E|].
        intros j Hj. destruct j as [|j]; [lia|]. simpl in *.
        apply Hno. lia.
      * left. split; [reflexivity|]. intros j Hj.
        destruct j as [|j]; [exact E|]. simpl in *. apply Hno. lia.
    + destruct (Z.eqb_spec (Z.of_nat (S base + k)) (-1)); [lia|].
      right. exists (S k).
      split; [f_equal; lia|]. split; [simpl; lia|]. split; [exact Hat|].
      intros j Hj. destruct j as [|j]; [lia|]. simpl in *. apply Hno. lia.
Qed.

Lemma lastIndexOf_spec (s pat : jsstring) :
  (lastIndexOf s pat = (-1)%Z /\ ~ includes s pat)
  \/ (exists k,
        lastIndexOf s pat = Z.of_nat k
        /\ k <= length s
        /\ startsWith (drop k s) pat = true
        /\ forall j, k < j <= length s -> startsWith (drop j s) pat = false).
Proof.
  unfold lastIndexOf.
  destruct (lastIndexOf_from_spec s pat 0) as [[H Hno]|(k & H & Hk)].
  - left. split; [exact H|]. intros Hin.
    apply includes_at in Hin as (j & Hj & Hat).
    rewrite (Hno j Hj) in Hat. discriminate.
  - right. exists k. exact (conj H Hk).
Qed.


(** ** The regular-expression matcher *)

Module RegExpFacts.
Import RegExp.

Section Facts.

Variable input : jsstring.

Local Abbreviation len := (length input).

(** The matcher calls its continuation only at indices between the
    start index and the end of the input. *)
Lemma matcher_ext (r : regex) :
  forall x caps (k k' : Continuation),
    x <= len ->
    (forall y c, x <= y <= len -> k y c = k' y c) ->
    matcher input r x caps k = matcher input r x caps k'.
Proof.
  induction r as [|p|r1 IH1 r2 IH2|r1 IH1 r2 IH2|g r1 IH1|n r1 IH1| | |r1 IH1];
    intros x caps k k' Hx Hk; cbn [matcher].
  - apply Hk; lia.
  - destruct (input !! x) as [ch|] eqn:E; [|reflexivity].
    apply lookup_lt_Some in E.
    destruct (p ch); [apply Hk; lia | reflexivity].
  - apply IH1; [exact Hx|].
    intros y c Hy. apply IH2; [lia|].
    intros z c' Hz. apply Hk; lia.
  - rewrite (IH1 x caps k k' Hx Hk), (IH2 x caps k k' Hx Hk). reflexivity.
  - generalize (S (len - x)) as fuel. intros fuel.
    revert x caps Hx Hk.
    induction fuel as [|fuel IHf]; intros x caps Hx Hk.
    + simpl. rewrite (Hk x caps) by lia. reflexivity.
    + simpl. rewrite (Hk x caps) by lia.
      rewrite (IH1 x caps
                 (fun y caps' =>
                    if y =? x then None
                    else RepeatMatcher (matcher input r1) g k fuel y caps')
                 (fun y caps' =>
                    if y =? x then None
                    else RepeatMatcher (matcher input r1) g k' fuel y caps')).
      * reflexivity.
      * exact Hx.
      * intros y c Hy. destruct (y =? x); [reflexivity|].
        apply IHf; [lia|]. intros z c' Hz. apply Hk; lia.
  - apply IH1; [exact Hx|]. intros y c Hy. apply Hk; lia.
  - destruct (x =? 0); [apply Hk; lia | reflexivity].
  - destruct (x =? len); [apply Hk; lia | reflexivity].
  - destruct (matcher input r1 x caps _) as [[? c]|]; [apply Hk; lia | reflexivity].
Qed.

(** More fuel than code units left never changes the result of the
    loop. *)
Lemma RepeatMatcher_fuel (r : regex) (g : bool) (k : Continuation) :
  forall fuel fuel' x caps,
    x <= len -> len - x < fuel -> len - x < fuel' ->
    RepeatMatcher (matcher input r) g k fuel x caps
    = RepeatMatcher (matcher input r) g k fuel' x caps.
Proof.
  induction fuel as [|fuel IH]; intros fuel' x caps Hx Hf Hf'; [lia|].
  destruct fuel' as [|fuel']; [lia|].
  simpl.
  rewrite (matcher_ext r x caps
             (fun y caps' =>
                if y =? x then None
                else RepeatMatcher (matcher input r) g k fuel y caps')
             (fun y caps' =>
                if y =? x then None
                else RepeatMatcher (matcher input r) g k fuel' y caps')).
  - reflexivity.
  - exact Hx.
  - intros y c Hy. destruct (Nat.eqb_spec y x); [reflexivity|].
    apply IH; lia.
Qed.

(** The loop satisfies the recursive equation of RepeatMatcher: the
    fuel never runs out. *)
Lemma matcher_star_unfold (g : bool) (r : regex) x caps (k : Continuation) :
  x <= len ->
  matcher input (RStar g r) x caps k
  = let iterate :=
      matcher input r x caps
        (fun y caps' =>
           if y =? x then None else matcher input (RStar g r) y caps' k) in
    if g
    then match iterate with Some res => Some res | None => k x caps end
    else match k x caps with Some res => Some res | None => iterate end.
Proof.
  intros Hx. cbn [matcher RepeatMatcher].
  rewrite (matcher_ext r x caps
             (fun y caps' =>
                if y =? x then None
                else RepeatMatcher (matcher input r) g k (len - x) y caps')
             (fun y caps' =>
                if y =? x then None
                else RepeatMatcher (matcher input r) g k (S (len - y)) y caps')).
  - reflexivity.
  - exact Hx.
  - intros y c Hy. destruct (Nat.eqb_spec y x); [reflexivity|].
    apply RepeatMatcher_fuel; lia.
Qed.

(** Soundness: a successful match is a word of the expression followed
    by a successful continuation. *)
Lemma matcher_sound (r : regex) :
  forall x caps (k : Continuation) res,
    matcher input r x caps k = Some res ->
    exists y caps', lang input r x y /\ k y caps' = Some res.
Proof.
  induction r as [|p|r1 IH1 r2 IH2|r1 IH1 r2 IH2|g r1 IH1|n r1 IH1| | |r1 IH1];
    intros x caps k res H; cbn [matcher] in H.
  - exists x, caps. split; [constructor | exact H].
  - destruct (input !! x) as [ch|] eqn:E; [|discriminate].
    destruct (p ch) eqn:Ep; [|discriminate].
    exists (S x), caps. split; [econstructor; eauto | exact H].
  - apply IH1 in H as (y & c & L1 & H).
    apply IH2 in H as (z & c' & L2 & H).
    exists z, c'. split; [econstructor; eauto | exact H].
  - destruct (matcher input r1 x caps k) as [res'|] eqn:E.
    + injection H as <-. apply IH1 in E as (y & c & L & E).
      exists y, c. split; [apply lang_alt_l; exact L | exact E].
    + apply IH2 in H as (y & c & L & H).
      exists y, c. split; [apply lang_alt_r; exact L | exact H].
  - revert H. generalize (S (len - x)) as fuel. intros fuel.
    revert x caps res.
    induction fuel as [|fuel IHf]; intros x caps res H; simpl in H.
    + exists x, caps. split; [constructor|].
      destruct g; [exact H|].
      destruct (k x caps); [exact H | discriminate].
    + assert (Hiter : forall res0,
                 matcher input r1 x caps
                   (fun y caps' =>
                      if y =? x then None
                      else RepeatMatcher (matcher input r1) g k fuel y caps')
                 = Some res0 ->
                 exists y caps', lang input (RStar g r1) x y
                                 /\ k y caps' = Some res0).
      { intros res0 E. apply IH1 in E as (y & c & L & E).
        destruct (y =? x); [discriminate|].
        apply IHf in E as (z & c' & L' & E).
        exists z, c'. split; [econstructor; eauto | exact E]. }
      destruct g.
      * destruct (matcher input r1 x caps _) as [res'|] eqn:E.
        -- injection H as <-. apply Hiter. reflexivity.
        -- exists x, caps. split; [constructor | exact H].
      * destruct (k x caps) as [res'|] eqn:E.
        -- injection H as <-. exists x, caps. split; [constructor | exact E].
        -- apply Hiter. exact H.
  - apply IH1 in H as (y & c & L & H).
    exists y, ((n, (x, y)) :: c). split; [constructor; exact L | exact H].
  - destruct (Nat.eqb_spec x 0); [|discriminate]. subst.
    exists 0, caps. split; [constructor | exact H].
  - destruct (Nat.eqb_spec x len); [|discriminate]. subst.
    exists len, caps. split; [constructor | exact H].
  - destruct (matcher input r1 x caps _) as [[e c]|] eqn:E; [|discriminate].
    apply IH1 in E as (y & c' & L & E).
    exists x, c. split; [econstructor; exact L | exact H].
Qed.

Lemma lang_le (r : regex) x y : lang input r x y -> x <= y.
Proof. induction 1; lia. Qed.

(** The continuation [exec] starts the matcher with. *)
Local Abbreviation accept :=
  (fun (y : nat) (caps : captures) => Some (y, caps)).

Lemma exec_loop_none (r : regex) :
  forall n i,
    exec_loop input r n i = None <->
    forall j, i <= j <= i + n -> matcher input r j [] accept = None.
Proof.
  induction n as [|n IH]; intros i; cbn [exec_loop].
  - destruct (matcher input r i [] accept) as [[e c]|] eqn:E.
    + split; [discriminate|]. intros H. rewrite H in E by lia. discriminate.
    + split; [|reflexivity]. intros _ j Hj.
      replace j with i by lia. exact E.
  - destruct (matcher input r i [] accept) as [[e c]|] eqn:E.
    + split; [discriminate|]. intros H. rewrite H in E by lia. discriminate.
    + rewrite IH. split.
      * intros H j Hj. destruct (decide (j = i)) as [->|]; [exact E|].
        apply H. lia.
      * intros H j Hj. apply H. lia.
Qed.

Lemma exec_loop_some (r : regex) :
  forall n i st en caps,
    exec_loop input r n i = Some (st, en, caps) ->
    i <= st <= i + n /\ matcher input r st [] accept = Some (en, caps).
Proof.
  induction n as [|n IH]; intros i st en caps; cbn [exec_loop];
    destruct (matcher input r i [] accept) as [[e c]|] eqn:E.
  - intros [= <- <- <-]. split; [lia | exact E].
  - discriminate.
  - intros [= <- <- <-]. split; [lia | exact E].
  - intros H. apply IH in H as [Hst Hm]. split; [lia | exact Hm].
Qed.

(** What [exec] finds is a word of the expression inside the input. *)
Lemma exec_sound (r : regex) i st en caps :
  exec input r i = Some (st, en, caps) ->
  i <= st <= len /\ st <= en /\ lang input r st en.
Proof.
  unfold exec. destruct (Nat.ltb_spec len i) as [Hi|Hi]; [discriminate|].
  intros Hex. apply exec_loop_some in Hex as [Hst Hm].
  apply matcher_sound in Hm as (y & c & L & [= <- <-]).
  split; [lia|]. split; [eapply lang_le; exact L | exact L].
Qed.

Lemma exec_none (r : regex) i :
  ~ occurs input r -> exec input r i = None.
Proof.
  intros Hno. destruct (exec input r i) as [[[st en] caps]|] eqn:E;
    [|reflexivity].
  apply exec_sound in E as (_ & _ & L). exfalso. apply Hno.
  exists st, en. exact L.
Qed.

(** With more fuel than there are start indices left, [replace] gathers
    the same matches: the fuel never runs out. *)
Lemma collect_matches_fuel (r : regex) :
  forall fuel fuel' i,
    S len - i <= fuel -> S len - i <= fuel' ->
    collect_matches input r fuel i = collect_matches input r fuel' i.
Proof.
  assert (Hout : forall fuel i, len < i -> collect_matches input r fuel i = []).
  { intros [|fuel] i Hi; [reflexivity|]. cbn [collect_matches]. unfold exec.
    destruct (Nat.ltb_spec len i); [reflexivity | lia]. }
  induction fuel as [|fuel IH]; intros fuel' i Hf Hf'.
  - rewrite !Hout by lia. reflexivity.
  - destruct fuel' as [|fuel']; [rewrite !Hout by lia; reflexivity|].
    cbn [collect_matches].
    destruct (exec input r i) as [[[st en] caps]|] eqn:E; [|reflexivity].
    apply exec_sound in E as (Hst & Hen & _).
    f_equal. apply IH; destruct (Nat.eqb_spec en st); lia.
Qed.

Lemma replace_fuel (r : regex) (template : list repl_item) (extra : nat) :
  assemble input template (collect_matches input r (S len + extra) 0) 0
  = replace input r template.
Proof.
  unfold replace. f_equal. apply collect_matches_fuel; lia.
Qed.

(** Without a match, [replace] returns the input. *)
Lemma replace_no_match (r : regex) (template : list repl_item) :
  exec input r 0 = None -> replace input r template = input.
Proof.
  intros H. unfold replace. cbn [collect_matches]. rewrite H. reflexivity.
Qed.

Lemma replace_clean (r : regex) (template : list repl_item) :
  ~ occurs input r -> replace input r template = input.
Proof.
  intros H. apply replace_no_match, exec_none, H.
Qed.

(** A word that consumes something ends inside the input. *)
Lemma lang_bound (r : regex) x y : lang input r x y -> x <> y -> y <= len.
Proof.
  induction 1 as [x|p x ch Hch Hp|r1 r2 x y z _ IH1 _ IH2|r1 r2 x y _ IH
                 |r1 r2 x y _ IH|g r x|g r x y z _ IH1 _ IH2|n r x y _ IH
                 | | |r x y _ IH]; intros Hne.
  - lia.
  - apply lookup_lt_Some in Hch. lia.
  - destruct (decide (y = z)) as [->|Hyz]; [apply IH1; exact Hne|].
    apply IH2; exact Hyz.
  - apply IH, Hne.
  - apply IH, Hne.
  - lia.
  - destruct (decide (y = z)) as [->|Hyz]; [apply IH1; exact Hne|].
    apply IH2; exact Hyz.
  - apply IH, Hne.
  - lia.
  - lia.
  - lia.
Qed.

(** Completeness: when some word of the expression starts at [x] and
    the continuation succeeds at its end, the matcher succeeds (possibly
    with another word: it backtracks through all of them). *)
Lemma matcher_complete (r : regex) x y :
  lang input r x y ->
  forall caps (k : Continuation),
    (forall c, k y c <> None) -> matcher input r x caps k <> None.
Proof.
  induction 1 as [x|p x ch Hch Hp|r1 r2 x y z _ IH1 _ IH2|r1 r2 x y _ IH
                 |r1 r2 x y _ IH|g r x|g r x y z L1 IH1 L2 IH2|n r x y _ IH
                 | | |r x y _ IH]; intros caps k Hk.
  - cbn [matcher]. apply Hk.
  - cbn [matcher]. rewrite Hch, Hp. apply Hk.
  - cbn [matcher]. apply IH1. intros c. apply IH2, Hk.
  - cbn [matcher]. specialize (IH caps k Hk).
    destruct (matcher input r1 x caps k); [discriminate | contradiction].
  - cbn [matcher]. specialize (IH caps k Hk).
    destruct (matcher input r1 x caps k); [discriminate | exact IH].
  - cbn [matcher RepeatMatcher]. specialize (Hk caps).
    destruct g.
    + destruct (matcher input r x caps _); [discriminate | exact Hk].
    + destruct (k x caps); [discriminate | contradiction].
  - destruct (decide (x = y)) as [->|Hxy]; [apply IH2, Hk|].
    assert (x <= len) as Hx.
    { pose proof (lang_bound _ _ _ L1 Hxy). pose proof (lang_le _ _ _ L1).
      lia. }
    rewrite matcher_star_unfold by exact Hx. cbv zeta.
    assert (matcher input r x caps
              (fun y' caps' =>
                 if y' =? x then None
                 else matcher input (RStar g r) y' caps' k) <> None) as Hit.
    { apply IH1. intros c. destruct (Nat.eqb_spec y x); [congruence|].
      apply IH2, Hk. }
    destruct g.
    + destruct (matcher input r x caps _); [discriminate | contradiction].
    + destruct (k x caps); [discriminate | exact Hit].
  - cbn [matcher]. apply IH. intros c. apply Hk.
  - cbn [matcher Nat.eqb]. apply Hk.
  - cbn [matcher]. rewrite Nat.eqb_refl. apply Hk.
  - cbn [matcher].
    assert (matcher input r x caps accept <> None) as Hin
        by (apply IH; discriminate).
    destruct (matcher input r x caps accept) as [[e c]|];
      [apply Hk | contradiction].
Qed.

Lemma test_false (r : regex) :
  test input r = false <->
  forall j, j <= len -> matcher input r j [] accept = None.
Proof.
  unfold test, exec. destruct (Nat.ltb_spec len 0) as [Hl|Hl]; [lia|].
  rewrite Nat.sub_0_r.
  destruct (exec_loop input r len 0) as [m|] eqn:E.
  - split; [discriminate|]. intros H.
    assert (exec_loop input r len 0 = None) as E'
        by (apply exec_loop_none; intros j Hj; apply H; lia).
    congruence.
  - split; [|reflexivity]. intros _ j Hj.
    apply (proj1 (exec_loop_none r len 0) E). lia.
Qed.

(** Past the end of the input only the empty word is left, and it is
    a word at the end of the input as well. *)
Lemma lang_beyond (r : regex) x y :
  lang input r x y -> len <= x -> x = y /\ lang input r len len.
Proof.
  induction 1 as [x|p x ch Hch Hp|r1 r2 x y z _ IH1 _ IH2|r1 r2 x y _ IH
                 |r1 r2 x y _ IH|g r x|g r x y z _ IH1 _ IH2|n r x y _ IH
                 | | |r x y _ IH]; intros Hx.
  - split; [reflexivity | constructor].
  - apply lookup_lt_Some in Hch. lia.
  - destruct (IH1 Hx) as [<- L1]. destruct (IH2 Hx) as [<- L2].
    split; [reflexivity | econstructor; eauto].
  - destruct (IH Hx) as [<- L]. split; [reflexivity | apply lang_alt_l, L].
  - destruct (IH Hx) as [<- L]. split; [reflexivity | apply lang_alt_r, L].
  - split; [reflexivity | constructor].
  - destruct (IH1 Hx) as [<- L1]. destruct (IH2 Hx) as [<- L2].
    split; [reflexivity | constructor].
  - destruct (IH Hx) as [<- L]. split; [reflexivity | constructor; exact L].
  - assert (len = 0) as E by lia. split; [reflexivity|].
    rewrite E. constructor.
  - split; [reflexivity | constructor].
  - destruct (IH Hx) as [_ L]. split; [reflexivity | econstructor; exact L].
Qed.

(** [test] decides whether a word of the expression occurs. *)
Lemma test_decides_occurs (r : regex) :
  test input r = false <-> ~ occurs input r.
Proof.
  split.
  - intros Ht (x & y & L).
    destruct (Nat.le_gt_cases len x) as [Hge|Hlt].
    + destruct (lang_beyond r x y L Hge) as [_ L'].
      apply (matcher_complete r len len L' [] accept); [discriminate|].
      apply test_false; [exact Ht | lia].
    + apply (matcher_complete r x y L [] accept); [discriminate|].
      apply test_false; [exact Ht | lia].
  - intros Hno. unfold test. rewrite exec_none by exact Hno. reflexivity.
Qed.

End Facts.

End RegExpFacts.

(** ** The sanitizer *)

Module SanitizerFacts.
Import RegExp RegExpFacts Sanitizer.

(** On an engine that never gives up the [try] block completes. *)
Lemma sanitize_try_returns (pendingOsc chunk : jsstring) :
  sanitize_try unlimited pendingOsc chunk
  = Ret (sanitizeEchoArtifacts unlimited pendingOsc chunk).
Proof.
  unfold sanitizeEchoArtifacts, sanitize_try.
  cbn [replace_call test_call unlimited bind].
  repeat match goal with |- context [if ?b then _ else _] => destruct b end;
    reflexivity.
Qed.

(** On any engine the [try] block throws, or it completes with what an
    engine that never gives up computes. *)
Lemma sanitize_try_outcome (gives_up : Engine) (pendingOsc chunk : jsstring) :
  sanitize_try gives_up pendingOsc chunk = Throw
  \/ sanitize_try gives_up pendingOsc chunk
     = sanitize_try unlimited pendingOsc chunk.
Proof.
  unfold sanitize_try, replace_call, test_call, unlimited. cbv zeta.
  destruct (gives_up re_device_attributes _); [left; reflexivity|].
  cbn [bind].
  destruct (gives_up re_bare_fragment _); [left; reflexivity|]. cbn [bind].
  destruct (gives_up re_complete_osc _); [left; reflexivity|]. cbn [bind].
  destruct (negb _); [|right; reflexivity].
  destruct (gives_up re_osc_terminator _); [left|right]; reflexivity.
Qed.

(** The two ways a call can go: the engine gives up somewhere, and the
    [catch] handler returns the chunk as it came and empties the buffer;
    or the result is the one of an engine that never gives up. *)
Lemma sanitize_outcome (gives_up : Engine) (pendingOsc chunk : jsstring) :
  (sanitize_try gives_up pendingOsc chunk = Throw
   /\ sanitizeEchoArtifacts gives_up pendingOsc chunk = (chunk, []))
  \/ (sanitize_try gives_up pendingOsc chunk
      = Ret (sanitizeEchoArtifacts unlimited pendingOsc chunk)
      /\ sanitizeEchoArtifacts gives_up pendingOsc chunk
         = sanitizeEchoArtifacts unlimited pendingOsc chunk).
Proof.
  unfold sanitizeEchoArtifacts at 1 3.
  destruct (sanitize_try_outcome gives_up pendingOsc chunk) as [H|H];
    rewrite H.
  - left. split; reflexivity.
  - right. rewrite sanitize_try_returns. split; reflexivity.
Qed.

(** The pending buffer is prepended to the chunk. *)
Lemma sanitize_try_prepends (gives_up : Engine) (pendingOsc chunk : jsstring) :
  sanitize_try gives_up pendingOsc chunk
  = sanitize_try gives_up [] (pendingOsc ++ chunk).
Proof. reflexivity. Qed.

Lemma sanitize_prepends (pendingOsc chunk : jsstring) :
  sanitizeEchoArtifacts unlimited pendingOsc chunk
  = sanitizeEchoArtifacts unlimited [] (pendingOsc ++ chunk).
Proof.
  pose proof (sanitize_try_returns pendingOsc chunk) as H1.
  pose proof (sanitize_try_returns [] (pendingOsc ++ chunk)) as H2.
  rewrite <- sanitize_try_prepends in H2.
  congruence.
Qed.

(** Where [/(\x07|\x1b\\)/] matches. *)
Lemma terminator_at (s : jsstring) (j : nat) :
  matcher s re_osc_terminator j [] (fun y caps => Some (y, caps)) = None <->
  s !! j <> Some BEL
  /\ ~ (s !! j = Some ESC /\ s !! S j = Some BACKSLASH).
Proof.
  unfold re_osc_terminator, osc_terminator, lit. cbn [matcher].
  destruct (s !! j) as [c|] eqn:Ec.
  - destruct (N.eqb_spec BEL c) as [<-|Hbel].
    + split; [discriminate | intros [H _]; congruence].
    + destruct (N.eqb_spec ESC c) as [<-|Hesc].
      * destruct (s !! S j) as [d|] eqn:Ed.
        -- destruct (N.eqb_spec BACKSLASH d) as [<-|Hbs].
           ++ split; [discriminate | intros [_ H]; exfalso; apply H; auto].
           ++ split; [|reflexivity]. intros _.
              split; [discriminate | intros [_ [= H]]; congruence].
        -- split; [|reflexivity]. intros _.
           split; [discriminate | intros [_ H]; discriminate].
      * split; [|reflexivity]. intros _.
        split; [congruence | intros [[= H] _]; congruence].
  - split; [|reflexivity]. intros _.
    split; [discriminate | intros [H _]; discriminate].
Qed.

(** [/(\x07|\x1b\\)/.test(s)] is false exactly when [s] holds neither
    a BEL nor an ESC followed by a backslash. *)
Lemma test_osc_terminator_false (s : jsstring) :
  test s re_osc_terminator = false <->
  ~ includes s [BEL] /\ ~ includes s [ESC; BACKSLASH].
Proof.
  rewrite test_false. split.
  - intros H. split.
    + intros Hin. apply includes_one in Hin as [j Hj].
      pose proof (lookup_lt_Some _ _ _ Hj) as Hlt.
      assert (j <= length s) as Hle by lia.
      destruct (proj1 (terminator_at s j) (H j Hle)) as [Hn _]. congruence.
    + intros Hin. apply includes_two in Hin as (j & Hj & Hj').
      pose proof (lookup_lt_Some _ _ _ Hj) as Hlt.
      assert (j <= length s) as Hle by lia.
      destruct (proj1 (terminator_at s j) (H j Hle)) as [_ Hn]. apply Hn; auto.
  - intros [Hbel Hst] j Hj. apply terminator_at. split.
    + intros E. apply Hbel, includes_one. eauto.
    + intros E. apply Hst, includes_two. eauto.
Qed.

(** The two ways a call can end: nothing is kept back, or the text is
    cut at the last OSC start and the cut-off tail, which holds no
    terminator, becomes the pending buffer. *)
Lemma sanitize_cases (pendingOsc chunk : jsstring) :
  let result := sanitizeEchoArtifacts unlimited pendingOsc chunk in
  result.2 = []
  \/ exists working k,
      k <= length working
      /\ result = (take k working, drop k working)
      /\ startsWith (drop k working) osc_start = true
      /\ (forall j, k < j <= length working ->
                    startsWith (drop j working) osc_start = false)
      /\ test (drop k working) re_osc_terminator = false.
Proof.
  unfold sanitizeEchoArtifacts, sanitize_try.
  cbn [replace_call test_call unlimited bind].
  set (working :=
         replace (replace (replace (pendingOsc ++ chunk)
                             re_device_attributes [])
                    re_bare_fragment [Ref 1])
           re_complete_osc []).
  destruct (lastIndexOf_spec working osc_start)
    as [[Hl _]|(k & Hl & Hk & Hat & Hlast)]; rewrite Hl.
  - left. reflexivity.
  - destruct (Z.eqb_spec (Z.of_nat k) (-1)) as [Hneg|_]; [lia|].
    cbn [negb]. rewrite slice_from_nat, slice_0_nat by exact Hk.
    destruct (test (drop k working) re_osc_terminator) eqn:Et; cbn [negb].
    + left. reflexivity.
    + right. exists working, k. auto.
Qed.

Lemma sanitize_pending_ok (gives_up : Engine) (pendingOsc chunk : jsstring) :
  pending_ok (sanitizeEchoArtifacts gives_up pendingOsc chunk).2.
Proof.
  destruct (sanitize_outcome gives_up pendingOsc chunk) as [[_ ->]|[_ ->]];
    [left; reflexivity|].
  destruct (sanitize_cases pendingOsc chunk)
    as [H|(w & k & Hk & H & Hat & Hlast & Ht)].
  - left. exact H.
  - right. rewrite H. cbn [snd].
    apply test_osc_terminator_false in Ht as [Hbel Hst].
    split; [apply startsWith_spec; exact Hat|].
    split; [exact Hbel|]. split; [exact Hst|].
    intros pre post E.
    destruct pre as [|c pre]; [reflexivity|]. exfalso.
    assert (startsWith (drop (k + length (c :: pre)) w) osc_start = true)
      as Hocc.
    { rewrite <- drop_drop, E, drop_app_length.
      apply startsWith_spec. eauto. }
    assert (length (drop k w) = length ((c :: pre) ++ osc_start ++ post))
      as Hlen by (rewrite E; reflexivity).
    rewrite length_drop, !length_app in Hlen. simpl in Hlen.
    rewrite Hlast in Hocc; [discriminate|]. simpl. lia.
Qed.

(** Words of the three expressions start with an ESC or hold a digit. *)
Lemma lang_lit_inv (s : jsstring) (c : N) x y :
  lang s (lit c) x y -> s !! x = Some c /\ y = S x.
Proof.
  unfold lit. inversion 1; subst.
  match goal with H : (c =? _)%N = true |- _ => apply N.eqb_eq in H; subst end.
  auto.
Qed.

Lemma device_attributes_starts_with_esc (s : jsstring) x y :
  lang s re_device_attributes x y -> s !! x = Some ESC.
Proof.
  unfold re_device_attributes. inversion 1; subst.
  match goal with H : lang s (lit ESC) _ _ |- _ =>
    apply lang_lit_inv in H as [H _]; exact H end.
Qed.

Lemma complete_osc_starts_with_esc (s : jsstring) x y :
  lang s re_complete_osc x y -> s !! x = Some ESC.
Proof.
  unfold re_complete_osc. inversion 1; subst.
  match goal with H : lang s (lit ESC) _ _ |- _ =>
    apply lang_lit_inv in H as [H _]; exact H end.
Qed.

Lemma bare_fragment_has_digit (s : jsstring) x y :
  lang s re_bare_fragment x y ->
  exists j c, s !! j = Some c /\ is_digit c = true.
Proof.
  unfold re_bare_fragment, digits, RPlus. inversion 1; subst.
  match goal with H : lang s (RSeq (RSeq _ _) _) _ _ |- _ =>
    inversion H; subst end.
  match goal with H : lang s (RSeq (RChar is_digit) _) _ _ |- _ =>
    inversion H; subst end.
  match goal with H : lang s (RChar is_digit) _ _ |- _ =>
    inversion H; subst end.
  eauto.
Qed.

Lemma plain_lookup (s : jsstring) j c :
  plain s = true -> s !! j = Some c -> c <> ESC /\ is_digit c = false.
Proof.
  unfold plain. rewrite forallb_forall. intros H Hj.
  apply list_elem_of_lookup_2, list_elem_of_In, H in Hj.
  apply andb_true_iff in Hj as [H1 H2].
  apply negb_true_iff in H1, H2. apply N.eqb_neq in H1. auto.
Qed.

(** Text with neither an ESC nor a digit is clean. *)
Lemma plain_clean (s : jsstring) : plain s = true -> clean s.
Proof.
  intros Hp. repeat split.
  - intros (x & y & L). apply device_attributes_starts_with_esc in L.
    apply (plain_lookup s x ESC Hp) in L as [L _]. congruence.
  - intros (x & y & L). apply bare_fragment_has_digit in L as (j & c & Hj & Hd).
    apply (plain_lookup s j c Hp) in Hj as [_ Hj]. congruence.
  - intros (x & y & L). apply complete_osc_starts_with_esc in L.
    apply (plain_lookup s x ESC Hp) in L as [L _]. congruence.
  - intros (pre & rest & E & _).
    assert (s !! length pre = Some ESC) as L.
    { rewrite E, lookup_app_r by lia. rewrite Nat.sub_diag. reflexivity. }
    apply (plain_lookup s _ ESC Hp) in L as [L _]. congruence.
Qed.

Lemma clean_check_sound (s : jsstring) : clean_check s = true -> clean s.
Proof.
  unfold clean_check. rewrite !andb_true_iff, !negb_true_iff.
  intros [[Hda Hbare] Hlast].
  apply test_decides_occurs in Hda, Hbare. apply Z.eqb_eq in Hlast.
  assert (~ includes s osc_start) as Hno.
  { destruct (lastIndexOf_spec s osc_start) as [[_ H]|(k & H & _)];
      [exact H | lia]. }
  split; [exact Hda|]. split; [exact Hbare|]. split.
  - intros (x & y & L). apply Hno.
    unfold re_complete_osc in L. inversion L; subst.
    match goal with H : lang s (lit ESC) _ _ |- _ =>
      apply lang_lit_inv in H as [Hesc ->] end.
    match goal with H : lang s (RSeq (lit 93) _) _ _ |- _ =>
      inversion H; subst end.
    match goal with H : lang s (lit 93) _ _ |- _ =>
      apply lang_lit_inv in H as [Hbr _] end.
    apply includes_two. eauto.
  - intros (pre & rest & E & _). apply Hno. exists pre, rest. exact E.
Qed.

(** On clean text the sanitizer changes nothing and keeps nothing
    back, whether the engine gives up or not. *)
Lemma sanitize_clean (gives_up : Engine) (s : jsstring) :
  clean s -> sanitizeEchoArtifacts gives_up [] s = (s, []).
Proof.
  intros (Hda & Hbare & Hosc & Hstart).
  destruct (sanitize_outcome gives_up [] s) as [[_ ->]|[_ ->]];
    [reflexivity|].
  unfold sanitizeEchoArtifacts, sanitize_try.
  cbn [replace_call test_call unlimited bind app].
  rewrite (replace_clean s _ _ Hda), (replace_clean s _ _ Hbare),
    (replace_clean s _ _ Hosc).
  destruct (lastIndexOf_spec s osc_start)
    as [[Hl _]|(k & Hl & Hk & Hat & Hlast)]; rewrite Hl; [reflexivity|].
  destruct (Z.eqb_spec (Z.of_nat k) (-1)) as [Hneg|_]; [lia|].
  cbn [negb]. rewrite slice_from_nat by exact Hk.
  destruct (test (drop k s) re_osc_terminator) eqn:Et; [reflexivity|].
  exfalso. apply Hstart.
  apply test_osc_terminator_false in Et as [Hbel Hst].
  apply startsWith_spec in Hat as [rest Hrest].
  exists (take k s), rest. rewrite <- Hrest.
  split; [symmetry; apply take_drop | auto].
Qed.

End SanitizerFacts.

Module SanitizerClaims.
Import RegExp Sanitizer SanitizerFacts.

(** Evaluation of a call on an engine that completes its calls on the
    texts at hand. *)
Ltac engine_completes H :=
  unfold sanitizeEchoArtifacts, sanitize_try, replace_call, test_call;
  cbv zeta;
  repeat (rewrite H by (vm_compute; lia); cbn [bind]);
  vm_compute; reflexivity.

(** C3.  Starting from an empty pending buffer, sanitizing the chunk
    ESC "]0;title" returns the empty string and moves the whole
    unterminated OSC sequence into the pending buffer; sanitizing the
    chunk BEL "rest" next returns "rest" and leaves the buffer empty:
    the reassembled sequence is stripped completely and no artifact
    text is returned by either call.  This holds on every engine that
    completes its calls on texts of up to 14 code units, the length of
    the two chunks together. *)
Theorem split_osc_sequence_reassembled (gives_up : Engine) :
  returns_up_to gives_up 14 ->
  let first := sanitizeEchoArtifacts gives_up [] (ESC :: js "]0;title") in
  let second := sanitizeEchoArtifacts gives_up first.2 (BEL :: js "rest") in
  first = ([], ESC :: js "]0;title")
  /\ second = (js "rest", []).
Proof.
  intros H first second.
  assert (first = ([], ESC :: js "]0;title")) as E
      by (subst first; engine_completes H).
  split; [exact E|]. subst second. rewrite E. cbn [snd].
  engine_completes H.
Qed.

Lemma split_osc_sequence_reassembled_witness :
  returns_up_to Samples.bounded_engine 14
  /\ sanitizeEchoArtifacts Samples.bounded_engine [] (ESC :: js "]0;title")
     = ([], ESC :: js "]0;title")
  /\ sanitizeEchoArtifacts Samples.bounded_engine (ESC :: js "]0;title")
       (BEL :: js "rest")
     = (js "rest", []).
Proof.
  assert (returns_up_to Samples.bounded_engine 14) as H.
  { intros r s Hs. unfold Samples.bounded_engine. apply N.ltb_ge. lia. }
  split; [exact H|].
  pose proof (split_osc_sequence_reassembled Samples.bounded_engine H) as E.
  cbv zeta in E. destruct E as [E1 E2]. rewrite E1 in E2.
  exact (conj E1 E2).
Defined.

(** C6.  With an empty pending buffer, sanitizing ESC "[?1;2c" returns
    the empty string, and sanitizing "prompt> 1;2c next" returns
    "prompt>  next": the bare fragment "1;2c" goes, the space captured
    before it stays, so two spaces are left next to each other.  This
    holds on every engine that completes its calls on texts of up to 17
    code units, the length of the longer input. *)
Theorem device_attributes_stripped (gives_up : Engine) :
  returns_up_to gives_up 17 ->
  sanitizeEchoArtifacts gives_up [] (ESC :: js "[?1;2c") = ([], [])
  /\ sanitizeEchoArtifacts gives_up [] (js "prompt> 1;2c next")
     = (js "prompt>  next", []).
Proof.
  intros H. split; engine_completes H.
Qed.

Lemma device_attributes_stripped_witness :
  returns_up_to Samples.bounded_engine 17
  /\ sanitizeEchoArtifacts Samples.bounded_engine [] (ESC :: js "[?1;2c")
     = ([], [])
  /\ sanitizeEchoArtifacts Samples.bounded_engine [] (js "prompt> 1;2c next")
     = (js "prompt>  next", []).
Proof.
  assert (returns_up_to Samples.bounded_engine 17) as H.
  { intros r s Hs. unfold Samples.bounded_engine. apply N.ltb_ge. lia. }
  split; [exact H|].
  exact (device_attributes_stripped Samples.bounded_engine H).
Defined.

(** C5.  On text that holds none of the stripped patterns (no Device
    Attributes response, no anchored bare fragment, no complete OSC
    sequence, no unterminated OSC start), the sanitizer with an empty
    pending buffer returns the text unchanged and leaves the buffer
    empty; so sanitizing the result again gives the same result.  This
    holds on every engine, whether it gives up on the text or not. *)
Theorem sanitize_clean_text_unchanged (gives_up : Engine) (s : jsstring) :
  clean s ->
  sanitizeEchoArtifacts gives_up [] s = (s, [])
  /\ sanitizeEchoArtifacts gives_up []
       (sanitizeEchoArtifacts gives_up [] s).1
     = sanitizeEchoArtifacts gives_up [] s.
Proof.
  intros H. pose proof (sanitize_clean gives_up s H) as E.
  split; [exact E|]. rewrite E. exact E.
Qed.

Lemma sanitize_clean_text_unchanged_witness :
  clean (js "v1.2c built 24;80 ok")
  /\ sanitizeEchoArtifacts Samples.bounded_engine [] (js "v1.2c built 24;80 ok")
     = (js "v1.2c built 24;80 ok", [])
  /\ sanitizeEchoArtifacts Samples.bounded_engine []
       (sanitizeEchoArtifacts Samples.bounded_engine []
          (js "v1.2c built 24;80 ok")).1
     = sanitizeEchoArtifacts Samples.bounded_engine []
         (js "v1.2c built 24;80 ok").
Proof.
  assert (clean (js "v1.2c built 24;80 ok")) as H
      by (apply clean_check_sound; vm_compute; reflexivity).
  split; [exact H|].
  exact (sanitize_clean_text_unchanged Samples.bounded_engine
           (js "v1.2c built 24;80 ok") H).
Defined.

(** C10.  The pending buffer of the sanitizer, empty at first, is after
    every call either empty or one unterminated OSC prefix: it begins
    with ESC "]", holds neither a BEL nor ESC followed by a backslash,
    and holds no second ESC "]"; the next call prepends it to its
    chunk.  This holds on every engine: when the [try] block completes,
    the call with the buffer gives what a call with an empty buffer
    gives on the buffer followed by the chunk; when the engine gives
    up, the chunk is returned as it came and the buffer is emptied. *)
Theorem pending_buffer_invariant :
  forall (gives_up : Engine) (chunks : list jsstring)
         (pending chunk : jsstring),
    pending_ok (pending_after gives_up chunks)
    /\ pending_ok (sanitizeEchoArtifacts gives_up pending chunk).2
    /\ match sanitize_try gives_up pending chunk with
       | Ret result =>
           sanitizeEchoArtifacts gives_up pending chunk = result
           /\ sanitizeEchoArtifacts gives_up [] (pending ++ chunk) = result
       | Throw =>
           sanitizeEchoArtifacts gives_up pending chunk = (chunk, [])
       end.
Proof.
  intros gives_up chunks pending chunk. split; [|split].
  - unfold pending_after.
    assert (forall p, pending_ok p ->
              pending_ok
                (fold_left (fun pending chunk =>
                              (sanitizeEchoArtifacts gives_up pending chunk).2)
                           chunks p)) as Hfold.
    { induction chunks as [|c chunks IH]; intros p Hp; [exact Hp|].
      cbn [fold_left]. apply IH, sanitize_pending_ok. }
    apply Hfold. left. reflexivity.
  - apply sanitize_pending_ok.
  - unfold sanitizeEchoArtifacts.
    rewrite <- (sanitize_try_prepends gives_up pending chunk).
    destruct (sanitize_try gives_up pending chunk) as [result|];
      [split|]; reflexivity.
Qed.

End SanitizerClaims.

(** ** The snapshot cache *)

Module SnapshotFacts.
Import Snapshot.

Lemma utf8_length_bounds (n : nat) :
  forall text, length text <= n ->
    (0 <= utf8_length text)%Z /\ (text <> [] -> 0 < utf8_length text)%Z.
Proof.
  induction n as [|n IH]; intros [|c rest] Hlen; simpl in Hlen;
    try (split; [simpl; lia | congruence]); [lia|].
  assert (0 <= utf8_length rest)%Z as Hrest by (apply IH; lia).
  cbn [utf8_length].
  destruct (c <? 128)%N; [split; [lia | intros _; lia]|].
  destruct (c <? 2048)%N; [split; [lia | intros _; lia]|].
  destruct (is_high_surrogate c); [|split; [lia | intros _; lia]].
  destruct rest as [|d rest']; [split; [lia | intros _; lia]|].
  destruct (is_low_surrogate d); [|split; [lia | intros _; lia]].
  assert (0 <= utf8_length rest')%Z by (apply IH; simpl in *; lia).
  split; [lia | intros _; lia].
Qed.

Lemma code_points_bounds (n : nat) :
  forall text, length text <= n ->
    (0 <= code_points text)%Z /\ (text <> [] -> 0 < code_points text)%Z.
Proof.
  induction n as [|n IH]; intros [|c rest] Hlen; simpl in Hlen;
    try (split; [simpl; lia | congruence]); [lia|].
  assert (0 <= code_points rest)%Z as Hrest by (apply IH; lia).
  cbn [code_points].
  destruct (is_high_surrogate c); [|split; [lia | intros _; lia]].
  destruct rest as [|d rest']; [split; [lia | intros _; lia]|].
  destruct (is_low_surrogate d); [|split; [lia | intros _; lia]].
  assert (0 <= code_points rest')%Z by (apply IH; simpl in *; lia).
  split; [lia | intros _; lia].
Qed.

Section Facts.

Variable textEncoder : bool.

(** A text that is not empty never encodes to zero bytes. *)
Lemma encodeBytes_pos (text : jsstring) :
  text <> [] -> (0 < encodeBytes textEncoder text)%Z.
Proof.
  intros Hne. unfold encodeBytes.
  destruct text as [|c rest]; [congruence|]. cbn [falsy].
  destruct textEncoder.
  - apply (utf8_length_bounds (length (c :: rest))); [lia | exact Hne].
  - apply (code_points_bounds (length (c :: rest))); [lia | exact Hne].
Qed.

Lemma total_bytes_app (l1 l2 : list SnapshotChunk) :
  total_bytes (l1 ++ l2) = (total_bytes l1 + total_bytes l2)%Z.
Proof.
  unfold total_bytes. induction l1 as [|c l1 IH]; simpl; [lia|].
  rewrite IH. lia.
Qed.

Lemma total_bytes_nonneg (l : list SnapshotChunk) :
  Forall (fun c => (0 < chunk_bytes c)%Z) l -> (0 <= total_bytes l)%Z.
Proof.
  unfold total_bytes. induction 1; simpl; lia.
Qed.

(** The eviction loop drops a prefix, never the last fragment, keeps the
    total equal to the sum of what is left, and stops only under the cap
    or at one fragment. *)
Lemma evict_spec (chunks : list SnapshotChunk) :
  forall bytes,
    bytes = total_bytes chunks ->
    exists k,
      k <= length chunks - 1
      /\ (evict chunks bytes).1 = drop k chunks
      /\ (evict chunks bytes).2 = total_bytes (drop k chunks)
      /\ (2 <= length (drop k chunks) ->
          ((evict chunks bytes).2 <= SNAPSHOT_LIMIT_BYTES)%Z).
Proof.
  induction chunks as [|c chunks IH]; intros bytes Hb.
  - exists 0. simpl. repeat split; first [lia | exact Hb].
  - destruct chunks as [|c' chunks].
    + exists 0. simpl. repeat split; first [lia | exact Hb].
    + cbn [evict].
      destruct (Z.gtb_spec bytes SNAPSHOT_LIMIT_BYTES) as [Hgt|Hle].
      * destruct (IH (bytes - chunk_bytes c)%Z) as (k & Hk & H1 & H2 & H3).
        { subst bytes. unfold total_bytes. simpl. lia. }
        exists (S k). cbn [drop length] in *.
        split; [lia|]. split; [exact H1|]. split; [exact H2 | exact H3].
      * exists 0. cbn [drop fst snd].
        split; [lia|]. split; [reflexivity|]. split; [exact Hb|].
        intros _. exact Hle.
Qed.

Lemma drop_keeps_last {A : Type} (l : list A) (k : nat) :
  k <= length l - 1 -> last (drop k l) = last l.
Proof.
  revert k. induction l as [|a l IH]; intros k Hk; [destruct k; reflexivity|].
  destruct k as [|k]; [reflexivity|]. cbn [drop].
  destruct l as [|b l]; [simpl in Hk; lia|].
  rewrite IH by (simpl in *; lia). reflexivity.
Qed.

(** What one effective call does to the entry of its session. *)
Lemma append_entry (id text : jsstring)
  (store : gmap jsstring SnapshotEntry) :
  text <> [] ->
  (forall entry, store !! id = Some entry -> entry_ok entry) ->
  let chunk := {| chunk_text := text;
                  chunk_bytes := encodeBytes textEncoder text |} in
  exists k entry,
    appendSnapshotChunk textEncoder id text store = <[id := entry]> store
    /\ k <= length (chunks_of id store)
    /\ entry_chunks entry = drop k (chunks_of id store ++ [chunk])
    /\ entry_ok entry.
Proof.
  intros Hne Hok chunk.
  pose proof (encodeBytes_pos text Hne) as Hpos.
  unfold appendSnapshotChunk.
  destruct text as [|c0 rest]; [congruence|]. cbn [falsy].
  cbn [chunk_bytes].
  destruct (Z.eqb_spec (encodeBytes textEncoder (c0 :: rest)) 0) as [E|_];
    [lia|].
  set (entry0 := default {| entry_chunks := []; entry_bytes := 0 |}
                         (store !! id)).
  assert (entry_chunks entry0 = chunks_of id store) as Hchunks.
  { unfold entry0, chunks_of. destruct (store !! id); reflexivity. }
  assert (entry_bytes entry0 = total_bytes (entry_chunks entry0)
          /\ Forall (fun c => (0 < chunk_bytes c)%Z) (entry_chunks entry0))
    as [Htot Hsizes].
  { unfold entry0. destruct (store !! id) as [e|] eqn:E; cbn [default].
    - destruct (Hok e eq_refl). auto.
    - split; [reflexivity | constructor]. }
  fold chunk.
  destruct (evict_spec (entry_chunks entry0 ++ [chunk])
              (entry_bytes entry0 + encodeBytes textEncoder (c0 :: rest))%Z)
    as (k & Hk & H1 & H2 & H3).
  { rewrite total_bytes_app, Htot. unfold total_bytes. simpl. lia. }
  destruct (evict (entry_chunks entry0 ++ [chunk])
              (entry_bytes entry0 + encodeBytes textEncoder (c0 :: rest))%Z)
    as [kept bytes] eqn:Ev.
  cbn [fst snd] in H1, H2, H3.
  rewrite length_app in Hk. cbn [length] in Hk.
  exists k, {| entry_chunks := kept; entry_bytes := bytes |}.
  split; [reflexivity|]. split; [rewrite <- Hchunks; lia|].
  split; [cbn [entry_chunks]; rewrite <- Hchunks; exact H1|].
  constructor; cbn [entry_chunks entry_bytes].
  - rewrite H1. exact H2.
  - rewrite H1. exact H3.
  - rewrite H1. apply Forall_drop, Forall_app. split; [exact Hsizes|].
    constructor; [exact Hpos | constructor].
  - rewrite H1. intros Hnil.
    apply (f_equal length) in Hnil. rewrite length_drop, length_app in Hnil.
    simpl in Hnil. lia.
Qed.

(** Every entry is well formed after any sequence of calls. *)
Lemma append_calls_ok (calls : list (jsstring * jsstring)) :
  forall sid entry,
    append_calls textEncoder calls ∅ !! sid = Some entry -> entry_ok entry.
Proof.
  unfold append_calls.
  assert (forall store,
            (forall sid entry, store !! sid = Some entry -> entry_ok entry) ->
            forall sid entry,
              fold_left
                (fun store call =>
                   appendSnapshotChunk textEncoder call.1 call.2 store)
                calls store !! sid = Some entry ->
              entry_ok entry) as Hfold.
  { induction calls as [|[id text] calls IH]; intros store Hok;
      [exact Hok|].
    cbn [fold_left fst snd]. apply IH.
    intros sid entry.
    destruct text as [|c0 rest]; [apply Hok|].
    destruct (append_entry id (c0 :: rest) store) as (k & e & -> & _ & _ & He);
      [congruence | intros e0; apply Hok |].
    rewrite lookup_insert. case_decide.
    - intros [= <-]. exact He.
    - apply Hok. }
  apply Hfold. intros sid entry. rewrite lookup_empty. discriminate.
Qed.

End Facts.

End SnapshotFacts.

Module SnapshotClaims.
Import Snapshot SnapshotFacts Samples.

(** C2.  After any sequence of [appendSnapshotChunk] calls and one more
    call for session [id] with [text]: every entry's running total is
    the sum of its fragments' sizes and, when the entry holds two or
    more fragments, is at most 512 KiB; a text that is not empty ends up
    as the newest fragment, whole, and when it alone is left (as it is
    whenever its size exceeds the cap) the entry consists of exactly
    that fragment with its full size as total; the fragments kept are
    the old ones followed by the new one with only a prefix, the oldest
    fragments, removed; and no other session is touched. *)
Theorem snapshot_cap_invariant (textEncoder : bool)
  (calls : list (jsstring * jsstring)) (id text : jsstring) :
  let before := append_calls textEncoder calls ∅ in
  let after := appendSnapshotChunk textEncoder id text before in
  let chunk := {| chunk_text := text;
                  chunk_bytes := encodeBytes textEncoder text |} in
  let alone := {| entry_chunks := [chunk];
                  entry_bytes := encodeBytes textEncoder text |} in
  (forall sid entry,
      after !! sid = Some entry ->
      entry_bytes entry = total_bytes (entry_chunks entry)
      /\ (2 <= length (entry_chunks entry) ->
          (entry_bytes entry <= 512 * 1024)%Z))
  /\ (text <> [] ->
      last (chunks_of id after) = Some chunk
      /\ (length (chunks_of id after) = 1 -> after !! id = Some alone)
      /\ ((512 * 1024 < encodeBytes textEncoder text)%Z ->
          after !! id = Some alone))
  /\ (exists k,
        k <= length (chunks_of id before)
        /\ chunks_of id after
           = drop k (chunks_of id before
                       ++ (if falsy text then [] else [chunk])))
  /\ (forall sid, sid <> id -> after !! sid = before !! sid).
Proof.
  intros before after chunk alone.
  assert (forall sid entry, before !! sid = Some entry -> entry_ok entry)
    as Hbefore by apply append_calls_ok.
  destruct text as [|c0 rest].
  { (* the empty text: the call does nothing *)
    change after with before.
    split; [|split; [congruence|split]].
    - intros sid entry H. destruct (Hbefore sid entry H). auto.
    - exists 0. split; [lia|]. cbn [falsy]. rewrite app_nil_r. reflexivity.
    - reflexivity. }
  destruct (append_entry textEncoder id (c0 :: rest) before)
    as (k & e & Hafter & Hk & Hchunks & He);
    [congruence | intros e0; apply Hbefore |].
  fold chunk in Hchunks. fold after in Hafter.
  assert (chunks_of id after = entry_chunks e) as Hof.
  { unfold chunks_of. rewrite Hafter, lookup_insert_eq. reflexivity. }
  assert (last (entry_chunks e) = Some chunk) as Hlast.
  { rewrite Hchunks, drop_keeps_last, last_snoc; [reflexivity|].
    rewrite length_app. simpl. lia. }
  assert (length (entry_chunks e) = 1 -> e = alone) as Halone.
  { intros Hone. destruct He as [Htot _ _ _].
    destruct e as [chunks bytes]. cbn [entry_chunks entry_bytes] in *.
    destruct chunks as [|x [|y chunks]]; try discriminate.
    cbn [last] in Hlast. injection Hlast as ->.
    unfold alone. f_equal. rewrite Htot. unfold total_bytes, chunk. simpl.
    lia. }
  split; [|split; [|split]].
  - intros sid entry. rewrite Hafter, lookup_insert. case_decide.
    + intros [= <-]. destruct He. auto.
    + intros H'. destruct (Hbefore sid entry H'). auto.
  - intros _. rewrite Hof. split; [exact Hlast|].
    split.
    + intros Hone. rewrite Hafter, lookup_insert_eq. f_equal. auto.
    + intros Hbig. rewrite Hafter, lookup_insert_eq. f_equal.
      apply Halone.
      destruct He as [Htot Hcap Hsizes Hne].
      destruct (entry_chunks e) as [|x [|y chunks]] eqn:Ee;
        [congruence | reflexivity | exfalso].
      assert (entry_bytes e <= 512 * 1024)%Z as Hle
          by (apply Hcap; simpl; lia).
      rewrite Htot in Hle.
      assert (exists older, x :: y :: chunks = older ++ [chunk])
        as [older Holder].
      { destruct (last_Some (x :: y :: chunks) chunk) as [[l' Hl] _];
          [exact Hlast | eauto]. }
      rewrite Holder, total_bytes_app in Hle.
      rewrite Holder in Hsizes. apply Forall_app in Hsizes as [Hsizes _].
      apply total_bytes_nonneg in Hsizes.
      unfold total_bytes at 2 in Hle. unfold chunk in Hle. simpl in Hle. lia.
  - exists k. split; [exact Hk|]. rewrite Hof. exact Hchunks.
  - intros sid Hsid. rewrite Hafter, lookup_insert_ne by congruence.
    reflexivity.
Qed.

Lemma snapshot_cap_invariant_witness :
  js "def" <> []
  /\ last (chunks_of (js "t1")
             (appendSnapshotChunk true (js "t1") (js "def")
                (append_calls true [(js "t1", js "abc")] ∅)))
     = Some {| chunk_text := js "def"; chunk_bytes := 3 |}.
Proof.
  assert (js "def" <> []) as Hne by discriminate.
  split; [exact Hne|].
  exact (proj1 (proj1 (proj2
           (snapshot_cap_invariant true [(js "t1", js "abc")]
              (js "t1") (js "def"))) Hne)).
Defined.

(** A fragment of 600000 bytes appended after a small one: the small
    one is evicted, the large one is kept alone, and the total is its
    size, above the cap. *)
Example oversize_fragment_kept_whole :
  (512 * 1024 < encodeBytes true oversize)%Z
  /\ map (fun c => (Z.of_nat (length (chunk_text c)), chunk_bytes c))
       (chunks_of (js "t1")
          (appendSnapshotChunk true (js "t1") oversize
             (append_calls true [(js "t1", js "abc")] ∅)))
     = [(600000%Z, 600000%Z)]
  /\ entry_bytes
       <$> (appendSnapshotChunk true (js "t1") oversize
              (append_calls true [(js "t1", js "abc")] ∅) !! js "t1")
     = Some 600000%Z.
Proof. vm_compute. repeat split. Qed.

End SnapshotClaims.

(** ** The reconciler *)

Module ReconcilerFacts.
Import Sanitizer Snapshot Reconciler.

Section Facts.

Variable gives_up : RegExp.Engine.
Variable textEncoder : bool.
Variable props : Props.

(** What [handleIncoming] forwards: the text it writes to the terminal
    and appends to the snapshot, or nothing. *)
Lemma handleIncoming_forwards (data : jsstring) (isHistory : bool)
  (st : State) :
  let sanitized := (sanitizeEchoArtifacts gives_up (pendingOscRef st) data).1 in
  let cached := getSnapshotText (id props) (terminalSnapshots st) in
  let forwarded :=
    if isHistory && historyReplayedViaFallback st
       && negb (falsy cached) && startsWith sanitized cached
    then drop (length cached) sanitized
    else sanitized in
  handleIncoming gives_up textEncoder props data isHistory st
  = {| terminalSnapshots :=
         appendSnapshotChunk textEncoder (id props) forwarded
           (terminalSnapshots st);
       pendingOscRef :=
         (sanitizeEchoArtifacts gives_up (pendingOscRef st) data).2;
       historyReceived := historyReceived st;
       historyReplayedViaFallback := historyReplayedViaFallback st;
       term_writes :=
         term_writes st ++ (if falsy forwarded then [] else [forwarded]);
       fallbackTimer := fallbackTimer st;
       startTsRef := startTsRef st;
       startErrorCalls := startErrorCalls st;
       disposed := disposed st |}.
Proof.
  intros sanitized cached forwarded. unfold handleIncoming.
  subst forwarded sanitized.
  destruct (sanitizeEchoArtifacts gives_up (pendingOscRef st) data)
    as [sanitized pending].
  cbn [fst snd].
  change (terminalSnapshots (set_pendingOscRef pending st))
    with (terminalSnapshots st).
  change (historyReplayedViaFallback (set_pendingOscRef pending st))
    with (historyReplayedViaFallback st).
  fold cached.
  destruct sanitized as [|c sanitized].
  { (* nothing left after sanitizing: nothing is forwarded *)
    assert (startsWith [] cached = falsy cached) as ->
        by (destruct cached; reflexivity).
    cbn [falsy].
    destruct (isHistory && historyReplayedViaFallback st && negb (falsy cached)
              && falsy cached) eqn:E.
    - destruct cached; [|rewrite andb_false_r in E; discriminate].
      rewrite andb_false_r in E. discriminate.
    - unfold appendSnapshotChunk, set_pendingOscRef. cbn [falsy].
      rewrite app_nil_r. reflexivity. }
  cbn [falsy].
  destruct (isHistory && historyReplayedViaFallback st) eqn:Eh; cbn [andb];
    [|reflexivity].
  destruct (negb (falsy cached) && startsWith (c :: sanitized) cached) eqn:Ec;
    [|reflexivity].
  rewrite slice_from_nat.
  - destruct (drop (length cached) (c :: sanitized)) as [|d diff] eqn:Ed;
      cbn [falsy negb]; [|reflexivity].
    unfold appendSnapshotChunk, set_pendingOscRef. cbn [falsy].
    rewrite app_nil_r. reflexivity.
  - apply andb_true_iff in Ec as [_ Ec].
    apply startsWith_spec in Ec as [rest ->]. rewrite length_app. lia.
Qed.

Lemma handleIncoming_flags (data : jsstring) (isHistory : bool) (st : State) :
  let st' := handleIncoming gives_up textEncoder props data isHistory st in
  historyReceived st' = historyReceived st
  /\ historyReplayedViaFallback st' = historyReplayedViaFallback st
  /\ fallbackTimer st' = fallbackTimer st
  /\ disposed st' = disposed st.
Proof.
  cbv zeta. rewrite handleIncoming_forwards. cbn. auto.
Qed.

(** Once a history chunk has been seen, no event changes either flag. *)
Lemma step_after_history (st : State) (ev : Event) :
  historyReceived st = true ->
  historyReceived (step gives_up textEncoder props st ev) = true
  /\ historyReplayedViaFallback (step gives_up textEncoder props st ev)
     = historyReplayedViaFallback st.
Proof.
  intros H. unfold step. destruct (disposed st); [auto|].
  destruct ev as [data|data|now info| |].
  - unfold onPtyHistory.
    destruct (handleIncoming_flags data true (set_historyReceived true st))
      as (-> & -> & _). auto.
  - unfold onPtyData.
    destruct (handleIncoming_flags data false st) as (-> & -> & _). auto.
  - unfold onPtyExit.
    destruct (now - startTsRef st <? 1500)%Z; [|auto].
    destruct (onStartError props) as [callback|]; auto.
  - destruct (fallbackTimer st); auto.
    unfold fallback_callback. cbn. rewrite H. cbn. auto.
  - unfold cleanup.
    destruct (negb (keepAlive props)); cbn;
      destruct (fallbackTimer st); cbn; auto.
Qed.

Lemma run_after_history (evs : list Event) :
  forall st,
    historyReceived st = true ->
    historyReceived (run gives_up textEncoder props evs st) = true
    /\ historyReplayedViaFallback (run gives_up textEncoder props evs st)
       = historyReplayedViaFallback st.
Proof.
  unfold run. induction evs as [|ev evs IH]; intros st H; [auto|].
  cbn [fold_left].
  destruct (step_after_history st ev H) as [H1 H2].
  destruct (IH _ H1) as [H3 H4]. split; [exact H3 | congruence].
Qed.

(** With the history flag set, the timer callback leaves the terminal
    and the snapshot map alone. *)
Lemma timer_after_history (st : State) :
  historyReceived st = true ->
  term_writes (step gives_up textEncoder props st TimerFires) = term_writes st
  /\ terminalSnapshots (step gives_up textEncoder props st TimerFires)
     = terminalSnapshots st.
Proof.
  intros H. unfold step. destruct (disposed st); [auto|].
  destruct (fallbackTimer st); auto.
  unfold fallback_callback. cbn. rewrite H. cbn. auto.
Qed.

End Facts.

End ReconcilerFacts.

Module ReconcilerClaims.
Import Sanitizer Snapshot Reconciler ReconcilerFacts Samples.

(** C1.  After the fallback replay, a history chunk is sanitized first.
    If the cached snapshot text is not empty and the sanitized text
    starts with it, the text forwarded is the rest after that prefix;
    otherwise it is the whole sanitized text.  The forwarded text is
    written to the terminal and appended to the snapshot, and nothing
    is written when it is empty.  So with "ABC" cached, a chunk that
    sanitizes to "ABCDEF" forwards and appends "DEF" only, and one that
    sanitizes to "XYZ" forwards and appends "XYZ". *)
Theorem fallback_replay_dedup (gives_up : RegExp.Engine) (textEncoder : bool)
  (props : Props) (st : State) (data : jsstring) :
  historyReplayedViaFallback st = true ->
  let sanitized := (sanitizeEchoArtifacts gives_up (pendingOscRef st) data).1 in
  let cached := getSnapshotText (id props) (terminalSnapshots st) in
  let st' := onPtyHistory gives_up textEncoder props data st in
  let starts_with_cache :=
    cached <> [] /\ exists suffix, sanitized = cached ++ suffix in
  (exists forwarded,
      (starts_with_cache -> sanitized = cached ++ forwarded)
      /\ (~ starts_with_cache -> forwarded = sanitized)
      /\ term_writes st'
         = term_writes st ++ (if falsy forwarded then [] else [forwarded])
      /\ terminalSnapshots st'
         = appendSnapshotChunk textEncoder (id props) forwarded
             (terminalSnapshots st))
  /\ pendingOscRef st'
     = (sanitizeEchoArtifacts gives_up (pendingOscRef st) data).2
  /\ (cached = js "ABC" -> sanitized = js "ABCDEF" ->
      term_writes st' = term_writes st ++ [js "DEF"]
      /\ terminalSnapshots st'
         = appendSnapshotChunk textEncoder (id props) (js "DEF")
             (terminalSnapshots st))
  /\ (cached = js "ABC" -> sanitized = js "XYZ" ->
      term_writes st' = term_writes st ++ [js "XYZ"]
      /\ terminalSnapshots st'
         = appendSnapshotChunk textEncoder (id props) (js "XYZ")
             (terminalSnapshots st)).
Proof.
  intros Hreplayed sanitized cached st' starts.
  assert (Hst' : st' = handleIncoming gives_up textEncoder props data true
                         (set_historyReceived true st)) by reflexivity.
  rewrite handleIncoming_forwards in Hst'.
  change (pendingOscRef (set_historyReceived true st))
    with (pendingOscRef st) in Hst'.
  change (terminalSnapshots (set_historyReceived true st))
    with (terminalSnapshots st) in Hst'.
  change (historyReplayedViaFallback (set_historyReceived true st))
    with (historyReplayedViaFallback st) in Hst'.
  change (term_writes (set_historyReceived true st))
    with (term_writes st) in Hst'.
  fold sanitized cached in Hst'. rewrite Hreplayed in Hst'.
  cbn [andb] in Hst'.
  split; [|split; [|split]].
  - destruct (negb (falsy cached) && startsWith sanitized cached) eqn:E.
    + apply andb_true_iff in E as [Hne Hsw].
      apply startsWith_spec in Hsw as [rest Hrest].
      exists (drop (length cached) sanitized).
      split; [|split; [|split]].
      * intros _. rewrite Hrest at 2. rewrite drop_app_length.
        exact Hrest.
      * intros Hn. exfalso. apply Hn. split; [|eauto].
        destruct cached; [discriminate | congruence].
      * rewrite Hst'. reflexivity.
      * rewrite Hst'. reflexivity.
    + exists sanitized. split; [|split; [|split]].
      * intros [Hne [suffix Hs]]. exfalso.
        apply andb_false_iff in E as [E|E].
        -- destruct cached; [congruence | discriminate].
        -- assert (startsWith sanitized cached = true)
             by (apply startsWith_spec; eauto).
           congruence.
      * reflexivity.
      * rewrite Hst'. reflexivity.
      * rewrite Hst'. reflexivity.
  - rewrite Hst'. reflexivity.
  - intros Hc Hs. rewrite Hc, Hs in Hst'. rewrite Hst'. cbn. auto.
  - intros Hc Hs. rewrite Hc, Hs in Hst'. rewrite Hst'. cbn. auto.
Qed.

Lemma fallback_replay_dedup_witness :
  historyReplayedViaFallback replayed_ABC = true
  /\ term_writes
       (onPtyHistory bounded_engine true plain_props (js "ABCDEF")
          replayed_ABC)
     = [js "ABC"; js "DEF"]
  /\ getSnapshotText (js "term-1")
       (terminalSnapshots
          (onPtyHistory bounded_engine true plain_props (js "ABCDEF")
             replayed_ABC))
     = js "ABCDEF"
  /\ term_writes
       (onPtyHistory bounded_engine true plain_props (js "XYZ") replayed_ABC)
     = [js "ABC"; js "XYZ"].
Proof.
  assert (historyReplayedViaFallback replayed_ABC = true) as H
      by (vm_compute; reflexivity).
  split; [exact H|].
  destruct (proj1 (proj2 (proj2
              (fallback_replay_dedup bounded_engine true plain_props
                 replayed_ABC
                 (js "ABCDEF") H))))
    as [Hw Hs]; [vm_compute; reflexivity | vm_compute; reflexivity |].
  destruct (proj2 (proj2 (proj2
              (fallback_replay_dedup bounded_engine true plain_props
                 replayed_ABC
                 (js "XYZ") H))))
    as [Hw' _]; [vm_compute; reflexivity | vm_compute; reflexivity |].
  split; [rewrite Hw; vm_compute; reflexivity|].
  split; [rewrite Hs; vm_compute; reflexivity|].
  rewrite Hw'. vm_compute. reflexivity.
Defined.

(** C4, as stated, fails: the history callback does not cancel the
    fallback timer.  After a first history chunk the timer is still
    scheduled, and its callback still runs when the delay is over. *)
Lemma history_leaves_timer_scheduled :
  fallbackTimer
    (step bounded_engine true plain_props (mount ∅ 0) (PtyHistory (js "x")))
  = Scheduled
  /\ fallbackTimer
       (step bounded_engine true plain_props (mount ∅ 0)
          (PtyHistory (js "x")))
     <> Cleared
  /\ fallbackTimer
       (run bounded_engine true plain_props
          [PtyHistory (js "x"); TimerFires] (mount ∅ 0))
     = Fired.
Proof. vm_compute. repeat split; discriminate. Qed.

(** C4, amended.  A history chunk leaves the fallback timer as it is
    and sets the history flag, which guards the timer callback: from
    then on, whatever events follow, the flag stays set, the session
    does not become replayed via fallback unless it already was, and
    the timer callback writes nothing to the terminal and leaves the
    snapshot map alone. *)
Theorem history_guards_fallback (gives_up : RegExp.Engine)
  (textEncoder : bool) (props : Props) (st : State) (data : jsstring)
  (evs : list Event) :
  let observed := onPtyHistory gives_up textEncoder props data st in
  let later := run gives_up textEncoder props evs observed in
  fallbackTimer observed = fallbackTimer st
  /\ historyReceived later = true
  /\ historyReplayedViaFallback later = historyReplayedViaFallback st
  /\ term_writes (step gives_up textEncoder props later TimerFires)
     = term_writes later
  /\ terminalSnapshots (step gives_up textEncoder props later TimerFires)
     = terminalSnapshots later.
Proof.
  intros observed later.
  destruct (handleIncoming_flags gives_up textEncoder props data true
              (set_historyReceived true st)) as (Hr & Hf & Ht & _).
  fold (onPtyHistory gives_up textEncoder props data st) in Hr, Hf, Ht.
  fold observed in Hr, Hf, Ht. cbn in Hr, Hf, Ht.
  destruct (run_after_history gives_up textEncoder props evs observed Hr)
    as [Hlater Hflag].
  fold later in Hlater, Hflag.
  destruct (timer_after_history gives_up textEncoder props later Hlater)
    as [Hw Hs].
  split; [exact Ht|]. split; [exact Hlater|].
  split; [congruence|]. split; [exact Hw | exact Hs].
Qed.

(** C7.  When the exit event is delivered, [onStartError] is called,
    with the message that reports the exit code, exactly when less
    than 1500 ms have passed since the start and the callback was
    given; nothing else changes, whether the callback throws or not.
    An exit 1200 ms after the start calls the callback, an exit
    2000 ms after the start does not. *)
Theorem early_exit_reported (props : Props) (st : State) (now : Z)
  (info : option PtyExitInfo) :
  let st' := onPtyExit props now info st in
  let elapsed := (now - startTsRef st)%Z in
  let given := match onStartError props with
               | Some _ => true
               | None => false
               end in
  startErrorCalls st'
  = startErrorCalls st
      ++ (if (elapsed <? 1500)%Z && given
          then [early_exit_message info] else [])
  /\ term_writes st' = term_writes st
  /\ terminalSnapshots st' = terminalSnapshots st
  /\ (forall snapshots start,
        given = true ->
        startErrorCalls
          (onPtyExit props (start + 1200) info (mount snapshots start))
        = [early_exit_message info]
        /\ startErrorCalls
             (onPtyExit props (start + 2000) info (mount snapshots start))
           = [])
  /\ early_exit_message (Some {| exitCode := Some 1%Z |})
     = js "PTY exited early (code 1)"
  /\ early_exit_message None = js "PTY exited early (code n/a)".
Proof.
  intros st' elapsed given. subst st' elapsed given. unfold onPtyExit.
  split; [|split; [|split; [|split; [|split]]]].
  - destruct (now - startTsRef st <? 1500)%Z;
      destruct (onStartError props) as [callback|]; cbn;
      rewrite ?app_nil_r; reflexivity.
  - destruct (now - startTsRef st <? 1500)%Z;
      destruct (onStartError props) as [callback|]; reflexivity.
  - destruct (now - startTsRef st <? 1500)%Z;
      destruct (onStartError props) as [callback|]; reflexivity.
  - intros snapshots start.
    destruct (onStartError props) as [callback|]; [|discriminate].
    intros _. cbn [mount startTsRef].
    destruct (Z.ltb_spec (start + 1200 - start) 1500) as [_|Hge]; [|lia].
    destruct (Z.ltb_spec (start + 2000 - start) 1500) as [Hlt|_]; [lia|].
    split; reflexivity.
  - vm_compute. reflexivity.
  - vm_compute. reflexivity.
Qed.

Lemma early_exit_reported_witness :
  startErrorCalls
    (onPtyExit throwing_props 1200 (Some {| exitCode := Some 127%Z |})
       (mount ∅ 0))
  = [js "PTY exited early (code 127)"]
  /\ startErrorCalls
       (onPtyExit throwing_props 2000 (Some {| exitCode := Some 127%Z |})
          (mount ∅ 0))
     = [].
Proof.
  exact (proj1 (proj2 (proj2 (proj2
           (early_exit_reported throwing_props (mount ∅ 0) 0
              (Some {| exitCode := Some 127%Z |})))))
           ∅ 0%Z eq_refl).
Defined.

End ReconcilerClaims.

(** ** The focus registry *)

Module FocusRegistryFacts.
Import FocusRegistry.

Lemma map_get_set_eq (key : jsstring) (value : FocusHandler) (m : Registry) :
  map_get key (map_set key value m) = Some value.
Proof.
  induction m as [|[k v] m IH]; cbn [map_set map_get].
  - rewrite decide_True by reflexivity. reflexivity.
  - destruct (decide (k = key)) as [->|Hne]; cbn [map_get].
    + rewrite decide_True by reflexivity. reflexivity.
    + rewrite decide_False by exact Hne. exact IH.
Qed.

Lemma map_get_set_ne (key key' : jsstring) (value : FocusHandler)
  (m : Registry) :
  key <> key' -> map_get key' (map_set key value m) = map_get key' m.
Proof.
  intros Hne. induction m as [|[k v] m IH]; cbn [map_set map_get].
  - rewrite decide_False by exact Hne. reflexivity.
  - destruct (decide (k = key)) as [->|Hk]; cbn [map_get].
    + rewrite !decide_False by exact Hne. reflexivity.
    + destruct (decide (k = key')); [reflexivity | exact IH].
Qed.

Lemma map_get_None (key : jsstring) (m : Registry) :
  map_get key m = None <-> key ∉ map fst m.
Proof.
  induction m as [|[k v] m IH]; cbn [map_get map fst].
  - split; [intros _; apply not_elem_of_nil | reflexivity].
  - rewrite not_elem_of_cons. destruct (decide (k = key)) as [->|Hne].
    + split; [discriminate | intros [H _]; congruence].
    + rewrite IH. split; [intros H; split; [congruence | exact H] | tauto].
Qed.

(** A new key goes to the end; an existing key keeps its place. *)
Lemma map_set_new (key : jsstring) (value : FocusHandler) (m : Registry) :
  map_get key m = None -> map_set key value m = m ++ [(key, value)].
Proof.
  induction m as [|[k v] m IH]; cbn [map_set map_get app]; [reflexivity|].
  destruct (decide (k = key)); [discriminate|].
  intros H. rewrite IH by exact H. reflexivity.
Qed.

Lemma map_set_keys (key : jsstring) (value : FocusHandler) (m : Registry) :
  map fst (map_set key value m)
  = match map_get key m with
    | Some _ => map fst m
    | None => map fst m ++ [key]
    end.
Proof.
  induction m as [|[k v] m IH]; cbn [map_set map_get map fst app];
    [reflexivity|].
  destruct (decide (k = key)); [reflexivity|].
  cbn [map fst]. rewrite IH. destruct (map_get key m); reflexivity.
Qed.

Lemma map_delete_keys (key : jsstring) (m : Registry) :
  NoDup (map fst m) ->
  NoDup (map fst (map_delete key m))
  /\ (key ∉ map fst (map_delete key m))
  /\ forall key', key' <> key ->
       map_get key' (map_delete key m) = map_get key' m.
Proof.
  induction m as [|[k v] m IH]; cbn [map_delete map fst]; intros Hnd.
  - split; [constructor|]. split; [apply not_elem_of_nil | reflexivity].
  - apply NoDup_cons in Hnd as [Hk Hnd].
    destruct (decide (k = key)) as [->|Hne].
    + split; [exact Hnd|]. split; [exact Hk|].
      intros key' Hne. cbn [map_get]. rewrite decide_False by congruence.
      reflexivity.
    + destruct (IH Hnd) as (IH1 & IH2 & IH3). cbn [map fst].
      split; [|split].
      * apply NoDup_cons. split; [|exact IH1].
        intros Hin. apply Hk.
        apply map_get_None in Hk.
        destruct (map_get k (map_delete key m)) eqn:E.
        -- rewrite IH3 in E by exact Hne. congruence.
        -- apply map_get_None in E. contradiction.
      * rewrite not_elem_of_cons. split; [congruence | exact IH2].
      * intros key' Hne'. cbn [map_get].
        destruct (decide (k = key')); [reflexivity | apply IH3, Hne'].
Qed.

(** The keys of the registry stay distinct and never include the empty
    id. *)
Lemma registry_after_keys (calls : list RegistryCall) :
  NoDup (map fst (registry_after calls))
  /\ ([] ∉ map fst (registry_after calls)).
Proof.
  unfold registry_after.
  assert (forall registry,
            NoDup (map fst registry) /\ ([] ∉ map fst registry) ->
            NoDup (map fst (fold_left apply_call calls registry))
            /\ ([] ∉ map fst (fold_left apply_call calls registry))) as Hfold.
  { induction calls as [|call calls IH]; intros registry H; [exact H|].
    cbn [fold_left]. apply IH. destruct H as [Hnd Hne].
    destruct call as [id handler|id handler]; cbn [apply_call].
    - unfold registerTerminalFocus.
      destruct id as [|c id]; cbn [falsy]; [auto|].
      rewrite map_set_keys.
      destruct (map_get (c :: id) registry) eqn:E; [auto|].
      apply map_get_None in E. split.
      + apply NoDup_app. split; [exact Hnd|]. split; [|apply NoDup_singleton].
        intros x Hx Hx'. apply list_elem_of_singleton in Hx'. subst.
        contradiction.
      + rewrite elem_of_app, list_elem_of_singleton. intros [H|H];
          [contradiction | discriminate].
    - unfold unregisterTerminalFocus.
      destruct id as [|c id]; cbn [falsy]; [auto|].
      assert (NoDup (map fst (map_delete (c :: id) registry))
              /\ ([] ∉ map fst (map_delete (c :: id) registry))) as Hdel.
      { destruct (map_delete_keys (c :: id) registry Hnd) as (H1 & _ & H3).
        split; [exact H1|]. apply map_get_None.
        rewrite H3 by discriminate. apply map_get_None. exact Hne. }
      destruct handler as [h|]; [|exact Hdel].
      destruct (decide (map_get (c :: id) registry = Some h)); auto. }
  apply Hfold. cbn. split; [constructor | apply not_elem_of_nil].
Qed.

Section Focus.

Variable invoke : FocusHandler -> outcome unit.
Variable predicate : jsstring -> FocusHandler -> outcome bool.

(** The scan never throws. *)
Lemma focusTerminalMatching_returns (entries : Registry) :
  exists b, (focusTerminalMatching invoke predicate entries).1 = Ret b.
Proof.
  induction entries as [|entry rest [b IH]]; cbn [focusTerminalMatching].
  - exists false. reflexivity.
  - unfold try_entry.
    destruct (predicate entry.1 entry.2) as [[|]|]; cbn [try_catch].
    + destruct (invoke entry.2) as [u|]; cbn [try_catch].
      * exists true. reflexivity.
      * destruct (focusTerminalMatching invoke predicate rest).
        exists b. exact IH.
    + destruct (focusTerminalMatching invoke predicate rest).
      exists b. exact IH.
    + destruct (focusTerminalMatching invoke predicate rest).
      exists b. exact IH.
Qed.

(** An entry that is not focusable is passed over; its handler has been
    called if the predicate accepted it. *)
Lemma focusTerminalMatching_skip (entry : jsstring * FocusHandler)
  (rest : Registry) :
  ~ focusable invoke predicate entry ->
  focusTerminalMatching invoke predicate (entry :: rest)
  = ((focusTerminalMatching invoke predicate rest).1,
     accepted predicate [entry]
       ++ (focusTerminalMatching invoke predicate rest).2).
Proof.
  intros Hno. cbn [focusTerminalMatching]. unfold try_entry, accepted.
  cbn [List.filter]. unfold focusable in Hno.
  destruct (predicate entry.1 entry.2) as [[|]|]; cbn [try_catch says_true].
  - destruct (invoke entry.2) as [[]|]; [exfalso; auto|].
    cbn [try_catch]. destruct (focusTerminalMatching invoke predicate rest).
    reflexivity.
  - destruct (focusTerminalMatching invoke predicate rest). reflexivity.
  - destruct (focusTerminalMatching invoke predicate rest). reflexivity.
Qed.

Lemma accepted_app (l1 l2 : Registry) :
  accepted predicate (l1 ++ l2) = accepted predicate l1 ++ accepted predicate l2.
Proof.
  unfold accepted. rewrite List.filter_app, map_app. reflexivity.
Qed.

(** The scan stops at the first focusable entry. *)
Lemma focusTerminalMatching_first (pre post : Registry) (id : jsstring)
  (handler : FocusHandler) :
  Forall (fun entry => ~ focusable invoke predicate entry) pre ->
  predicate id handler = Ret true ->
  invoke handler = Ret tt ->
  focusTerminalMatching invoke predicate (pre ++ (id, handler) :: post)
  = (Ret true, accepted predicate pre ++ [handler]).
Proof.
  intros Hpre Hp Hi. induction Hpre as [|entry pre Hno _ IH].
  - cbn [app focusTerminalMatching]. unfold try_entry. cbn [fst snd].
    rewrite Hp, Hi. reflexivity.
  - cbn [app]. rewrite (focusTerminalMatching_skip entry _ Hno), IH.
    cbn [fst snd]. rewrite app_assoc.
    change (entry :: pre) with ([entry] ++ pre). rewrite accepted_app.
    reflexivity.
Qed.

(** Without a focusable entry the scan answers [false]. *)
Lemma focusTerminalMatching_none (entries : Registry) :
  Forall (fun entry => ~ focusable invoke predicate entry) entries ->
  focusTerminalMatching invoke predicate entries
  = (Ret false, accepted predicate entries).
Proof.
  induction 1 as [|entry rest Hno _ IH]; [reflexivity|].
  rewrite (focusTerminalMatching_skip entry _ Hno), IH. cbn [fst snd].
  change (entry :: rest) with ([entry] ++ rest). rewrite accepted_app.
  reflexivity.
Qed.

Lemma accepted_nil (entries : Registry) :
  Forall (fun entry => predicate entry.1 entry.2 <> Ret true) entries ->
  accepted predicate entries = [].
Proof.
  unfold accepted. induction 1 as [|entry rest Hno _ IH]; [reflexivity|].
  cbn [List.filter].
  destruct (predicate entry.1 entry.2) as [[|]|]; cbn [says_true];
    [congruence | exact IH | exact IH].
Qed.

End Focus.

End FocusRegistryFacts.

Module FocusRegistryClaims.
Import FocusRegistry FocusRegistryFacts Samples.

Lemma registry_after_snoc (calls : list RegistryCall) (call : RegistryCall) :
  registry_after (calls ++ [call]) = apply_call (registry_after calls) call.
Proof. unfold registry_after. rewrite fold_left_app. reflexivity. Qed.

(** C8.  For an id that is not the empty string, for which alone the
    registry takes entries, and in any registry the API can produce:
    [register(id, h)] makes [h] the handler of [id], replacing any
    other; [unregister(id)] removes the entry of [id];
    [unregister(id, h)] removes it when [h] is the registered handler
    and changes nothing otherwise.  So after registering A and then
    another handler B, [unregister(id, A)] leaves B registered and
    [unregister(id, B)] then removes it.  For the empty id both
    functions return at once and change nothing. *)
Theorem registry_overwrite_semantics (calls : list RegistryCall)
  (id : jsstring) (hA hB : FocusHandler) :
  id <> [] -> hA <> hB ->
  let registry := registry_after calls in
  let both :=
    registerTerminalFocus id hB (registerTerminalFocus id hA registry) in
  map_get id (registerTerminalFocus id hB registry) = Some hB
  /\ map_get id (unregisterTerminalFocus id None registry) = None
  /\ (map_get id registry = Some hA ->
      map_get id (unregisterTerminalFocus id (Some hA) registry) = None)
  /\ (map_get id registry <> Some hA ->
      unregisterTerminalFocus id (Some hA) registry = registry)
  /\ map_get id both = Some hB
  /\ map_get id (unregisterTerminalFocus id (Some hA) both) = Some hB
  /\ map_get id
       (unregisterTerminalFocus id (Some hB)
          (unregisterTerminalFocus id (Some hA) both)) = None
  /\ registerTerminalFocus [] hA registry = registry
  /\ unregisterTerminalFocus [] (Some hA) registry = registry
  /\ unregisterTerminalFocus [] None registry = registry.
Proof.
  intros Hid Hne registry both.
  assert (forall calls', map_get id (map_delete id (registry_after calls'))
                         = None) as Hdel.
  { intros calls'. destruct (registry_after_keys calls') as [Hnd _].
    destruct (map_delete_keys id _ Hnd) as (_ & H & _).
    apply map_get_None. exact H. }
  assert (forall h r, map_get id (registerTerminalFocus id h r) = Some h)
    as Hreg.
  { intros h r. unfold registerTerminalFocus.
    destruct id; [congruence|]. cbn [falsy]. apply map_get_set_eq. }
  assert (forall h r, unregisterTerminalFocus id h r
                      = match h with
                        | None => map_delete id r
                        | Some h' =>
                            if decide (map_get id r = Some h')
                            then map_delete id r else r
                        end) as Hunreg.
  { intros h r. unfold unregisterTerminalFocus.
    destruct id; [congruence | reflexivity]. }
  assert (both = registry_after (calls ++ [Register id hA] ++ [Register id hB]))
    as Hboth.
  { rewrite app_assoc, !registry_after_snoc. reflexivity. }
  assert (unregisterTerminalFocus id (Some hA) both = both) as HunA.
  { rewrite Hunreg, decide_False; [reflexivity|].
    unfold both. rewrite Hreg. congruence. }
  split; [apply Hreg|].
  split; [rewrite Hunreg; apply (Hdel calls)|].
  split; [intros H; rewrite Hunreg, decide_True by exact H; apply (Hdel calls)|].
  split; [intros H; rewrite Hunreg, decide_False by exact H; reflexivity|].
  split; [apply Hreg|].
  split; [rewrite HunA; apply Hreg|].
  split.
  { rewrite HunA, Hunreg, decide_True by apply Hreg.
    rewrite Hboth. apply Hdel. }
  repeat split.
Qed.

Lemma registry_overwrite_semantics_witness :
  js "term-1" <> [] /\ 1 <> 2
  /\ map_get (js "term-1")
       (unregisterTerminalFocus (js "term-1") (Some 1)
          (registerTerminalFocus (js "term-1") 2
             (registerTerminalFocus (js "term-1") 1
                (registry_after [Register (js "term-0") 0])))) = Some 2.
Proof.
  assert (js "term-1" <> []) as Hid by discriminate.
  assert (1 <> 2) as Hne by discriminate.
  split; [exact Hid|]. split; [exact Hne|].
  exact (proj1 (proj2 (proj2 (proj2 (proj2 (proj2
           (registry_overwrite_semantics [Register (js "term-0") 0]
              (js "term-1") 1 2 Hid Hne))))))).
Defined.

(** C9.  [focusTerminalMatching] goes through the entries in the order
    of the map, in which a newly registered id comes last.  It never
    throws.  It stops at the first entry that the predicate accepts and
    whose handler returns, and answers [true]; the entries before it
    have been passed over, the handlers called being those the
    predicate accepted, which threw, and no entry after it is looked
    at.  In particular, when the predicate accepts none of the entries
    before, only that handler is called.  Without such an entry it
    answers [false], and it calls no handler when the predicate
    accepts no entry. *)
Theorem focus_matching_scan (invoke : FocusHandler -> outcome unit)
  (predicate : jsstring -> FocusHandler -> outcome bool)
  (registry : Registry) :
  (exists b, (focusTerminalMatching invoke predicate registry).1 = Ret b)
  /\ (forall pre id handler post,
        registry = pre ++ (id, handler) :: post ->
        Forall (fun entry => ~ focusable invoke predicate entry) pre ->
        predicate id handler = Ret true ->
        invoke handler = Ret tt ->
        focusTerminalMatching invoke predicate registry
        = (Ret true, accepted predicate pre ++ [handler]))
  /\ (forall pre id handler post,
        registry = pre ++ (id, handler) :: post ->
        Forall (fun entry => predicate entry.1 entry.2 <> Ret true) pre ->
        predicate id handler = Ret true ->
        invoke handler = Ret tt ->
        focusTerminalMatching invoke predicate registry
        = (Ret true, [handler]))
  /\ (Forall (fun entry => ~ focusable invoke predicate entry) registry ->
      focusTerminalMatching invoke predicate registry
      = (Ret false, accepted predicate registry))
  /\ (Forall (fun entry => predicate entry.1 entry.2 <> Ret true) registry ->
      focusTerminalMatching invoke predicate registry = (Ret false, []))
  /\ (forall id handler,
        id <> [] -> map_get id registry = None ->
        registerTerminalFocus id handler registry
        = registry ++ [(id, handler)])
  /\ (forall id handler,
        map_get id registry <> None ->
        getRegisteredTerminalIds (registerTerminalFocus id handler registry)
        = getRegisteredTerminalIds registry).
Proof.
  assert (forall l : Registry,
            Forall (fun entry => predicate entry.1 entry.2 <> Ret true) l ->
            Forall (fun entry => ~ focusable invoke predicate entry) l)
    as Hweaken.
  { intros l Hl. eapply Forall_impl; [exact Hl|].
    intros entry H [H' _]. congruence. }
  split; [apply focusTerminalMatching_returns|].
  split; [intros pre id handler post ->; apply focusTerminalMatching_first|].
  split.
  { intros pre id handler post -> Hpre Hp Hi.
    rewrite focusTerminalMatching_first by auto.
    rewrite accepted_nil by exact Hpre. reflexivity. }
  split; [apply focusTerminalMatching_none|].
  split.
  { intros Hno. rewrite focusTerminalMatching_none by auto.
    rewrite accepted_nil by exact Hno. reflexivity. }
  split.
  - intros id handler Hid Hnone. unfold registerTerminalFocus.
    destruct id; [congruence|]. cbn [falsy]. apply map_set_new, Hnone.
  - intros id handler Hsome. unfold registerTerminalFocus, getRegisteredTerminalIds.
    destruct (falsy id); [reflexivity|]. rewrite map_set_keys.
    destruct (map_get id registry); [reflexivity | congruence].
Qed.

Lemma focus_matching_scan_witness :
  focusTerminalMatching sample_invoke sample_predicate sample_registry
  = (Ret true, [2; 3]).
Proof.
  refine (proj1 (proj2
            (focus_matching_scan sample_invoke sample_predicate
               sample_registry))
            [(js "a", 0); (js "b", 1); (js "c", 2)] (js "d") 3
            [(js "e", 4)] eq_refl _ eq_refl eq_refl).
  repeat constructor; unfold focusable; cbn; intros [H1 H2]; discriminate.
Defined.

End FocusRegistryClaims.

(** * Further properties *)

(** ** The snapshot cache: sizes, eviction, reading back *)

Module SnapshotMore.
Import Snapshot SnapshotFacts.

Lemma utf8_length_range (n : nat) :
  forall text, length text <= n ->
    (Z.of_nat (length text) <= utf8_length text <= 3 * Z.of_nat (length text))%Z.
Proof.
  induction n as [|n IH]; intros [|c rest] Hlen; simpl in Hlen;
    try (simpl; lia).
  assert (Z.of_nat (length rest) <= utf8_length rest
          <= 3 * Z.of_nat (length rest))%Z as Hrest by (apply IH; lia).
  cbn [utf8_length length].
  destruct (c <? 128)%N; [lia|].
  destruct (c <? 2048)%N; [lia|].
  destruct (is_high_surrogate c); [|lia].
  destruct rest as [|d rest']; [simpl; lia|].
  destruct (is_low_surrogate d); [|lia].
  assert (Z.of_nat (length rest') <= utf8_length rest'
          <= 3 * Z.of_nat (length rest'))%Z
    by (apply IH; simpl in *; lia).
  cbn [length] in *. lia.
Qed.

Lemma code_points_range (n : nat) :
  forall text, length text <= n ->
    (code_points text <= Z.of_nat (length text) <= 2 * code_points text)%Z.
Proof.
  induction n as [|n IH]; intros [|c rest] Hlen; simpl in Hlen;
    try (simpl; lia).
  assert (code_points rest <= Z.of_nat (length rest)
          <= 2 * code_points rest)%Z as Hrest by (apply IH; lia).
  cbn [code_points length].
  destruct (is_high_surrogate c); [|lia].
  destruct rest as [|d rest']; [simpl; lia|].
  destruct (is_low_surrogate d); [|lia].
  assert (code_points rest' <= Z.of_nat (length rest')
          <= 2 * code_points rest')%Z
    by (apply IH; simpl in *; lia).
  cbn [length] in *. lia.
Qed.

(** X1.  [encodeBytes] is zero for the empty text only.  With a
    [TextEncoder] the size lies between the number of code units and
    three times that number; without one it is at most the number of
    code units and at least half of it. *)
Theorem encodeBytes_bounds (textEncoder : bool) (text : jsstring) :
  (encodeBytes textEncoder text = 0%Z <-> text = [])
  /\ if textEncoder
     then (Z.of_nat (length text) <= encodeBytes textEncoder text
           <= 3 * Z.of_nat (length text))%Z
     else (encodeBytes textEncoder text <= Z.of_nat (length text)
           <= 2 * encodeBytes textEncoder text)%Z.
Proof.
  split.
  - split.
    + intros H. destruct text as [|c rest]; [reflexivity|].
      pose proof (encodeBytes_pos textEncoder (c :: rest)) as Hpos.
      assert (c :: rest <> []) as Hne by discriminate.
      specialize (Hpos Hne). lia.
    + intros ->. reflexivity.
  - unfold encodeBytes. destruct text as [|c rest].
    + destruct textEncoder; simpl; lia.
    + cbn [falsy]. destruct textEncoder.
      * apply (utf8_length_range (length (c :: rest))). lia.
      * apply (code_points_range (length (c :: rest))). lia.
Qed.

(** The eviction loop drops the shortest prefix that brings the total
    under the cap, or all but the last fragment. *)
Lemma evict_least (chunks : list SnapshotChunk) :
  forall bytes,
    bytes = total_bytes chunks ->
    exists k,
      k <= length chunks - 1
      /\ (evict chunks bytes).1 = drop k chunks
      /\ (forall j, j < k ->
            (SNAPSHOT_LIMIT_BYTES < total_bytes (drop j chunks))%Z)
      /\ (k < length chunks - 1 ->
          (total_bytes (drop k chunks) <= SNAPSHOT_LIMIT_BYTES)%Z).
Proof.
  induction chunks as [|c chunks IH]; intros bytes Hb.
  - exists 0. simpl. repeat split; intros; lia.
  - destruct chunks as [|c' chunks].
    + exists 0. simpl. repeat split; intros; lia.
    + cbn [evict].
      destruct (Z.gtb_spec bytes SNAPSHOT_LIMIT_BYTES) as [Hgt|Hle].
      * destruct (IH (bytes - chunk_bytes c)%Z) as (k & Hk & H1 & H2 & H3).
        { subst bytes. unfold total_bytes. simpl. lia. }
        exists (S k). cbn [drop length] in *.
        split; [lia|]. split; [exact H1|]. split.
        -- intros j Hj. destruct j as [|j]; [cbn [drop]; lia|].
           cbn [drop]. apply H2. lia.
        -- intros Hlt. apply H3. lia.
      * exists 0. cbn [drop fst].
        split; [lia|]. split; [reflexivity|]. split; [intros j Hj; lia|].
        intros _. lia.
Qed.

Lemma entry_chunks_default (id : jsstring)
  (store : gmap jsstring SnapshotEntry) :
  entry_chunks (default {| entry_chunks := []; entry_bytes := 0 |}
                        (store !! id))
  = chunks_of id store.
Proof. unfold chunks_of. destruct (store !! id); reflexivity. Qed.

(** What an effective call leaves for its session, for any store whose
    entry for the session has the right total. *)
Lemma append_chunks (textEncoder : bool) (id text : jsstring)
  (store : gmap jsstring SnapshotEntry) :
  text <> [] ->
  (forall entry, store !! id = Some entry ->
                 entry_bytes entry = total_bytes (entry_chunks entry)) ->
  chunks_of id (appendSnapshotChunk textEncoder id text store)
  = (evict (chunks_of id store ++ [fragment textEncoder text])
       (total_bytes (chunks_of id store ++ [fragment textEncoder text]))).1.
Proof.
  intros Hne Htot.
  pose proof (encodeBytes_pos textEncoder text Hne) as Hpos.
  unfold appendSnapshotChunk.
  destruct text as [|c0 rest]; [congruence|]. cbn [falsy chunk_bytes].
  destruct (Z.eqb_spec (encodeBytes textEncoder (c0 :: rest)) 0) as [E|_];
    [lia|].
  rewrite entry_chunks_default.
  assert (entry_bytes (default {| entry_chunks := []; entry_bytes := 0 |}
                               (store !! id))
          = total_bytes (chunks_of id store)) as ->.
  { unfold chunks_of. destruct (store !! id) as [e|] eqn:E; cbn [default].
    - apply Htot. reflexivity.
    - reflexivity. }
  fold (fragment textEncoder (c0 :: rest)).
  assert (total_bytes (chunks_of id store)
          + encodeBytes textEncoder (c0 :: rest)
          = total_bytes (chunks_of id store
                           ++ [fragment textEncoder (c0 :: rest)]))%Z as ->.
  { rewrite total_bytes_app. unfold total_bytes, fragment. simpl. lia. }
  destruct (evict _ _) as [kept bytes].
  unfold chunks_of. rewrite lookup_insert_eq. reflexivity.
Qed.

Lemma append_other (textEncoder : bool) (id id' text : jsstring)
  (store : gmap jsstring SnapshotEntry) :
  id <> id' ->
  appendSnapshotChunk textEncoder id text store !! id' = store !! id'.
Proof.
  intros Hne. unfold appendSnapshotChunk.
  destruct (falsy text); [reflexivity|].
  destruct (_ =? 0)%Z; [reflexivity|].
  destruct (evict _ _) as [kept bytes].
  apply lookup_insert_ne. exact Hne.
Qed.

Lemma append_calls_snoc (textEncoder : bool)
  (calls : list (jsstring * jsstring)) (id text : jsstring) :
  append_calls textEncoder (calls ++ [(id, text)]) ∅
  = appendSnapshotChunk textEncoder id text
      (append_calls textEncoder calls ∅).
Proof. unfold append_calls. rewrite fold_left_app. reflexivity. Qed.

Lemma getSnapshotText_concat (id : jsstring)
  (store : gmap jsstring SnapshotEntry) :
  getSnapshotText id store = concat (map chunk_text (chunks_of id store)).
Proof.
  unfold getSnapshotText, chunks_of.
  destruct (store !! id) as [entry|]; [|reflexivity].
  destruct (entry_chunks entry) as [|c [|c' chunks]]; try reflexivity.
  simpl. rewrite app_nil_r. reflexivity.
Qed.

(** X2.  After any sequence of calls, a call with a text that is not
    empty evicts the fewest oldest fragments that bring the total to the
    cap or under it, and never the new fragment: each shorter eviction
    would leave the total above the cap, and unless everything old is
    evicted the total left is within the cap. *)
Theorem eviction_is_least (textEncoder : bool)
  (calls : list (jsstring * jsstring)) (id text : jsstring) :
  text <> [] ->
  let before := append_calls textEncoder calls ∅ in
  let after := appendSnapshotChunk textEncoder id text before in
  let pushed := chunks_of id before ++ [fragment textEncoder text] in
  exists k,
    k <= length (chunks_of id before)
    /\ chunks_of id after = drop k pushed
    /\ (forall j, j < k -> (512 * 1024 < total_bytes (drop j pushed))%Z)
    /\ (k < length (chunks_of id before) ->
        (total_bytes (drop k pushed) <= 512 * 1024)%Z).
Proof.
  intros Hne before after pushed.
  unfold after. rewrite append_chunks; [|exact Hne|].
  - fold pushed.
    destruct (evict_least pushed (total_bytes pushed) eq_refl)
      as (k & Hk & H1 & H2 & H3).
    assert (length pushed - 1 = length (chunks_of id before)) as Hlen
        by (unfold pushed; rewrite length_app; simpl; lia).
    rewrite Hlen in Hk, H3. exists k. auto.
  - intros entry H. apply (append_calls_ok textEncoder calls id entry H).
Qed.

Lemma eviction_is_least_witness :
  js "cd" <> []
  /\ exists k,
      k <= length (chunks_of (js "t1")
                     (append_calls true [(js "t1", js "ab")] ∅))
      /\ chunks_of (js "t1")
           (appendSnapshotChunk true (js "t1") (js "cd")
              (append_calls true [(js "t1", js "ab")] ∅))
         = drop k (chunks_of (js "t1")
                     (append_calls true [(js "t1", js "ab")] ∅)
                   ++ [fragment true (js "cd")]).
Proof.
  assert (js "cd" <> []) as Hne by discriminate.
  split; [exact Hne|].
  destruct (eviction_is_least true [(js "t1", js "ab")] (js "t1") (js "cd")
              Hne) as (k & Hk & Hc & _).
  exists k. split; [exact Hk | exact Hc].
Defined.

(** What is read back after a call, in terms of the fragments kept. *)
Lemma append_read (textEncoder : bool)
  (calls : list (jsstring * jsstring)) (id text : jsstring) :
  text <> [] ->
  let before := append_calls textEncoder calls ∅ in
  let after := appendSnapshotChunk textEncoder id text before in
  exists k,
    k <= length (chunks_of id before)
    /\ getSnapshotText id after
       = concat (map chunk_text (drop k (chunks_of id before))) ++ text
    /\ (forall j, j < k ->
          (512 * 1024
           < total_bytes (drop j (chunks_of id before
                                    ++ [fragment textEncoder text])))%Z).
Proof.
  intros Hne before after.
  assert (chunks_of id after
          = (evict (chunks_of id before ++ [fragment textEncoder text])
               (total_bytes
                  (chunks_of id before ++ [fragment textEncoder text]))).1)
    as Hafter.
  { unfold after. apply append_chunks; [exact Hne|].
    intros entry H. apply (append_calls_ok textEncoder calls id entry H). }
  set (pushed := chunks_of id before ++ [fragment textEncoder text]) in *.
  destruct (evict_least pushed (total_bytes pushed) eq_refl)
    as (k & Hk & H1 & H2 & _).
  assert (length pushed - 1 = length (chunks_of id before)) as Hlen
      by (unfold pushed; rewrite length_app; simpl; lia).
  rewrite Hlen in Hk. rewrite H1 in Hafter.
  exists k. split; [exact Hk|]. split; [|exact H2].
  rewrite getSnapshotText_concat, Hafter. unfold pushed.
  rewrite drop_app_le by exact Hk.
  rewrite map_app, concat_app. simpl. rewrite app_nil_r. reflexivity.
Qed.

(** X3.  Reading back after a call: the cached text is what was left of
    the old text, a suffix of it, followed by the new text; and when the
    old total plus the size of the new text is within the cap, it is the
    whole old text followed by the new text. *)
Theorem append_then_read (textEncoder : bool)
  (calls : list (jsstring * jsstring)) (id text : jsstring) :
  let before := append_calls textEncoder calls ∅ in
  let after := appendSnapshotChunk textEncoder id text before in
  (exists dropped kept,
      getSnapshotText id before = dropped ++ kept
      /\ getSnapshotText id after = kept ++ text)
  /\ ((total_bytes (chunks_of id before) + encodeBytes textEncoder text
       <= 512 * 1024)%Z ->
      getSnapshotText id after = getSnapshotText id before ++ text).
Proof.
  intros before after.
  destruct text as [|c0 rest].
  { change after with before. split.
    - exists [], (getSnapshotText id before). rewrite app_nil_r. auto.
    - intros _. rewrite app_nil_r. reflexivity. }
  assert (c0 :: rest <> []) as Hne by discriminate.
  destruct (append_read textEncoder calls id (c0 :: rest) Hne)
    as (k & Hk & Hread & H2).
  fold before in Hk, Hread, H2. fold after in Hread.
  split.
  - exists (concat (map chunk_text (take k (chunks_of id before)))),
           (concat (map chunk_text (drop k (chunks_of id before)))).
    split; [|exact Hread].
    rewrite getSnapshotText_concat, <- concat_app, <- map_app, take_drop.
    reflexivity.
  - intros Hfit. rewrite Hread, getSnapshotText_concat.
    destruct k as [|k]; [reflexivity|].
    specialize (H2 0 ltac:(lia)).
    rewrite drop_0, total_bytes_app in H2.
    unfold total_bytes at 2 in H2. unfold fragment in H2. simpl in H2.
    lia.
Qed.

Lemma append_then_read_witness :
  (total_bytes (chunks_of (js "t1")
                  (append_calls true [(js "t1", js "ab")] ∅))
   + encodeBytes true (js "cd") <= 512 * 1024)%Z
  /\ getSnapshotText (js "t1")
       (appendSnapshotChunk true (js "t1") (js "cd")
          (append_calls true [(js "t1", js "ab")] ∅))
     = getSnapshotText (js "t1") (append_calls true [(js "t1", js "ab")] ∅)
         ++ js "cd".
Proof.
  assert (total_bytes (chunks_of (js "t1")
                         (append_calls true [(js "t1", js "ab")] ∅))
          + encodeBytes true (js "cd") <= 512 * 1024)%Z as Hfit
      by (vm_compute; discriminate).
  split; [exact Hfit|].
  exact (proj2 (append_then_read true [(js "t1", js "ab")] (js "t1")
                  (js "cd")) Hfit).
Defined.

Lemma appended_texts_snoc (id id0 text : jsstring)
  (calls : list (jsstring * jsstring)) :
  appended_texts id (calls ++ [(id0, text)])
  = appended_texts id calls
      ++ (if decide (id0 = id)
          then (if falsy text then [] else [text]) else []).
Proof.
  unfold appended_texts. rewrite omap_app. f_equal. cbn.
  destruct (decide (id0 = id)); [|reflexivity].
  destruct (falsy text); reflexivity.
Qed.

(** X4.  The fragments cached for a session are always the last ones of
    the texts appended for that session, empty texts left out, each
    whole and in order; calls for other sessions play no part.  The
    newest text is always among them, and the cached text is these
    texts one after another. *)
Theorem cache_is_suffix_of_history (textEncoder : bool)
  (calls : list (jsstring * jsstring)) (id : jsstring) :
  let texts := appended_texts id calls in
  let store := append_calls textEncoder calls ∅ in
  exists k,
    k <= length texts - 1
    /\ chunks_of id store = map (fragment textEncoder) (drop k texts)
    /\ getSnapshotText id store = concat (drop k texts).
Proof.
  cbv zeta.
  assert (forall k texts,
            chunks_of id (append_calls textEncoder calls ∅)
            = map (fragment textEncoder) (drop k texts) ->
            getSnapshotText id (append_calls textEncoder calls ∅)
            = concat (drop k texts)) as Hread.
  { intros k texts H. rewrite getSnapshotText_concat, H, map_map.
    f_equal. apply map_id. }
  assert (exists k,
            k <= length (appended_texts id calls) - 1
            /\ chunks_of id (append_calls textEncoder calls ∅)
               = map (fragment textEncoder)
                   (drop k (appended_texts id calls))) as (k & Hk & Hc).
  { clear Hread. induction calls as [|[id0 text] calls IH] using rev_ind.
    - exists 0. split; [simpl; lia | reflexivity].
    - destruct IH as (k & Hk & Hc).
      rewrite append_calls_snoc, appended_texts_snoc.
      destruct (decide (id0 = id)) as [->|Hne].
      + destruct text as [|c0 rest].
        * cbn [falsy]. rewrite app_nil_r. exists k. split; [exact Hk|].
          exact Hc.
        * cbn [falsy]. rewrite append_chunks; [|discriminate|].
          -- set (texts := appended_texts id calls) in *.
             set (new := fragment textEncoder (c0 :: rest)).
             destruct (evict_least
                         (chunks_of id (append_calls textEncoder calls ∅)
                            ++ [new])
                         (total_bytes
                            (chunks_of id (append_calls textEncoder calls ∅)
                               ++ [new])) eq_refl)
               as (k' & Hk' & H1 & _).
             rewrite H1. rewrite length_app in Hk'. cbn [length] in Hk'.
             rewrite Hc in Hk' |- *. rewrite length_map, length_drop in Hk'.
             exists (k + k'). rewrite length_app. cbn [length].
             split; [lia|].
             assert (k <= length texts) as Hle by lia.
             rewrite <- drop_drop.
             rewrite (drop_app_le texts [c0 :: rest] k Hle).
             rewrite <- (List.skipn_map (fragment textEncoder) k'
                           (drop k texts ++ [c0 :: rest])).
             rewrite map_app. reflexivity.
          -- intros entry H.
             apply (append_calls_ok textEncoder calls id entry H).
      + rewrite app_nil_r. exists k. split; [exact Hk|].
        unfold chunks_of in *. rewrite append_other by exact Hne. exact Hc. }
  exists k. split; [exact Hk|]. split; [exact Hc | apply Hread, Hc].
Qed.

(** X5.  [clearSnapshot] empties the cached text of its session, and a
    text appended next is then all that is cached; neither clearing nor
    appending for one session changes what another session reads. *)
Theorem clear_and_isolation (textEncoder : bool) (id text : jsstring)
  (store : gmap jsstring SnapshotEntry) :
  getSnapshotText id (clearSnapshot id store) = []
  /\ getSnapshotText id
       (appendSnapshotChunk textEncoder id text (clearSnapshot id store))
     = text
  /\ forall other,
       other <> id ->
       getSnapshotText other (clearSnapshot id store)
       = getSnapshotText other store
       /\ getSnapshotText other (appendSnapshotChunk textEncoder id text store)
          = getSnapshotText other store.
Proof.
  assert (chunks_of id (clearSnapshot id store) = []) as Hgone.
  { unfold chunks_of, clearSnapshot. rewrite lookup_delete_eq. reflexivity. }
  split; [|split].
  - rewrite getSnapshotText_concat, Hgone. reflexivity.
  - destruct text as [|c0 rest].
    + cbn [appendSnapshotChunk falsy].
      rewrite getSnapshotText_concat, Hgone. reflexivity.
    + rewrite getSnapshotText_concat, append_chunks; [|discriminate|].
      * rewrite Hgone. cbn. rewrite app_nil_r. reflexivity.
      * unfold clearSnapshot. rewrite lookup_delete_eq. discriminate.
  - intros other Hne. unfold getSnapshotText, clearSnapshot.
    rewrite lookup_delete_ne by congruence.
    rewrite append_other by congruence. auto.
Qed.

End SnapshotMore.

(** ** The reconciler: what reaches the terminal and the cache *)

Module ReconcilerMore.
Import Sanitizer SanitizerFacts Snapshot SnapshotFacts SnapshotMore.
Import Reconciler ReconcilerFacts FirstRevision Samples.

Section More.

Variable gives_up : RegExp.Engine.
Variable textEncoder : bool.
Variable props : Props.

(** What a delivered chunk does to the state, on either channel. *)
Lemma chunk_step (st : State) (history : bool) (data : jsstring) :
  disposed st = false ->
  let ev := if history then PtyHistory data else PtyData data in
  let sanitized := (sanitizeEchoArtifacts gives_up (pendingOscRef st) data).1 in
  let cached := getSnapshotText (id props) (terminalSnapshots st) in
  let forwarded :=
    if history && historyReplayedViaFallback st
       && negb (falsy cached) && startsWith sanitized cached
    then drop (length cached) sanitized
    else sanitized in
  let st' := step gives_up textEncoder props st ev in
  term_writes st'
  = term_writes st ++ (if falsy forwarded then [] else [forwarded])
  /\ terminalSnapshots st'
     = appendSnapshotChunk textEncoder (id props) forwarded
         (terminalSnapshots st)
  /\ pendingOscRef st'
     = (sanitizeEchoArtifacts gives_up (pendingOscRef st) data).2
  /\ historyReplayedViaFallback st' = historyReplayedViaFallback st
  /\ fallbackTimer st' = fallbackTimer st
  /\ disposed st' = false
  /\ historyReceived st' = historyReceived st || history.
Proof.
  intros Hd. cbv zeta. unfold step. rewrite Hd.
  destruct history.
  - unfold onPtyHistory. rewrite handleIncoming_forwards. cbn.
    rewrite orb_true_r. repeat split; first [reflexivity | exact Hd].
  - unfold onPtyData. rewrite handleIncoming_forwards. cbn.
    rewrite orb_false_r. repeat split; first [reflexivity | exact Hd].
Qed.

Lemma concat_nonempty (l : list jsstring) :
  concat (List.filter (fun w => negb (falsy w)) l) = concat l.
Proof.
  induction l as [|w l IH]; [reflexivity|]. cbn [List.filter].
  destruct w as [|c w]; cbn [falsy negb concat]; [exact IH|].
  rewrite IH. reflexivity.
Qed.

(** X6.  As long as the fallback timer has not fired, the component
    gives the terminal the same text as its first revision does on the
    same engine: for any chunks of the two channels in any order, the
    writes are the sanitized chunks in arrival order, those that
    sanitize to the empty string left out, and the pending buffer is
    the same. *)
Theorem revisions_write_the_same (chunks : list (bool * jsstring))
  (snapshots : gmap jsstring SnapshotEntry) (now : Z) :
  let new := run gives_up textEncoder props (chunk_events chunks)
               (mount snapshots now) in
  let old := run_chunks gives_up chunks (mount snapshots now) in
  term_writes new = List.filter (fun w => negb (falsy w)) (term_writes old)
  /\ terminal_text new = terminal_text old
  /\ pendingOscRef new = pendingOscRef old.
Proof.
  cbv zeta.
  assert (forall a b : State,
            pendingOscRef a = pendingOscRef b ->
            term_writes a
            = List.filter (fun w => negb (falsy w)) (term_writes b) ->
            historyReplayedViaFallback a = false ->
            disposed a = false ->
            term_writes (run gives_up textEncoder props (chunk_events chunks) a)
            = List.filter (fun w => negb (falsy w))
                (term_writes (run_chunks gives_up chunks b))
            /\ pendingOscRef
                 (run gives_up textEncoder props (chunk_events chunks) a)
               = pendingOscRef (run_chunks gives_up chunks b)) as Hsim.
  { unfold run, run_chunks.
    induction chunks as [|[history data] chunks IH]; intros a b Hp Hw Hr Hd;
      [auto|].
    cbn [chunk_events map fold_left fst snd].
    destruct (chunk_step a history data Hd)
      as (Hw' & _ & Hp' & Hr' & _ & Hd' & _).
    cbv zeta in Hw', Hp', Hr', Hd'. rewrite Hr, andb_false_r in Hw'.
    cbn [andb] in Hw'.
    apply IH.
    - rewrite Hp'. unfold onChunk. rewrite Hp.
      destruct (sanitizeEchoArtifacts gives_up (pendingOscRef b) data).
      reflexivity.
    - rewrite Hw'. unfold onChunk. rewrite Hp.
      destruct (sanitizeEchoArtifacts gives_up (pendingOscRef b) data)
        as [sanitized pending].
      cbn. rewrite List.filter_app, Hw. cbn.
      destruct (falsy sanitized); reflexivity.
    - congruence.
    - exact Hd'. }
  destruct (Hsim (mount snapshots now) (mount snapshots now)
              eq_refl eq_refl eq_refl eq_refl) as [Hw Hp].
  split; [exact Hw|]. split; [|exact Hp].
  unfold terminal_text. rewrite Hw. apply concat_nonempty.
Qed.

(** [handleIncoming], the timer callback, the exit handler and the
    cleanup keep the writes free of empty strings. *)
Lemma step_writes_nonempty (st : State) (ev : Event) :
  Forall (fun w => w <> []) (term_writes st) ->
  Forall (fun w => w <> [])
    (term_writes (step gives_up textEncoder props st ev)).
Proof.
  intros H.
  assert (forall data history st0,
            term_writes st0 = term_writes st ->
            Forall (fun w => w <> [])
              (term_writes
                 (handleIncoming gives_up textEncoder props data history st0)))
    as Hin.
  { intros data history st0 E. rewrite handleIncoming_forwards. cbn.
    rewrite E. apply Forall_app. split; [exact H|].
    match goal with |- context [falsy ?f] => destruct f end; cbn [falsy];
      repeat constructor; discriminate. }
  unfold step. destruct (disposed st); [exact H|].
  destruct ev as [data|data|now info| |].
  - apply Hin. reflexivity.
  - apply Hin. reflexivity.
  - unfold onPtyExit.
    destruct (now - startTsRef st <? 1500)%Z; [|exact H].
    destruct (onStartError props); exact H.
  - destruct (fallbackTimer st); try exact H.
    unfold fallback_callback. cbn.
    destruct (historyReceived st); cbn; [exact H|].
    destruct (getSnapshotText (id props) (terminalSnapshots st)) eqn:E;
      cbn; [exact H|].
    apply Forall_app. split; [exact H|]. repeat constructor. discriminate.
  - unfold cleanup.
    destruct (negb (keepAlive props)); cbn;
      destruct (fallbackTimer st); cbn; exact H.
Qed.

(** X7.  Whatever events are delivered after the effect has run, the
    terminal is never given the empty string: every [term.write] of the
    handlers and of the fallback timer carries text. *)
Theorem terminal_writes_are_nonempty (evs : list Event)
  (snapshots : gmap jsstring SnapshotEntry) (now : Z) :
  Forall (fun w => w <> [])
    (term_writes (run gives_up textEncoder props evs (mount snapshots now))).
Proof.
  unfold run.
  assert (forall st,
            Forall (fun w => w <> []) (term_writes st) ->
            Forall (fun w => w <> [])
              (term_writes
                 (fold_left (step gives_up textEncoder props) evs st)))
    as Hfold.
  { induction evs as [|ev evs IH]; intros st H; [exact H|].
    cbn [fold_left]. apply IH, step_writes_nonempty, H. }
  apply Hfold. constructor.
Qed.

(** A call keeps every entry of the map well formed. *)
Lemma append_preserves_ok (sid text : jsstring)
  (store : gmap jsstring SnapshotEntry) :
  (forall k entry, store !! k = Some entry -> entry_ok entry) ->
  forall k entry,
    appendSnapshotChunk textEncoder sid text store !! k = Some entry ->
    entry_ok entry.
Proof.
  intros Hok k entry.
  destruct text as [|c0 rest]; [apply Hok|].
  destruct (append_entry textEncoder sid (c0 :: rest) store)
    as (n & e & -> & _ & _ & He);
    [discriminate | intros e0; apply Hok |].
  rewrite lookup_insert. case_decide.
  - intros [= <-]. exact He.
  - apply Hok.
Qed.

Lemma step_keeps_invariants (st : State) (ev : Event) :
  pending_ok (pendingOscRef st) ->
  (forall k entry, terminalSnapshots st !! k = Some entry -> entry_ok entry) ->
  pending_ok (pendingOscRef (step gives_up textEncoder props st ev))
  /\ (forall k entry,
        terminalSnapshots (step gives_up textEncoder props st ev) !! k
        = Some entry ->
        entry_ok entry).
Proof.
  intros Hp Hok. unfold step. destruct (disposed st); [auto|].
  assert (forall data history st0,
            terminalSnapshots st0 = terminalSnapshots st ->
            pending_ok
              (pendingOscRef
                 (handleIncoming gives_up textEncoder props data history st0))
            /\ (forall k entry,
                  terminalSnapshots
                    (handleIncoming gives_up textEncoder props data history
                       st0) !! k
                  = Some entry -> entry_ok entry)) as Hin.
  { intros data history st0 E. rewrite handleIncoming_forwards. cbn.
    split; [apply sanitize_pending_ok|].
    rewrite E. apply append_preserves_ok, Hok. }
  destruct ev as [data|data|now info| |].
  - apply Hin. reflexivity.
  - apply Hin. reflexivity.
  - unfold onPtyExit.
    destruct (now - startTsRef st <? 1500)%Z; [|auto].
    destruct (onStartError props); auto.
  - destruct (fallbackTimer st); auto.
    unfold fallback_callback. cbn.
    destruct (historyReceived st); cbn; [auto|].
    destruct (falsy _); cbn; auto.
  - unfold cleanup.
    assert (forall k entry,
              clearSnapshot (id props) (terminalSnapshots st) !! k
              = Some entry -> entry_ok entry) as Hclear.
    { intros k entry. unfold clearSnapshot. rewrite lookup_delete.
      case_decide; [discriminate | apply Hok]. }
    destruct (negb (keepAlive props)); cbn;
      destruct (fallbackTimer st); cbn; auto.
Qed.

(** X8.  Through any events of a session whose snapshot map was built by
    [appendSnapshotChunk] calls, the sanitizer's pending buffer stays
    empty or one unterminated OSC prefix, and every entry of the
    snapshot map keeps its total equal to the sum of its fragments'
    sizes and, with two or more fragments, within 512 KiB. *)
Theorem session_keeps_invariants (evs : list Event)
  (calls : list (jsstring * jsstring)) (now : Z) :
  let st := run gives_up textEncoder props evs
              (mount (append_calls textEncoder calls ∅) now) in
  pending_ok (pendingOscRef st)
  /\ forall sid entry,
       terminalSnapshots st !! sid = Some entry ->
       entry_bytes entry = total_bytes (entry_chunks entry)
       /\ (2 <= length (entry_chunks entry) ->
           (entry_bytes entry <= 512 * 1024)%Z).
Proof.
  cbv zeta. unfold run.
  assert (forall st,
            pending_ok (pendingOscRef st) ->
            (forall k entry,
               terminalSnapshots st !! k = Some entry -> entry_ok entry) ->
            pending_ok
              (pendingOscRef
                 (fold_left (step gives_up textEncoder props) evs st))
            /\ (forall k entry,
                  terminalSnapshots
                    (fold_left (step gives_up textEncoder props) evs st) !! k
                  = Some entry -> entry_ok entry)) as Hfold.
  { induction evs as [|ev evs IH]; intros st Hp Hok; [auto|].
    cbn [fold_left].
    destruct (step_keeps_invariants st ev Hp Hok) as [Hp' Hok'].
    apply IH; assumption. }
  destruct (Hfold (mount (append_calls textEncoder calls ∅) now))
    as [Hp Hok].
  - left. reflexivity.
  - cbn. apply append_calls_ok.
  - split; [exact Hp|]. intros sid entry H.
    destruct (Hok sid entry H). auto.
Qed.

(** X9.  What the cleanup leaves for the next mount of the same session
    when no history arrives there before the fallback timer: with
    [keepAlive] the snapshot map is untouched and the timer replays the
    cached text, if there is any; without it the session's snapshot is
    gone and nothing is replayed. *)
Theorem keepAlive_decides_replay (st : State) (now : Z) :
  let cached := getSnapshotText (id props) (terminalSnapshots st) in
  let left := terminalSnapshots (cleanup props st) in
  let again := step gives_up textEncoder props (mount left now) TimerFires in
  if keepAlive props
  then left = terminalSnapshots st
       /\ term_writes again = (if falsy cached then [] else [cached])
       /\ historyReplayedViaFallback again = negb (falsy cached)
  else getSnapshotText (id props) left = []
       /\ term_writes again = []
       /\ historyReplayedViaFallback again = false.
Proof.
  cbv zeta.
  assert (terminalSnapshots (cleanup props st)
          = if keepAlive props then terminalSnapshots st
            else clearSnapshot (id props) (terminalSnapshots st)) as Hleft.
  { unfold cleanup. destruct (keepAlive props); cbn;
      destruct (fallbackTimer st); reflexivity. }
  rewrite Hleft. unfold step, fallback_callback. cbn.
  destruct (keepAlive props).
  - split; [reflexivity|].
    destruct (getSnapshotText (id props) (terminalSnapshots st));
      cbn; auto.
  - assert (getSnapshotText (id props)
              (clearSnapshot (id props) (terminalSnapshots st)) = []) as E.
    { unfold getSnapshotText, clearSnapshot. rewrite lookup_delete_eq.
      reflexivity. }
    rewrite E. cbn. auto.
Qed.

(** X10.  Live output that arrives before the fallback timer, on a
    session that gets no history, reaches the terminal twice: it is
    written when it arrives and appended to the snapshot, and the timer
    then replays the snapshot, which ends with it. *)
Theorem early_live_output_is_replayed
  (calls : list (jsstring * jsstring)) (now : Z) (data : jsstring) :
  let sanitized := (sanitizeEchoArtifacts gives_up [] data).1 in
  let before := append_calls textEncoder calls ∅ in
  sanitized <> [] ->
  exists dropped kept,
    getSnapshotText (id props) before = dropped ++ kept
    /\ term_writes
         (run gives_up textEncoder props [PtyData data; TimerFires]
            (mount before now))
       = [sanitized; kept ++ sanitized].
Proof.
  cbv zeta. intros Hne.
  destruct (append_read textEncoder calls (id props) _ Hne)
    as (k & Hk & Hread & _).
  cbv zeta in Hread.
  exists (concat (map chunk_text
                    (take k (chunks_of (id props)
                               (append_calls textEncoder calls ∅))))),
         (concat (map chunk_text
                    (drop k (chunks_of (id props)
                               (append_calls textEncoder calls ∅))))).
  split.
  - rewrite getSnapshotText_concat, <- concat_app, <- map_app, take_drop.
    reflexivity.
  - unfold run. cbn [fold_left].
    pose proof (chunk_step (mount (append_calls textEncoder calls ∅) now)
                  false data eq_refl) as Hstep.
    cbv zeta in Hstep.
    set (st1 := step gives_up textEncoder props
                  (mount (append_calls textEncoder calls ∅) now)
                  (PtyData data)) in *.
    cbn [mount pendingOscRef term_writes terminalSnapshots historyReceived
         fallbackTimer historyReplayedViaFallback andb orb app] in Hstep.
    destruct Hstep as (Hw & Hs & _ & _ & Ht & Hd & Hh).
    destruct ((sanitizeEchoArtifacts gives_up [] data).1) as [|c0 rest] eqn:Es;
      [congruence|].
    cbn [falsy] in Hw.
    unfold step. rewrite Hd, Ht. unfold fallback_callback.
    cbn [historyReceived set_fallbackTimer terminalSnapshots].
    rewrite Hh, Hs, Hread. cbn [negb].
    destruct (concat _ ++ c0 :: rest) eqn:E.
    + destruct (concat (map chunk_text _)); discriminate.
    + cbn [term_write set_historyReplayedViaFallback set_fallbackTimer
           term_writes falsy negb].
      rewrite Hw. reflexivity.
Qed.

End More.

Lemma early_live_output_is_replayed_witness :
  (sanitizeEchoArtifacts bounded_engine [] (js "ls")).1 <> []
  /\ exists dropped kept,
      getSnapshotText (id plain_props) (append_calls true [] ∅)
      = dropped ++ kept
      /\ term_writes
           (run bounded_engine true plain_props [PtyData (js "ls"); TimerFires]
              (mount (append_calls true [] ∅) 0))
         = [(sanitizeEchoArtifacts bounded_engine [] (js "ls")).1;
            kept ++ (sanitizeEchoArtifacts bounded_engine [] (js "ls")).1].
Proof.
  assert ((sanitizeEchoArtifacts bounded_engine [] (js "ls")).1 <> []) as Hne
      by (vm_compute; discriminate).
  split; [exact Hne|].
  exact (early_live_output_is_replayed bounded_engine true plain_props [] 0
           (js "ls") Hne).
Defined.

End ReconcilerMore.

(** ** The focus registry: its ids, focusing by id *)

Module FocusRegistryMore.
Import FocusRegistry FocusRegistryFacts Samples.

Lemma registry_snoc (calls : list RegistryCall) (call : RegistryCall) :
  registry_after (calls ++ [call]) = apply_call (registry_after calls) call.
Proof. unfold registry_after. rewrite fold_left_app. reflexivity. Qed.

Lemma map_get_delete (key key' : jsstring) (m : Registry) :
  NoDup (map fst m) ->
  map_get key' (map_delete key m)
  = if decide (key' = key) then None else map_get key' m.
Proof.
  intros Hnd. destruct (map_delete_keys key m Hnd) as (_ & Hgone & Hother).
  destruct (decide (key' = key)) as [->|Hne].
  - apply map_get_None. exact Hgone.
  - apply Hother. exact Hne.
Qed.

(** Every handler in the registry was passed to [registerTerminalFocus]
    with its id. *)
Lemma registered_by_call (calls : list RegistryCall) :
  forall id handler,
    map_get id (registry_after calls) = Some handler ->
    In (Register id handler) calls.
Proof.
  induction calls as [|call calls IH] using rev_ind; intros id handler.
  - discriminate.
  - rewrite registry_snoc, in_app_iff.
    destruct (registry_after_keys calls) as [Hnd _].
    destruct call as [id0 h0|id0 h0]; cbn [apply_call].
    + unfold registerTerminalFocus. destruct (falsy id0); [auto|].
      destruct (decide (id0 = id)) as [->|Hne].
      * rewrite map_get_set_eq. intros [= <-]. right. left. reflexivity.
      * rewrite map_get_set_ne by exact Hne. auto.
    + unfold unregisterTerminalFocus. destruct (falsy id0); [auto|].
      assert (map_get id (map_delete id0 (registry_after calls))
              = Some handler ->
              In (Register id handler) calls) as Hdel.
      { rewrite map_get_delete by exact Hnd.
        destruct (decide (id = id0)); [discriminate | auto]. }
      destruct h0 as [h|]; [|auto].
      destruct (decide (map_get id0 (registry_after calls) = Some h)); auto.
Qed.

(** X11.  Whatever calls have been made, [getRegisteredTerminalIds]
    lists each id once and never the empty id; an id is listed exactly
    when it has a handler, and every handler in the registry was
    registered under its id by one of the calls. *)
Theorem registered_ids_are_distinct (calls : list RegistryCall) :
  let registry := registry_after calls in
  let ids := getRegisteredTerminalIds registry in
  NoDup ids
  /\ ([] ∉ ids)
  /\ (forall id, id ∈ ids <-> map_get id registry <> None)
  /\ (forall id handler,
        map_get id registry = Some handler ->
        In (Register id handler) calls).
Proof.
  cbv zeta. unfold getRegisteredTerminalIds.
  destruct (registry_after_keys calls) as [Hnd Hne].
  split; [exact Hnd|]. split; [exact Hne|]. split.
  - intros id. pose proof (map_get_None id (registry_after calls)) as H.
    split.
    + intros Hin Hnone. apply H in Hnone. contradiction.
    + intros Hsome. destruct (decide (id ∈ map fst (registry_after calls)))
        as [Hin|Hout]; [exact Hin|].
      exfalso. apply Hsome, H, Hout.
  - apply registered_by_call.
Qed.

Section Focus.

Variable invoke : FocusHandler -> outcome unit.

(** X12.  After [registerTerminalFocus(id, h)] with an id that is not
    empty, [focusTerminalById(id)] calls [h] and nothing else, and
    answers whether [h] returned; after [unregisterTerminalFocus(id)] it
    calls nothing and answers [false], as it does for the empty id. *)
Theorem focus_by_id_after_register (calls : list RegistryCall)
  (id : jsstring) (handler : FocusHandler) :
  id <> [] ->
  let registry := registry_after calls in
  let registered := registerTerminalFocus id handler registry in
  focusTerminalById invoke id registered
  = (match invoke handler with Ret _ => true | Throw => false end, [handler])
  /\ focusTerminalById invoke id
       (unregisterTerminalFocus id None registered) = (false, [])
  /\ focusTerminalById invoke id
       (unregisterTerminalFocus id (Some handler) registered) = (false, [])
  /\ focusTerminalById invoke [] registry = (false, []).
Proof.
  intros Hid registry registered.
  assert (registered = registry_after (calls ++ [Register id handler]))
    as Hreg by (rewrite registry_snoc; reflexivity).
  assert (map_get id registered = Some handler) as Hget.
  { unfold registered, registerTerminalFocus.
    destruct id; [congruence|]. apply map_get_set_eq. }
  assert (map_get id (map_delete id registered) = None) as Hdel.
  { destruct (registry_after_keys (calls ++ [Register id handler]))
      as [Hnd _].
    rewrite <- Hreg in Hnd. rewrite map_get_delete by exact Hnd.
    rewrite decide_True by reflexivity. reflexivity. }
  split; [|split; [|split]].
  - unfold focusTerminalById. rewrite Hget.
    destruct (invoke handler); reflexivity.
  - unfold focusTerminalById, unregisterTerminalFocus.
    destruct id; [congruence|]. cbn [falsy]. rewrite Hdel. reflexivity.
  - unfold focusTerminalById, unregisterTerminalFocus.
    destruct id; [congruence|]. cbn [falsy].
    rewrite decide_True by exact Hget. rewrite Hdel. reflexivity.
  - unfold focusTerminalById.
    destruct (registry_after_keys calls) as [_ Hne].
    apply map_get_None in Hne. fold registry in Hne. rewrite Hne.
    reflexivity.
Qed.

Lemma matching_absent_id (id : jsstring) (m : Registry) :
  id ∉ map fst m ->
  focusTerminalMatching invoke (is_id id) m = (Ret false, []).
Proof.
  induction m as [|[k v] m IH]; intros Hout; [reflexivity|].
  cbn [map fst] in Hout. apply not_elem_of_cons in Hout as [Hne Hout].
  cbn [focusTerminalMatching]. unfold try_entry. cbn [fst snd].
  change (is_id id k v) with (@Ret bool (bool_decide (k = id))).
  rewrite bool_decide_eq_false_2 by congruence. cbn [try_catch].
  rewrite (IH Hout). reflexivity.
Qed.

Lemma matching_one_id (id : jsstring) (m : Registry) :
  NoDup (map fst m) ->
  focusTerminalMatching invoke (is_id id) m
  = (Ret (focusTerminalById invoke id m).1,
     (focusTerminalById invoke id m).2).
Proof.
  induction m as [|[k v] m IH]; intros Hnd; [reflexivity|].
  cbn [map fst] in Hnd. apply NoDup_cons in Hnd as [Hk Hnd].
  cbn [focusTerminalMatching]. unfold try_entry, focusTerminalById.
  cbn [fst snd map_get].
  change (is_id id k v) with (@Ret bool (bool_decide (k = id))).
  destruct (decide (k = id)) as [->|Hne].
  - rewrite bool_decide_eq_true_2 by reflexivity.
    destruct (invoke v) as [u|]; cbn [try_catch]; [reflexivity|].
    rewrite (matching_absent_id id m Hk). reflexivity.
  - rewrite bool_decide_eq_false_2 by exact Hne. cbn [try_catch].
    rewrite (IH Hnd). unfold focusTerminalById.
    destruct (map_get id m); reflexivity.
Qed.

(** X13.  On any registry the calls can produce, scanning with the
    predicate that accepts one id does what [focusTerminalById] does for
    that id: the same answer and the same handler calls. *)
Theorem matching_one_id_is_focus_by_id (calls : list RegistryCall)
  (id : jsstring) :
  let registry := registry_after calls in
  focusTerminalMatching invoke (is_id id) registry
  = (Ret (focusTerminalById invoke id registry).1,
     (focusTerminalById invoke id registry).2).
Proof.
  cbv zeta. apply matching_one_id.
  destruct (registry_after_keys calls) as [Hnd _]. exact Hnd.
Qed.

End Focus.

Lemma focus_by_id_after_register_witness :
  js "d" <> []
  /\ focusTerminalById sample_invoke (js "d")
       (registerTerminalFocus (js "d") 3
          (registry_after [Register (js "c") 2]))
     = (true, [3]).
Proof.
  assert (js "d" <> []) as Hid by discriminate.
  split; [exact Hid|].
  exact (proj1 (focus_by_id_after_register sample_invoke
                  [Register (js "c") 2] (js "d") 3 Hid)).
Defined.

End FocusRegistryMore.

(** ** Starting the PTY *)

Module PtyStartMore.
Import PtyStart.

(** X14.  However the start settles, and whether or not the callbacks
    throw: when it resolves with [ok], nothing is written and
    [onStartSuccess], if given, is called once; otherwise one error line
    is written to the terminal and [onStartError], if given, is called
    once with a message, and never both callbacks.  For a resolved
    failure the line is the "Failed to start PTY:" heading followed by
    the reported error ("undefined" when there is none), and the
    message is the reported error when there is one and it is not
    empty, and "Failed to start PTY" otherwise, so it is never empty.
    For a rejection the message is the [message] of what was thrown
    when it has one that is not empty, and its string conversion
    otherwise, and the line is the "Error starting PTY:" heading
    followed by the message. *)
Theorem start_reports_once
  (onStartError : option (jsstring -> outcome unit))
  (onStartSuccess : option (unit -> outcome unit)) (settled : Settled) :
  let effects := start_settled onStartError onStartSuccess settled in
  if succeeded settled
  then effects = match onStartSuccess with
                 | Some _ => [OnStartSuccess]
                 | None => []
                 end
  else exists line text,
      effects = TermWriteln line
                  :: match onStartError with
                     | Some _ => [OnStartError text]
                     | None => []
                     end
      /\ match settled with
         | Resolved res =>
             let reported := match res with
                             | Some r => error r
                             | None => None
                             end in
             line = (ESC :: js "[31mFailed to start PTY:" ++ ESC :: js "[0m ")
                      ++ default (js "undefined") reported
             /\ (forall e, reported = Some e -> e <> [] -> text = e)
             /\ (reported = None \/ reported = Some [] ->
                 text = js "Failed to start PTY")
             /\ text <> []
         | Rejected e =>
             line = (ESC :: js "[31mError starting PTY:" ++ ESC :: js "[0m ")
                      ++ text
             /\ (forall m, message e = Some m -> m <> [] -> text = m)
             /\ (message e = None \/ message e = Some [] ->
                 text = as_string e)
         end.
Proof.
  cbv zeta. destruct settled as [[[[|] err]|]|e]; cbn [succeeded ok].
  - unfold start_settled, report_success. cbn.
    destruct onStartSuccess; reflexivity.
  - eexists _, (or_else err (js "Failed to start PTY")). split.
    + unfold start_settled, report_error. cbn [ok error negb app].
      rewrite app_nil_r. destruct onStartError; reflexivity.
    + cbn [error]. unfold or_else, concat_any.
      destruct err as [[|c text]|]; cbn [falsy default from_option id].
      * split; [reflexivity|]. split; [intros e [= <-]; congruence|].
        split; [reflexivity | discriminate].
      * split; [reflexivity|]. split; [intros e [= <-] _; reflexivity|].
        split; [intros [H|H]; discriminate | discriminate].
      * split; [reflexivity|]. split; [intros e H; discriminate|].
        split; [reflexivity | discriminate].
  - eexists _, (js "Failed to start PTY"). split.
    + unfold start_settled, report_error. cbn [negb app or_else].
      rewrite app_nil_r. destruct onStartError; reflexivity.
    + unfold concat_any. cbn [default from_option id].
      split; [reflexivity|]. split; [intros e H; discriminate|].
      split; [reflexivity | discriminate].
  - eexists _, (or_else (message e) (as_string e)). split.
    + unfold start_settled, report_error. destruct onStartError; reflexivity.
    + split; [reflexivity|]. unfold or_else.
      destruct (message e) as [[|c text]|]; cbn [falsy].
      * split; [intros m [= <-]; congruence | reflexivity].
      * split; [intros m [= <-] _; reflexivity|].
        intros [H|H]; discriminate.
      * split; [intros m H; discriminate | reflexivity].
Qed.

End PtyStartMore.

(** ** Dropped files *)

Module FileDropMore.
Import RegExp RegExpFacts FileDrop.

Section Literal.

Variable input : jsstring.
Variable c : N.
Variable t : jsstring.

Local Abbreviation len := (length input).
Local Abbreviation accept :=
  (fun (y : nat) (caps : captures) => Some (y, caps)).
Local Abbreviation swap :=
  (fun x : N => if (c =? x)%N then t else [x]).

Lemma matcher_lit (j : nat) :
  matcher input (lit c) j [] accept
  = if decide (input !! j = Some c) then Some (S j, []) else None.
Proof.
  unfold lit. cbn [matcher].
  destruct (input !! j) as [x|] eqn:E.
  - destruct (N.eqb_spec c x) as [->|Hne].
    + rewrite decide_True by reflexivity. reflexivity.
    + rewrite decide_False by congruence. reflexivity.
  - rewrite decide_False by discriminate. reflexivity.
Qed.

Lemma exec_loop_first (r : regex) :
  forall n i st en caps,
    exec_loop input r n i = Some (st, en, caps) ->
    forall j, i <= j < st -> matcher input r j [] accept = None.
Proof.
  induction n as [|n IH]; intros i st en caps; cbn [exec_loop];
    destruct (matcher input r i [] accept) as [[e c0]|] eqn:E.
  - intros [= <- <- <-] j Hj. lia.
  - discriminate.
  - intros [= <- <- <-] j Hj. lia.
  - intros H j Hj. destruct (decide (j = i)) as [->|Hne]; [exact E|].
    apply (IH _ _ _ _ H). lia.
Qed.

Lemma swap_untouched (l : jsstring) :
  (forall j, l !! j <> Some c) -> concat (map swap l) = l.
Proof.
  induction l as [|x l IH]; intros H; [reflexivity|]. cbn [map concat].
  destruct (N.eqb_spec c x) as [->|Hne].
  - exfalso. apply (H 0). reflexivity.
  - cbn [app]. f_equal. apply IH. intros j. apply (H (S j)).
Qed.

(** Replacing a single code unit everywhere: [input.replace(/c/g, t)]
    for a text [t] without [$]. *)
Lemma replace_literal_from :
  forall fuel i,
    i <= len -> S len - i <= fuel ->
    assemble input [Lit t] (collect_matches input (lit c) fuel i) i
    = concat (map swap (drop i input)).
Proof.
  induction fuel as [|fuel IH]; intros i Hi Hf; [lia|].
  cbn [collect_matches]. unfold exec.
  destruct (Nat.ltb_spec len i) as [Hlt|_]; [lia|].
  destruct (exec_loop input (lit c) (len - i) i) as [[[st en] caps]|] eqn:E.
  - pose proof (exec_loop_first _ _ _ _ _ _ E) as Hfirst.
    apply exec_loop_some in E as [Hst Hm].
    rewrite matcher_lit in Hm.
    destruct (decide (input !! st = Some c)) as [Hc|]; [|discriminate].
    injection Hm as <- <-.
    pose proof (lookup_lt_Some _ _ _ Hc) as Hlt.
    destruct (Nat.eqb_spec (S st) st) as [|_]; [lia|].
    cbn [assemble]. destruct (Nat.leb_spec i st) as [_|]; [|lia].
    rewrite IH by lia.
    unfold substitution. cbn [map concat]. rewrite app_nil_r.
    assert (drop i input
            = take (st - i) (drop i input) ++ c :: drop (S st) input) as Hsplit.
    { rewrite <- (take_drop (st - i) (drop i input)) at 1. f_equal.
      rewrite drop_drop. replace (i + (st - i)) with st by lia.
      apply drop_S. exact Hc. }
    rewrite Hsplit at 2. rewrite map_app, concat_app. cbn [map concat].
    rewrite N.eqb_refl. f_equal.
    symmetry. apply swap_untouched. intros j Hj.
    rewrite lookup_take_Some in Hj. destruct Hj as [Hj Hjlt].
    rewrite lookup_drop in Hj.
    specialize (Hfirst (i + j) ltac:(lia)). rewrite matcher_lit in Hfirst.
    destruct (decide (input !! (i + j) = Some c)); [discriminate|].
    contradiction.
  - cbn [assemble]. symmetry. apply swap_untouched. intros j Hj.
    rewrite lookup_drop in Hj.
    pose proof (lookup_lt_Some _ _ _ Hj) as Hlt.
    pose proof (proj1 (exec_loop_none input (lit c) (len - i) i) E (i + j)
                  ltac:(lia)) as Hnone.
    rewrite matcher_lit in Hnone.
    destruct (decide (input !! (i + j) = Some c)); [discriminate|].
    contradiction.
Qed.

Lemma replace_literal :
  replace input (lit c) [Lit t] = concat (map swap input).
Proof.
  unfold replace. rewrite replace_literal_from by lia. reflexivity.
Qed.

End Literal.

Lemma quote_path_spec (p : jsstring) :
  quote_path p = 39%N :: escape_quotes p ++ [39%N].
Proof.
  unfold quote_path, QUOTE. rewrite replace_literal. reflexivity.
Qed.

(** Reading the inside of a quoted path up to its closing quote. *)
Lemma sh_words_inside (p : jsstring) :
  forall w rest,
    sh_words (escape_quotes p ++ 39%N :: rest) (Some w) true
    = sh_words rest (Some (w ++ p)) false.
Proof.
  unfold escape_quotes.
  induction p as [|x p IH]; intros w rest.
  - cbn. rewrite app_nil_r. reflexivity.
  - cbn [map concat]. destruct (N.eqb_spec 39 x) as [<-|Hne].
    + change (js "'\''") with [39%N; 92%N; 39%N; 39%N].
      cbn [app sh_words N.eqb Pos.eqb default from_option id].
      rewrite IH. rewrite <- app_assoc. reflexivity.
    + cbn [app sh_words default from_option id].
      destruct (N.eqb_spec x 39) as [->|_]; [congruence|].
      rewrite IH. rewrite <- app_assoc. reflexivity.
Qed.

Lemma sh_words_quoted (p rest : jsstring) :
  sh_words (quote_path p ++ rest) None false
  = sh_words rest (Some p) false.
Proof.
  rewrite quote_path_spec. cbn [app sh_words N.eqb Pos.eqb default from_option id].
  rewrite <- app_assoc. cbn [app]. apply (sh_words_inside p [] rest).
Qed.

(** A shell reads the quoted paths back as they were. *)
Lemma sh_words_join (paths : list jsstring) :
  sh_words (join_spaces (map quote_path paths)) None false = Some paths.
Proof.
  induction paths as [|p [|q paths] IH]; [reflexivity| |].
  - cbn [map join_spaces].
    rewrite <- (app_nil_r (quote_path p)), sh_words_quoted. reflexivity.
  - change (join_spaces (map quote_path (p :: q :: paths)))
      with (quote_path p ++ js " "
              ++ join_spaces (map quote_path (q :: paths))).
    rewrite sh_words_quoted.
    change (js " ") with [32%N].
    cbn [app sh_words N.eqb Pos.eqb option_map default from_option id].
    rewrite IH. reflexivity.
Qed.

Lemma gather_paths_nonempty (dropped : list DroppedFile) :
  Forall (fun p => p <> []) (gather_paths dropped).
Proof.
  induction dropped as [|file dropped IH]; [constructor|].
  cbn [gather_paths]. destruct (path file) as [[|c p]|]; cbn [falsy];
    [exact IH | | exact IH].
  constructor; [discriminate | exact IH].
Qed.

(** X15.  [onDrop] sends input exactly when some dropped file has a
    path that is not empty, and what it sends is a line that a POSIX
    shell reads back as those paths, in order and unchanged, whatever
    code units they hold (quotes, spaces, backslashes, newlines). *)
Theorem dropped_paths_round_trip (dataTransfer : option DataTransfer) :
  let paths := gather_paths (dropped_files dataTransfer) in
  Forall (fun p => p <> []) paths
  /\ match onDrop dataTransfer with
     | Some data => paths <> [] /\ sh_words data None false = Some paths
     | None => paths = []
     end.
Proof.
  cbv zeta. split; [apply gather_paths_nonempty|].
  unfold onDrop, dropped_files.
  destruct dataTransfer as [[[dropped|]]|];
    cbn [files default from_option id]; try reflexivity.
  destruct dropped as [|file dropped]; [reflexivity|].
  destruct (gather_paths (file :: dropped)) as [|p paths] eqn:E;
    [reflexivity|].
  split; [discriminate | apply sh_words_join].
Qed.

End FileDropMore.

(** ** The sanitizer: it only removes, and it reassembles split OSC
       sequences *)

Module SanitizerMore.
Import RegExp RegExpFacts Sanitizer SanitizerFacts Samples.

Section Lengths.

Variable input : jsstring.

Local Abbreviation len := (length input).
Local Abbreviation accept :=
  (fun (y : nat) (caps : captures) => Some (y, caps)).

(** An expression without groups hands the captures on unchanged. *)
Lemma matcher_group_free (r : regex) :
  group_free r = true ->
  forall x caps (k : Continuation) res,
    matcher input r x caps k = Some res ->
    exists y, lang input r x y /\ k y caps = Some res.
Proof.
  induction r as [|p|r1 IH1 r2 IH2|r1 IH1 r2 IH2|g r1 IH1|n r1 IH1| | |r1 IH1];
    cbn [group_free]; intros Hg x caps k res H; cbn [matcher] in H;
    try discriminate.
  - exists x. split; [constructor | exact H].
  - destruct (input !! x) as [ch|] eqn:E; [|discriminate].
    destruct (p ch) eqn:Ep; [|discriminate].
    exists (S x). split; [econstructor; eauto | exact H].
  - apply andb_true_iff in Hg as [Hg1 Hg2].
    apply (IH1 Hg1) in H as (y & L1 & H).
    apply (IH2 Hg2) in H as (z & L2 & H).
    exists z. split; [econstructor; eauto | exact H].
  - apply andb_true_iff in Hg as [Hg1 Hg2].
    destruct (matcher input r1 x caps k) as [res'|] eqn:E.
    + injection H as <-. apply (IH1 Hg1) in E as (y & L & E).
      exists y. split; [apply lang_alt_l; exact L | exact E].
    + apply (IH2 Hg2) in H as (y & L & H).
      exists y. split; [apply lang_alt_r; exact L | exact H].
  - revert H. generalize (S (len - x)) as fuel. intros fuel.
    revert x caps res.
    induction fuel as [|fuel IHf]; intros x caps res H;
      cbn [RepeatMatcher] in H.
    + exists x. split; [constructor|].
      destruct g; [exact H|].
      destruct (k x caps); [exact H | discriminate].
    + assert (Hiter : forall res0,
                 matcher input r1 x caps
                   (fun y caps' =>
                      if y =? x then None
                      else RepeatMatcher (matcher input r1) g k fuel y caps')
                 = Some res0 ->
                 exists y, lang input (RStar g r1) x y
                           /\ k y caps = Some res0).
      { intros res0 E. apply (IH1 Hg) in E as (y & L & E).
        destruct (y =? x); [discriminate|].
        apply IHf in E as (z & L' & E).
        exists z. split; [econstructor; eauto | exact E]. }
      destruct g.
      * destruct (matcher input r1 x caps _) as [res'|] eqn:E.
        -- injection H as <-. apply Hiter. reflexivity.
        -- exists x. split; [constructor | exact H].
      * destruct (k x caps) as [res'|] eqn:E.
        -- injection H as <-. exists x. split; [constructor | exact E].
        -- apply Hiter. exact H.
  - destruct (Nat.eqb_spec x 0) as [->|]; [|discriminate].
    exists 0. split; [constructor | exact H].
  - destruct (Nat.eqb_spec x len) as [->|]; [|discriminate].
    exists len. split; [constructor | exact H].
  - destruct (matcher input r1 x caps accept) as [[e c]|] eqn:E;
      [|discriminate].
    apply (IH1 Hg) in E as (y & L & [= _ <-]).
    exists x. split; [econstructor; exact L | exact H].
Qed.

Lemma placed_from_earlier (template : list repl_item) (i i' : nat)
  (results : list (nat * nat * captures)) :
  i' <= i ->
  placed input template i results -> placed input template i' results.
Proof.
  destruct results as [|[[st en] caps] rest]; [auto|].
  cbn [placed]. intros Hle (H1 & H2 & H3 & H4 & H5).
  repeat split; try assumption; lia.
Qed.

Lemma collect_matches_placed (r : regex) (template : list repl_item) :
  (forall i st en caps,
      exec input r i = Some (st, en, caps) ->
      length (substitution input template caps) <= en - st) ->
  forall fuel i, placed input template i (collect_matches input r fuel i).
Proof.
  intros Hsub. induction fuel as [|fuel IH]; intros i; [exact I|].
  cbn [collect_matches].
  destruct (exec input r i) as [[[st en] caps]|] eqn:E; [|exact I].
  pose proof (Hsub _ _ _ _ E) as Hs.
  apply exec_sound in E as (Hst & Hen & L).
  cbn [placed]. split; [lia|]. split; [exact Hen|].
  split.
  - destruct (decide (st = en)) as [<-|Hne]; [lia|].
    apply (lang_bound _ _ _ _ L Hne).
  - split; [exact Hs|].
    eapply placed_from_earlier; [|apply IH].
    destruct (en =? st); lia.
Qed.

Lemma assemble_length (template : list repl_item) :
  forall results i,
    i <= len -> placed input template i results ->
    length (assemble input template results i) <= len - i.
Proof.
  induction results as [|[[st en] caps] rest IH]; intros i Hi Hp.
  - cbn [assemble]. rewrite length_drop. lia.
  - cbn [placed] in Hp. destruct Hp as (H1 & H2 & H3 & H4 & H5).
    cbn [assemble]. destruct (Nat.leb_spec i st) as [_|]; [|lia].
    rewrite !length_app, length_take, length_drop.
    specialize (IH en H3 H5). lia.
Qed.

(** [replace] does not lengthen the input when no replacement is longer
    than its match. *)
Lemma replace_length (r : regex) (template : list repl_item) :
  (forall i st en caps,
      exec input r i = Some (st, en, caps) ->
      length (substitution input template caps) <= en - st) ->
  length (replace input r template) <= len.
Proof.
  intros Hsub. unfold replace.
  pose proof (assemble_length template
                (collect_matches input r (S len) 0) 0 ltac:(lia)
                (collect_matches_placed r template Hsub (S len) 0)).
  lia.
Qed.

Lemma replace_removing (r : regex) :
  length (replace input r []) <= len.
Proof.
  apply replace_length. intros i st en caps _. cbn. lia.
Qed.

(** A leading group [(^|[...])] captures from the start of the match
    to some index inside it, when nothing after it captures. *)
Lemma leading_group_capture (n : nat) (p : N -> bool) (rest : regex)
  (st en : nat) (caps : captures) :
  group_free rest = true ->
  matcher input (RSeq (RGroup n (RAlt RBol (RChar p))) rest) st [] accept
  = Some (en, caps) ->
  exists y, caps = [(n, (st, y))] /\ st <= y <= en.
Proof.
  intros Hg Hm. cbn [matcher] in Hm.
  destruct (st =? 0).
  - destruct (matcher input rest st [(n, (st, st))] accept)
      as [res|] eqn:E.
    + injection Hm as ->.
      apply (matcher_group_free rest Hg) in E as (y & L & [= <- <-]).
      apply lang_le in L. exists st. split; [reflexivity | lia].
    + destruct (input !! st) as [ch|]; [|discriminate].
      destruct (p ch); [|discriminate].
      apply (matcher_group_free rest Hg) in Hm as (y & L & [= <- <-]).
      apply lang_le in L. exists (S st). split; [reflexivity | lia].
  - destruct (input !! st) as [ch|]; [|discriminate].
    destruct (p ch); [|discriminate].
    apply (matcher_group_free rest Hg) in Hm as (y & L & [= <- <-]).
    apply lang_le in L. exists (S st). split; [reflexivity | lia].
Qed.

(** The bare fragment captures what stands before the digits. *)
Lemma bare_fragment_capture (i st en : nat) (caps : captures) :
  exec input re_bare_fragment i = Some (st, en, caps) ->
  exists y, caps = [(1, (st, y))] /\ st <= y <= en.
Proof.
  intros E. unfold exec in E. destruct (len <? i); [discriminate|].
  apply exec_loop_some in E as [_ Hm].
  unfold re_bare_fragment in Hm.
  apply leading_group_capture in Hm; [exact Hm | reflexivity].
Qed.

Lemma replace_bare_fragment_length :
  length (replace input re_bare_fragment [Ref 1]) <= len.
Proof.
  apply replace_length. intros i st en caps E.
  apply bare_fragment_capture in E as (y & -> & Hy).
  cbn. rewrite app_nil_r, length_take. lia.
Qed.

End Lengths.

(** On an engine that never gives up, the returned text and the new
    pending buffer are the stripped text, cut in two. *)
Lemma sanitize_splits_stripped (pendingOsc chunk : jsstring) :
  (sanitizeEchoArtifacts unlimited pendingOsc chunk).1
    ++ (sanitizeEchoArtifacts unlimited pendingOsc chunk).2
  = stripped (pendingOsc ++ chunk).
Proof.
  unfold sanitizeEchoArtifacts, sanitize_try.
  cbn [replace_call test_call unlimited bind].
  fold (stripped (pendingOsc ++ chunk)).
  set (working := stripped (pendingOsc ++ chunk)).
  destruct (lastIndexOf_spec working osc_start)
    as [[Hl _]|(k & Hl & Hk & _)]; rewrite Hl.
  - cbn. apply app_nil_r.
  - destruct (Z.eqb_spec (Z.of_nat k) (-1)) as [Hneg|_]; [lia|].
    cbn [negb]. rewrite slice_from_nat, slice_0_nat by exact Hk.
    destruct (test (drop k working) re_osc_terminator); cbn [negb try_catch].
    + cbn. apply app_nil_r.
    + cbn. apply take_drop.
Qed.

(** The three replacements never make the text longer. *)
Lemma stripped_length (working : jsstring) :
  length (stripped working) <= length working.
Proof.
  unfold stripped.
  etransitivity; [apply replace_removing|].
  etransitivity; [apply replace_bare_fragment_length|].
  apply replace_removing.
Qed.

(** X16.  The sanitizer never adds, on any engine: the returned text
    and the new pending buffer together are never longer than the old
    pending buffer and the chunk.  When the [try] block completes, the
    returned text followed by the new pending buffer is the text left
    by the three replacements of the old pending buffer followed by the
    chunk: the cut at the last OSC start drops nothing.  When the engine
    gives up, the chunk is returned as it came and the buffer is
    emptied: what the old pending buffer held is lost. *)
Theorem sanitize_only_removes (gives_up : Engine)
  (pendingOsc chunk : jsstring) :
  let result := sanitizeEchoArtifacts gives_up pendingOsc chunk in
  length result.1 + length result.2 <= length pendingOsc + length chunk
  /\ match sanitize_try gives_up pendingOsc chunk with
     | Ret _ => result.1 ++ result.2 = stripped (pendingOsc ++ chunk)
     | Throw => result = (chunk, [])
     end.
Proof.
  cbv zeta. pose proof (sanitize_splits_stripped pendingOsc chunk) as H.
  destruct (sanitize_outcome gives_up pendingOsc chunk)
    as [[-> ->]|[-> ->]].
  - split; [cbn; lia | reflexivity].
  - split; [|exact H].
    rewrite <- length_app, H, <- length_app. apply stripped_length.
Qed.

(** An engine that completes its calls on texts as long as the pending
    buffer and the chunk together completes every call of the
    sanitizer: the texts only get shorter. *)
Lemma sanitize_within (gives_up : Engine) (pendingOsc chunk : jsstring) :
  returns_up_to gives_up (length pendingOsc + length chunk) ->
  sanitizeEchoArtifacts gives_up pendingOsc chunk
  = sanitizeEchoArtifacts unlimited pendingOsc chunk.
Proof.
  intros H.
  destruct (sanitize_outcome gives_up pendingOsc chunk) as [[Ht _]|[_ E]];
    [exfalso | exact E].
  revert Ht. unfold sanitize_try, replace_call, test_call. cbv zeta.
  pose proof (replace_removing (pendingOsc ++ chunk) re_device_attributes)
    as L1.
  pose proof (replace_bare_fragment_length
                (replace (pendingOsc ++ chunk) re_device_attributes []))
    as L2.
  pose proof (replace_removing
                (replace
                   (replace (pendingOsc ++ chunk) re_device_attributes [])
                   re_bare_fragment [Ref 1]) re_complete_osc) as L3.
  rewrite length_app in L1.
  rewrite (H re_device_attributes) by (rewrite length_app; lia). cbn [bind].
  rewrite (H re_bare_fragment) by lia. cbn [bind].
  rewrite (H re_complete_osc) by lia. cbn [bind].
  destruct (negb _); [|discriminate].
  rewrite (H re_osc_terminator).
  - cbn [bind]. destruct (negb _); discriminate.
  - unfold slice_from. rewrite length_drop. lia.
Qed.

Lemma returns_up_to_le (gives_up : Engine) (n m : nat) :
  n <= m -> returns_up_to gives_up m -> returns_up_to gives_up n.
Proof. intros Hle H r s Hs. apply H. lia. Qed.

Section Scan.

Variable w : jsstring.

Local Abbreviation accept :=
  (fun (y : nat) (caps : captures) => Some (y, caps)).

(** [[\s\S]] *)
Local Abbreviation any :=
  (RChar (fun c => is_space c || negb (is_space c))).

Lemma osc_terminator_none (z : nat) (caps : captures) (k : Continuation)
  (ch : N) :
  w !! z = Some ch -> ch <> BEL -> ch <> ESC ->
  matcher w osc_terminator z caps k = None.
Proof.
  intros Hz Hbel Hesc. unfold osc_terminator, lit. cbn [matcher].
  rewrite Hz.
  destruct (N.eqb_spec BEL ch) as [|_]; [congruence|].
  destruct (N.eqb_spec ESC ch) as [|_]; [congruence|]. reflexivity.
Qed.

Lemma osc_terminator_bel (z : nat) (caps : captures) :
  w !! z = Some BEL ->
  matcher w osc_terminator z caps accept = Some (S z, caps).
Proof.
  intros Hz. unfold osc_terminator, lit. cbn [matcher]. rewrite Hz.
  reflexivity.
Qed.

Lemma osc_terminator_st (z : nat) (caps : captures) :
  w !! z = Some ESC -> w !! S z = Some BACKSLASH ->
  matcher w osc_terminator z caps accept = Some (S (S z), caps).
Proof.
  intros Hz Hz'. unfold osc_terminator, lit. cbn [matcher].
  rewrite Hz, Hz'. reflexivity.
Qed.

Lemma matcher_seq (r1 r2 : regex) (x : nat) (caps : captures)
  (k : Continuation) :
  matcher w (RSeq r1 r2) x caps k
  = matcher w r1 x caps (fun y caps' => matcher w r2 y caps' k).
Proof. reflexivity. Qed.

(** The lazy loop of the OSC expression stops at the first terminator. *)
Lemma lazy_scan (caps : captures) :
  forall n x res,
    (forall i, i < n ->
       exists ch, w !! (x + i) = Some ch /\ ch <> BEL /\ ch <> ESC) ->
    matcher w osc_terminator (x + n) caps accept = Some res ->
    matcher w (RSeq (RStar false any) osc_terminator) x caps accept
    = Some res.
Proof.
  induction n as [|n IH]; intros x res Hbody Hterm.
  - rewrite Nat.add_0_r in Hterm.
    assert (x <= length w) as Hx.
    { destruct (w !! x) as [ch|] eqn:E.
      - apply lookup_lt_Some in E. lia.
      - unfold osc_terminator, lit in Hterm. cbn [matcher] in Hterm.
        rewrite E in Hterm. discriminate. }
    rewrite matcher_seq, matcher_star_unfold by exact Hx. cbv zeta.
    rewrite Hterm. reflexivity.
  - destruct (Hbody 0 ltac:(lia)) as (ch & Hch & Hbel & Hesc).
    rewrite Nat.add_0_r in Hch.
    assert (x <= length w) as Hx by (apply lookup_lt_Some in Hch; lia).
    rewrite matcher_seq, matcher_star_unfold by exact Hx. cbv zeta.
    rewrite (osc_terminator_none x caps _ ch Hch Hbel Hesc).
    change (matcher w any x caps ?k)
      with (match w !! x with
            | Some c => if is_space c || negb (is_space c)
                        then k (S x) caps else None
            | None => None
            end).
    rewrite Hch, orb_negb_r.
    destruct (Nat.eqb_spec (S x) x) as [|_]; [lia|].
    rewrite <- matcher_seq. apply IH.
    + intros i Hi. destruct (Hbody (S i) ltac:(lia)) as (ch' & H1 & H2).
      exists ch'. split; [|exact H2].
      replace (S x + i) with (x + S i) by lia. exact H1.
    + replace (S x + n) with (x + S n) by lia. exact Hterm.
Qed.

Lemma two_literals (a b : N) (r : regex) (x : nat) (caps : captures)
  (k : Continuation) :
  w !! x = Some a -> w !! S x = Some b ->
  matcher w (RSeq (lit a) (RSeq (lit b) r)) x caps k
  = matcher w r (S (S x)) caps k.
Proof.
  intros Ha Hb. unfold lit. cbn [matcher].
  rewrite Ha, N.eqb_refl, Hb, N.eqb_refl. reflexivity.
Qed.

Lemma test_false_exec (r : regex) :
  test w r = false -> exec w r 0 = None.
Proof.
  unfold test. destruct (exec w r 0); [discriminate | reflexivity].
Qed.

(** A Device Attributes response needs an ESC followed by a bracket. *)
Lemma no_device_attributes :
  (forall j, w !! j = Some ESC -> w !! S j <> Some 91%N) ->
  ~ occurs w re_device_attributes.
Proof.
  intros H (x & y & L). unfold re_device_attributes in L.
  inversion L; subst.
  match goal with H1 : lang w (lit ESC) _ _ |- _ =>
    apply lang_lit_inv in H1 as [Hesc ->] end.
  match goal with H1 : lang w (RSeq (lit 91) _) _ _ |- _ =>
    inversion H1; subst end.
  match goal with H1 : lang w (lit 91) _ _ |- _ =>
    apply lang_lit_inv in H1 as [Hbr _] end.
  exact (H x Hesc Hbr).
Qed.

(** A complete OSC sequence starts with ESC and holds a terminator two
    or more code units later. *)
Lemma complete_osc_inv (x y : nat) :
  lang w re_complete_osc x y ->
  w !! x = Some ESC
  /\ exists z, S (S x) <= z
               /\ (w !! z = Some BEL \/ w !! z = Some ESC).
Proof.
  unfold re_complete_osc. intros L. inversion L; subst.
  match goal with H1 : lang w (lit ESC) _ _ |- _ =>
    apply lang_lit_inv in H1 as [Hesc ->] end.
  match goal with H1 : lang w (RSeq (lit 93) _) _ _ |- _ =>
    inversion H1; subst end.
  match goal with H1 : lang w (lit 93) _ _ |- _ =>
    apply lang_lit_inv in H1 as [_ ->] end.
  match goal with H1 : lang w (RSeq (RStar _ _) _) _ _ |- _ =>
    inversion H1; subst end.
  match goal with H1 : lang w (RStar _ _) _ _ |- _ =>
    apply lang_le in H1 end.
  split; [exact Hesc|].
  match goal with H1 : lang w osc_terminator ?z _ |- _ =>
    exists z; split; [lia|]; unfold osc_terminator in H1; inversion H1; subst
  end.
  - match goal with H1 : lang w (lit BEL) _ _ |- _ =>
      apply lang_lit_inv in H1 as [H1 _]; left; exact H1 end.
  - match goal with H1 : lang w (RSeq (lit ESC) _) _ _ |- _ =>
      inversion H1; subst end.
    match goal with H1 : lang w (lit ESC) _ _ |- _ =>
      apply lang_lit_inv in H1 as [H1 _]; right; exact H1 end.
Qed.

Lemma exec_loop_hit (r : regex) (n i e : nat) (caps : captures) :
  matcher w r i [] accept = Some (e, caps) ->
  exec_loop w r n i = Some (i, e, caps).
Proof. intros H. destruct n; cbn [exec_loop]; rewrite H; reflexivity. Qed.

Lemma exec_none_from (r : regex) (i : nat) :
  (forall x y, i <= x -> ~ lang w r x y) -> exec w r i = None.
Proof.
  intros H. destruct (exec w r i) as [[[st en] caps]|] eqn:E; [|reflexivity].
  apply exec_sound in E as (Hst & _ & L). exfalso.
  apply (H st en); [lia | exact L].
Qed.

Lemma collect_matches_none (r : regex) (fuel i : nat) :
  exec w r i = None -> collect_matches w r fuel i = [].
Proof.
  intros H. destruct fuel; cbn [collect_matches]; [|rewrite H]; reflexivity.
Qed.

End Scan.

(** A chunk that ends inside an OSC sequence: the text before the
    sequence is returned and the sequence so far is kept back. *)
Lemma sanitize_unterminated (a b : jsstring) :
  Forall (fun ch => ch <> ESC) a ->
  Forall (fun ch => ch <> ESC /\ ch <> BEL) b ->
  test (a ++ osc_start ++ b) re_bare_fragment = false ->
  sanitizeEchoArtifacts unlimited [] (a ++ osc_start ++ b)
  = (a, osc_start ++ b).
Proof.
  intros Ha Hb Hbare.
  set (w := a ++ osc_start ++ b).
  assert (forall j ch, w !! j = Some ch ->
            (j < length a /\ ch <> ESC)
            \/ (j = length a /\ ch = ESC)
            \/ (j = S (length a) /\ ch = 93%N)
            \/ (S (S (length a)) <= j /\ ch <> ESC /\ ch <> BEL)) as Hat.
  { intros j ch Hj. unfold w in Hj. apply lookup_app_Some in Hj as [Hj|[Hle Hj]].
    - left. split; [apply lookup_lt_Some in Hj; exact Hj|].
      exact (proj1 (Forall_lookup _ a) Ha j ch Hj).
    - right. destruct (j - length a) as [|[|i]] eqn:E; cbn in Hj.
      + left. split; [lia | congruence].
      + right. left. split; [lia | congruence].
      + right. right. split; [lia|].
        exact (proj1 (Forall_lookup _ b) Hb i ch Hj). }
  assert (w !! length a = Some ESC) as Hesc.
  { unfold w. rewrite lookup_app_r by lia. rewrite Nat.sub_diag.
    reflexivity. }
  assert (w !! S (length a) = Some 93%N) as Hbr.
  { unfold w. rewrite lookup_app_r by lia.
    replace (S (length a) - length a) with 1 by lia. reflexivity. }
  assert (forall j, w !! j = Some ESC -> j = length a) as Honly.
  { intros j Hj.
    destruct (Hat j ESC Hj) as [[_ H]|[[H _]|[[_ H]|[_ [H _]]]]];
      first [exact H | congruence | discriminate]. }
  assert (replace w re_device_attributes [] = w) as H1.
  { apply replace_clean, no_device_attributes. intros j Hj.
    rewrite (Honly j Hj), Hbr. discriminate. }
  assert (replace w re_bare_fragment [Ref 1] = w) as H2
      by (apply replace_no_match, test_false_exec, Hbare).
  assert (replace w re_complete_osc [] = w) as H3.
  { apply replace_clean. intros (x & y & L).
    apply complete_osc_inv in L as (Hx & z & Hz & Hterm).
    apply Honly in Hx. subst x.
    destruct Hterm as [Hterm|Hterm];
      destruct (Hat z _ Hterm) as [[H _]|[[H _]|[[H _]|[_ [H H']]]]];
      first [lia | congruence]. }
  assert (drop (length a) w = osc_start ++ b) as Htail
      by (unfold w; apply drop_app_length).
  unfold sanitizeEchoArtifacts, sanitize_try.
  cbn [replace_call test_call unlimited bind app]. fold w.
  rewrite H1, H2, H3.
  destruct (lastIndexOf_spec w osc_start)
    as [[_ Hno]|(k & Hl & Hk & Hsw & _)].
  { exfalso. apply Hno. exists a, b. reflexivity. }
  assert (k = length a) as ->.
  { apply Honly. apply startsWith_spec in Hsw as [rest Hrest].
    rewrite <- (Nat.add_0_r k), <- lookup_drop, Hrest. reflexivity. }
  rewrite Hl.
  destruct (Z.eqb_spec (Z.of_nat (length a)) (-1)) as [Hneg|_]; [lia|].
  cbn [negb]. rewrite slice_from_nat, slice_0_nat by exact Hk.
  rewrite Htail.
  assert (test (osc_start ++ b) re_osc_terminator = false) as Ht.
  { apply test_osc_terminator_false. split.
    - intros Hin. apply includes_one in Hin as [j Hj].
      destruct j as [|[|j]]; cbn in Hj; try discriminate.
      destruct (proj1 (Forall_lookup _ b) Hb j BEL Hj) as [_ H].
      congruence.
    - intros Hin. apply includes_two in Hin as (j & Hj & Hj').
      destruct j as [|[|j]]; cbn in Hj, Hj'; try discriminate.
      destruct (proj1 (Forall_lookup _ b) Hb j ESC Hj) as [H _].
      congruence. }
  rewrite Ht. cbn [negb try_catch]. f_equal.
  unfold w. apply take_app_length.
Qed.

(** A text that begins with an OSC start and holds its terminator: the
    whole sequence goes, what follows it is returned. *)
Lemma sanitize_terminated (body term d : jsstring) :
  Forall (fun ch => ch <> ESC /\ ch <> BEL) body ->
  term = [BEL] \/ term = [ESC; BACKSLASH] ->
  Forall (fun ch => ch <> ESC) d ->
  test (osc_start ++ body ++ term ++ d) re_bare_fragment = false ->
  sanitizeEchoArtifacts unlimited [] (osc_start ++ body ++ term ++ d)
  = (d, []).
Proof.
  intros Hbody Hterm Hd Hbare.
  set (w := osc_start ++ body ++ term ++ d) in *.
  set (en := 2 + length body + length term).
  assert (forall i ch, (body ++ term ++ d) !! i = Some ch ->
            w !! S (S i) = Some ch) as Hshift by (intros i ch H; exact H).
  assert (forall i, i < length body ->
            exists ch, w !! (2 + i) = Some ch /\ ch <> BEL /\ ch <> ESC)
    as Hin.
  { intros i Hi. destruct (lookup_lt_is_Some_2 body i Hi) as [ch Hch].
    exists ch. split.
    - apply Hshift. rewrite lookup_app_l by exact Hi. exact Hch.
    - destruct (proj1 (Forall_lookup _ body) Hbody i ch Hch). auto. }
  assert (forall i ch, (term ++ d) !! i = Some ch ->
            w !! (2 + length body + i) = Some ch) as Hafter.
  { intros i ch H.
    replace (2 + length body + i) with (S (S (length body + i))) by lia.
    apply Hshift. rewrite lookup_app_r by lia.
    replace (length body + i - length body) with i by lia. exact H. }
  assert (matcher w osc_terminator (2 + length body) []
            (fun y caps => Some (y, caps)) = Some (en, [])) as Hstop.
  { unfold en. destruct Hterm as [->| ->].
    - rewrite osc_terminator_bel.
      + f_equal. f_equal. cbn [length]. lia.
      + rewrite <- (Nat.add_0_r (2 + length body)). apply Hafter.
        reflexivity.
    - rewrite osc_terminator_st.
      + f_equal. f_equal. cbn [length]. lia.
      + rewrite <- (Nat.add_0_r (2 + length body)). apply Hafter.
        reflexivity.
      + replace (S (2 + length body)) with (2 + length body + 1) by lia.
        apply Hafter. reflexivity. }
  assert (matcher w re_complete_osc 0 [] (fun y caps => Some (y, caps))
          = Some (en, [])) as Hmatch.
  { unfold re_complete_osc.
    rewrite (two_literals w ESC 93 _ 0 [] _ eq_refl eq_refl).
    apply (lazy_scan w [] (length body) 2); [exact Hin | exact Hstop]. }
  assert (forall j ch, en <= j -> w !! j = Some ch -> ch <> ESC) as Hrest.
  { intros j ch Hj Hch. unfold w in Hch.
    rewrite !app_assoc in Hch. rewrite lookup_app_r in Hch.
    - exact (proj1 (Forall_lookup _ d) Hd _ ch Hch).
    - rewrite !length_app. unfold en in Hj. cbn [length osc_start]. lia. }
  assert (drop en w = d) as Hdrop.
  { unfold w. rewrite !app_assoc.
    replace en with (length ((osc_start ++ body) ++ term)).
    - apply drop_app_length.
    - rewrite !length_app. unfold en. cbn [length osc_start]. lia. }
  assert (0 < length term) as Hlen
      by (destruct Hterm as [->| ->]; cbn; lia).
  assert (forall j, w !! j = Some ESC -> w !! S j <> Some 91%N) as Hda.
  { intros j Hj. destruct j as [|[|i]]; [discriminate | discriminate |].
    cbn in Hj. change (w !! S (S (S i))) with ((body ++ term ++ d) !! S i).
    apply lookup_app_Some in Hj as [Hj|[Hle Hj]].
    { destruct (proj1 (Forall_lookup _ body) Hbody i ESC Hj). congruence. }
    apply lookup_app_Some in Hj as [Hj|[Hle' Hj]].
    - rewrite lookup_app_r by lia.
      destruct Hterm as [->| ->].
      + destruct (i - length body) as [|n]; cbn in Hj; discriminate.
      + destruct (i - length body) as [|[|n]] eqn:E; cbn in Hj;
          try discriminate.
        replace (S i - length body) with 1 by lia. cbn. discriminate.
    - exfalso. exact (proj1 (Forall_lookup _ d) Hd _ ESC Hj eq_refl). }
  assert (replace w re_device_attributes [] = w) as H1
      by (apply replace_clean, no_device_attributes, Hda).
  assert (replace w re_bare_fragment [Ref 1] = w) as H2
      by (apply replace_no_match, test_false_exec, Hbare).
  assert (replace w re_complete_osc [] = d) as H3.
  { unfold replace. cbn [collect_matches]. unfold exec at 1.
    destruct (Nat.ltb_spec (length w) 0) as [|_]; [lia|].
    rewrite (exec_loop_hit w _ _ 0 en [] Hmatch).
    destruct (Nat.eqb_spec en 0) as [E|_]; [unfold en in E; lia|].
    rewrite collect_matches_none.
    - cbn [assemble Nat.leb]. cbn. exact Hdrop.
    - apply exec_none_from. intros x y Hx L.
      apply complete_osc_inv in L as [Hesc _].
      exact (Hrest x ESC Hx Hesc eq_refl). }
  unfold sanitizeEchoArtifacts, sanitize_try.
  cbn [replace_call test_call unlimited bind app]. fold w.
  rewrite H1, H2, H3.
  destruct (lastIndexOf_spec d osc_start)
    as [[Hl _]|(k & _ & Hk & Hsw & _)].
  - rewrite Hl. reflexivity.
  - exfalso. apply startsWith_spec in Hsw as [rest Hrest'].
    assert (d !! k = Some ESC) as Hesc.
    { rewrite <- (Nat.add_0_r k), <- lookup_drop, Hrest'. reflexivity. }
    exact (proj1 (Forall_lookup _ d) Hd k ESC Hesc eq_refl).
Qed.

(** X17.  An OSC sequence split between two chunks is removed as a
    whole.  When the first chunk is a text without ESC followed by an
    OSC start and a payload without ESC or BEL, and the second chunk is
    more such payload, the terminator (BEL, or ESC and a backslash) and
    a text without ESC, and the bare-fragment expression finds nothing
    in the first chunk nor in the reassembled text, then on every
    engine that completes its calls on texts as long as the two chunks
    together, the first call returns the text before the sequence and
    keeps the sequence back, and the second call returns the text after
    the terminator and leaves the buffer empty. *)
Theorem split_osc_is_reassembled (gives_up : Engine)
  (a b c term d : jsstring) :
  returns_up_to gives_up
    (length (a ++ osc_start ++ b) + length (c ++ term ++ d)) ->
  Forall (fun ch => ch <> ESC) a ->
  Forall (fun ch => ch <> ESC /\ ch <> BEL) b ->
  Forall (fun ch => ch <> ESC /\ ch <> BEL) c ->
  term = [BEL] \/ term = [ESC; BACKSLASH] ->
  Forall (fun ch => ch <> ESC) d ->
  test (a ++ osc_start ++ b) re_bare_fragment = false ->
  test (osc_start ++ (b ++ c) ++ term ++ d) re_bare_fragment = false ->
  let first := sanitizeEchoArtifacts gives_up [] (a ++ osc_start ++ b) in
  let second := sanitizeEchoArtifacts gives_up first.2 (c ++ term ++ d) in
  first = (a, osc_start ++ b) /\ second = (d, []).
Proof.
  intros Hg Ha Hb Hc Hterm Hd Hbare1 Hbare2. cbv zeta.
  assert (returns_up_to gives_up
            (length (@nil N) + length (a ++ osc_start ++ b))) as Hg1.
  { eapply returns_up_to_le; [|exact Hg]. cbn [length]. lia. }
  assert (returns_up_to gives_up
            (length (osc_start ++ b) + length (c ++ term ++ d))) as Hg2.
  { eapply returns_up_to_le; [|exact Hg]. rewrite !length_app. lia. }
  rewrite (sanitize_within gives_up [] (a ++ osc_start ++ b) Hg1).
  rewrite (sanitize_unterminated a b Ha Hb Hbare1). cbn [snd].
  split; [reflexivity|].
  rewrite (sanitize_within gives_up _ _ Hg2).
  rewrite sanitize_prepends.
  replace ((osc_start ++ b) ++ c ++ term ++ d)
    with (osc_start ++ (b ++ c) ++ term ++ d)
    by (rewrite <- !app_assoc; reflexivity).
  apply sanitize_terminated; try assumption.
  apply Forall_app. split; assumption.
Qed.

Lemma split_osc_is_reassembled_witness :
  returns_up_to bounded_engine
    (length (js "ab" ++ osc_start ++ js "0;ti")
     + length (js "tle" ++ [ESC; BACKSLASH] ++ js "rest"))
  /\ sanitizeEchoArtifacts bounded_engine [] (js "ab" ++ osc_start ++ js "0;ti")
     = (js "ab", osc_start ++ js "0;ti")
  /\ sanitizeEchoArtifacts bounded_engine
       (sanitizeEchoArtifacts bounded_engine []
          (js "ab" ++ osc_start ++ js "0;ti")).2
       (js "tle" ++ [ESC; BACKSLASH] ++ js "rest")
     = (js "rest", []).
Proof.
  assert (returns_up_to bounded_engine
            (length (js "ab" ++ osc_start ++ js "0;ti")
             + length (js "tle" ++ [ESC; BACKSLASH] ++ js "rest"))) as H.
  { intros r s Hs. unfold bounded_engine. apply N.ltb_ge.
    cbn in Hs. lia. }
  split; [exact H|].
  apply (split_osc_is_reassembled bounded_engine (js "ab") (js "0;ti")
           (js "tle") [ESC; BACKSLASH] (js "rest") H);
    first [ repeat constructor; discriminate
          | right; reflexivity
          | vm_compute; reflexivity ].
Defined.

End SanitizerMore.
